(** * emojify: the transform-and-partition pipeline of [index.js] and of its
      mask variant, embedded shallowly.

    The development follows the two source files:

    - strings, regular-expression literals and the prompt validators;
    - the numbers of the grid arithmetic and the parsing of the grid shape;
    - the Jimp image library, taken as an interface with a contract;
    - [applyFilters], [splitFrame], [getImageWithMask];
    - the two [init] drivers (grid mode and mask mode) as functions from the
      arguments and the decoded frames to the list of files they write.

    JavaScript strings are modelled as [string], one [ascii] per code unit
    (code units below 256). *)

From Stdlib Require Import ZArith Ascii String List Bool Lia.
From stdpp Require Import base tactics option list strings gmap pretty.

Open Scope string_scope.
Open Scope list_scope.
Open Scope Z_scope.

(** ** Strings *)

Module JsString.

(** [s.startsWith(c)] for a one-character string [c] *)
Definition startsWith (c : ascii) (s : string) : bool :=
  match s with
  | String d _ => Ascii.eqb d c
  | EmptyString => false
  end.

Fixpoint last_char (s : string) : option ascii :=
  match s with
  | EmptyString => None
  | String c EmptyString => Some c
  | String _ s' => last_char s'
  end.

(** [s.endsWith(c)] for a one-character string [c] *)
Definition endsWith (c : ascii) (s : string) : bool :=
  match last_char s with
  | Some d => Ascii.eqb d c
  | None => false
  end.

(** [s.substr(start, len)] for a non-negative [start]; a negative [len]
    counts as zero. *)
Definition substr (start len : Z) (s : string) : string :=
  String.substring (Z.to_nat start) (Z.to_nat len) s.

Definition length (s : string) : Z := Z.of_nat (String.length s).

(** [s.split(sep)] for a one-character [sep]: the segments between the occurrences of
    [sep]; never the empty list. *)
Fixpoint split (sep : ascii) (s : string) : list string :=
  match s with
  | EmptyString => [EmptyString]
  | String c s' =>
      if Ascii.eqb c sep then EmptyString :: split sep s'
      else match split sep s' with
           | seg :: segs => String c seg :: segs
           | [] => [String c EmptyString]
           end
  end.

(** [arr.pop()] on the result of [split]: the last segment. *)
Definition pop (segs : list string) : string := List.last segs EmptyString.

(** White space and line terminators of [String.prototype.trim] among the
    code units below 256. *)
Definition is_white (c : ascii) : bool :=
  let n := nat_of_ascii c in
  ((9 <=? n) && (n <=? 13))%nat || (n =? 32)%nat || (n =? 160)%nat.

Fixpoint trimStart (s : string) : string :=
  match s with
  | String c s' => if is_white c then trimStart s' else s
  | EmptyString => EmptyString
  end.

Fixpoint trimEnd (s : string) : string :=
  match s with
  | EmptyString => EmptyString
  | String c s' =>
      match trimEnd s' with
      | EmptyString => if is_white c then EmptyString else String c EmptyString
      | t => String c t
      end
  end.

Definition trim (s : string) : string := trimEnd (trimStart s).

(** [toLowerCase] on one code unit: A-Z, and the Latin-1 capitals. *)
Definition lower_char (c : ascii) : ascii :=
  let n := nat_of_ascii c in
  if ((65 <=? n) && (n <=? 90))%nat
     || ((192 <=? n) && (n <=? 222) && negb (n =? 215))%nat
  then ascii_of_nat (n + 32) else c.

Fixpoint toLowerCase (s : string) : string :=
  match s with
  | EmptyString => EmptyString
  | String c s' => String (lower_char c) (toLowerCase s')
  end.

End JsString.

(** ** Regular expressions

    The regular-expression literals of the source use character classes,
    concatenation, alternation, [?], [+], [*] and the anchors [^] and [$].
    They are kept as syntax and run by a derivative matcher; [lang] is the
    usual meaning of the syntax, and [matches_lang] relates the two. *)

Module Regex.

Inductive regex : Type :=
| Never
| Eps
| Class (p : ascii -> bool)
| Seq (r1 r2 : regex)
| Alt (r1 r2 : regex)
| Star (r : regex).

Definition Plus (r : regex) : regex := Seq r (Star r).
Definition Opt (r : regex) : regex := Alt r Eps.
Definition Chr (c : ascii) : regex := Class (Ascii.eqb c).
Definition Any : regex := Class (fun _ => true).

Fixpoint Lit (s : string) : regex :=
  match s with
  | EmptyString => Eps
  | String c s' => Seq (Chr c) (Lit s')
  end.

Fixpoint nullable (r : regex) : bool :=
  match r with
  | Never => false
  | Eps => true
  | Class _ => false
  | Seq r1 r2 => nullable r1 && nullable r2
  | Alt r1 r2 => nullable r1 || nullable r2
  | Star _ => true
  end.

Fixpoint deriv (c : ascii) (r : regex) : regex :=
  match r with
  | Never => Never
  | Eps => Never
  | Class p => if p c then Eps else Never
  | Seq r1 r2 =>
      if nullable r1 then Alt (Seq (deriv c r1) r2) (deriv c r2)
      else Seq (deriv c r1) r2
  | Alt r1 r2 => Alt (deriv c r1) (deriv c r2)
  | Star r1 => Seq (deriv c r1) (Star r1)
  end.

Fixpoint matches (r : regex) (s : string) : bool :=
  match s with
  | EmptyString => nullable r
  | String c s' => matches (deriv c r) s'
  end.

(** [/^r$/.test(s)] *)
Definition test_whole (r : regex) (s : string) : bool := matches r s.
(** [/^r/.test(s)] *)
Definition test_prefix (r : regex) (s : string) : bool :=
  matches (Seq r (Star Any)) s.
(** [/r$/.test(s)] *)
Definition test_suffix (r : regex) (s : string) : bool :=
  matches (Seq (Star Any) r) s.
(** [/r/.test(s)] *)
Definition test_anywhere (r : regex) (s : string) : bool :=
  matches (Seq (Star Any) (Seq r (Star Any))) s.

Inductive lang : regex -> string -> Prop :=
| L_eps : lang Eps EmptyString
| L_class p c : p c = true -> lang (Class p) (String c EmptyString)
| L_seq r1 r2 s1 s2 : lang r1 s1 -> lang r2 s2 -> lang (Seq r1 r2) (s1 +:+ s2)
| L_alt_l r1 r2 s : lang r1 s -> lang (Alt r1 r2) s
| L_alt_r r1 r2 s : lang r2 s -> lang (Alt r1 r2) s
| L_star_nil r : lang (Star r) EmptyString
| L_star_cons r s1 s2 :
    lang r s1 -> lang (Star r) s2 -> lang (Star r) (s1 +:+ s2).

End Regex.

(** ** The regular-expression literals and the prompt validators *)

Module Prompts.
Import Regex.

Definition in_range (lo hi : nat) (c : ascii) : bool :=
  let n := nat_of_ascii c in ((lo <=? n) && (n <=? hi))%nat.

(** [[0-9]] *)
Definition is_digit (c : ascii) : bool := in_range 48 57 c.
Definition digit : regex := Class is_digit.

(** [[,|x]] *)
Definition is_separator (c : ascii) : bool :=
  Ascii.eqb c "," || Ascii.eqb c "|" || Ascii.eqb c "x".

(** [/^[0-9]+[,|x][0-9]+$/] *)
Definition DIMENSIONS_W_H_REGEX : regex :=
  Seq (Plus digit) (Seq (Class is_separator) (Plus digit)).

(** [/^[0-9]+$/] *)
Definition DIMENSIONS_N_REGEX : regex := Plus digit.

(** [(png|jpe?g|gif|bmp)] *)
Definition EXTENSIONS : regex :=
  Alt (Lit "png")
    (Alt (Seq (Lit "jp") (Seq (Opt (Chr "e")) (Chr "g")))
       (Alt (Lit "gif") (Lit "bmp"))).

(** [/\.(png|jpe?g|gif|bmp)'?$/] *)
Definition IMAGE_REGEX : regex :=
  Seq (Chr ".") (Seq EXTENSIONS (Opt (Chr "'"))).

(** [[a-z.\/\-]] *)
Definition is_url_char (c : ascii) : bool :=
  in_range 97 122 c || Ascii.eqb c "." || Ascii.eqb c "/" || Ascii.eqb c "-".

(** [/^http?s:\/\/[a-z.\/\-]*/] *)
Definition URL_REGEX : regex :=
  Seq (Lit "htt") (Seq (Opt (Chr "p"))
    (Seq (Lit "s://") (Star (Class is_url_char)))).

(** [[^/.]] *)
Definition not_slash_dot (c : ascii) : bool :=
  negb (Ascii.eqb c "/" || Ascii.eqb c ".").

(** [/(^|\/)\.[^/.]/]: the alternative [^] anchors the match at the start
    of the string, the alternative [\/] lets it start after any slash. *)
Definition hidden (item : string) : bool :=
  test_prefix (Seq (Chr ".") (Class not_slash_dot)) item
  || test_anywhere (Seq (Chr "/") (Seq (Chr ".") (Class not_slash_dot))) item.

(** [questions[0].validate]; [true] stands for acceptance, [false] for the
    error message. *)
Definition validate_image (value : string) : bool :=
  test_suffix IMAGE_REGEX (JsString.trim value).

(** [questions[0].format] *)
Definition format_image (value : string) : string := JsString.trim value.

(** [questions[1].validate] *)
Definition validate_dimensions (value : string) : bool :=
  test_whole DIMENSIONS_W_H_REGEX value || test_whole DIMENSIONS_N_REGEX value.

End Prompts.

(** ** Numbers of the grid arithmetic

    The grid code only meets integral doubles, the infinities and [NaN].
    [Int z] is the double of the integer [z]. [Number] rounds what it reads
    to the nearest double; products and differences are those of the
    integers, as they are up to 2^53, which is beyond every count a run can
    allocate. A variable that was never assigned, or an array slot past the
    end, is [None] ([undefined]). *)

Module JsNum.

Inductive jsnum : Type :=
| Int (z : Z)
| NaN
| Inf (negative : bool).

(** [Infinity] *)
Definition Infinity : jsnum := Inf false.

(** [a * b], after [ToNumber] of both operands *)
Definition mul (a b : option jsnum) : jsnum :=
  match a, b with
  | Some (Int x), Some (Int y) => Int (x * y)
  | Some (Inf s), Some (Int y) | Some (Int y), Some (Inf s) =>
      if y =? 0 then NaN else Inf (xorb s (y <? 0))
  | Some (Inf s), Some (Inf t) => Inf (xorb s t)
  | _, _ => NaN
  end.

(** [a - b] *)
Definition sub (a b : jsnum) : jsnum :=
  match a, b with
  | Int x, Int y => Int (x - y)
  | Inf s, Int _ => Inf s
  | Int _, Inf t => Inf (negb t)
  | Inf s, Inf t => if Bool.eqb s t then NaN else Inf s
  | _, _ => NaN
  end.

(** Whether [for (let i = 0; i < bound; i++)] has a last round: [i] stays
    below [Infinity] for ever. *)
Definition ends (bound : option jsnum) : bool :=
  match bound with
  | Some (Inf false) => false
  | _ => true
  end.

(** Number of rounds of [for (let i = 0; i < bound; i++)] when it has a
    last one: a comparison with [NaN] or [undefined] is false, and so is
    [0 < -Infinity]. *)
Definition trip (bound : option jsnum) : nat :=
  match bound with
  | Some (Int b) => Z.to_nat b
  | _ => 0%nat
  end.

(** [for (let i = 0; i < bound; i++) s = body(i, s)] *)
Definition for_lt {S : Type} (bound : option jsnum) (body : Z -> S -> S) (s : S) : S :=
  foldl (fun acc i => body i acc) s (seqZ 0 (Z.of_nat (trip bound))).

Definition digit_value (c : ascii) : option Z :=
  let n := nat_of_ascii c in
  if ((48 <=? n) && (n <=? 57))%nat then Some (Z.of_nat n - 48)
  else if ((97 <=? n) && (n <=? 102))%nat then Some (Z.of_nat n - 87)
  else if ((65 <=? n) && (n <=? 70))%nat then Some (Z.of_nat n - 55)
  else None.

(** Value of a run of digits in the given radix, most significant first;
    [None] when a character is not a digit of the radix. *)
Fixpoint digits_from (radix acc : Z) (s : string) : option Z :=
  match s with
  | EmptyString => Some acc
  | String c s' =>
      match digit_value c with
      | Some d => if d <? radix then digits_from radix (radix * acc + d) s' else None
      | None => None
      end
  end.

(** What follows a leading [0x] or [0X], when there is one. *)
Definition hex_prefix (s : string) : option string :=
  match s with
  | String c0 (String c1 rest) =>
      if Ascii.eqb c0 "0" && (Ascii.eqb c1 "x" || Ascii.eqb c1 "X")
      then Some rest else None
  | _ => None
  end.

(** The Number value of a non-negative integer, as Node computes it for a
    numeric literal: the integer itself below 2^53; from there on the
    nearest multiple of [2^e] that has 53 significant bits, the even one of
    two that are equally near; [Infinity] when that is 2^1024 or more. *)
Definition nearest_double (z : Z) : jsnum :=
  if z <? 2 ^ 53 then Int z
  else
    let e := Z.log2 z - 52 in
    let q := Z.shiftr z e in
    let r := z - Z.shiftl q e in
    let half := Z.shiftl 1 (e - 1) in
    let q := if r <? half then q
             else if half <? r then q + 1
             else if Z.even q then q else q + 1 in
    let v := Z.shiftl q e in
    if v <? 2 ^ 1024 then Int v else Infinity.

Definition literal (radix : Z) (s : string) : jsnum :=
  match digits_from radix 0 s with
  | Some v => nearest_double v
  | None => NaN
  end.

(** [Number(s)] on the strings the grid prompt lets through, which are made
    of decimal digits and the separators [,] [|] [x]: the empty string is
    0, a run of decimal digits is the double nearest to its value, [0x]
    followed by hexadecimal digits is a hexadecimal literal, and no other
    such string is a numeric literal. *)
Definition Number (s : string) : jsnum :=
  match s with
  | EmptyString => Int 0
  | _ =>
      match hex_prefix s with
      | Some (String c h) => literal 16 (String c h)
      | _ => literal 10 s
      end
  end.

(** Longest prefix of [s] made of digits of the radix, as a value; [None]
    when that prefix is empty. *)
Fixpoint digit_prefix (radix : Z) (acc : option Z) (s : string) : option Z :=
  match s with
  | EmptyString => acc
  | String c s' =>
      match digit_value c with
      | Some d =>
          if d <? radix
          then digit_prefix radix (Some (radix * default 0 acc + d)) s'
          else acc
      | None => acc
      end
  end.

(** [parseInt(s)] with no radix argument: leading white space is skipped,
    a sign is read, [0x] selects radix 16, and the longest run of digits is
    the value; [NaN] when there is no digit. *)
Definition parseInt (s : string) : jsnum :=
  let s := JsString.trimStart s in
  let '(sign, s) :=
    match s with
    | String "-" s' => (-1, s')
    | String "+" s' => (1, s')
    | _ => (1, s)
    end in
  let '(radix, s) :=
    match hex_prefix s with
    | Some s' => (16, s')
    | None => (10, s)
    end in
  match digit_prefix radix None s with
  | Some v => Int (sign * v)
  | None => NaN
  end.

End JsNum.

(** ** Exceptions

    How a call ends other than by returning: with an exception, or not at
    all. [Endless] stands for a loop that has no last round; the call never
    returns and nothing after it is reached. *)

Inductive error : Type :=
| TypeError (what : string)        (* calling something that is not a function *)
| ReferenceError (what : string)   (* reading a binding before its initialisation *)
| LibraryError (what : string)     (* thrown or rejected by a library *)
| Endless (what : string).         (* no exception: a loop with no last round,
                                      the call never returns *)

Inductive result (A : Type) : Type :=
| Ok (a : A)
| Throw (e : error).
Arguments Ok {A} a.
Arguments Throw {A} e.

Definition result_bind {A B : Type} (m : result A) (k : A -> result B) : result B :=
  match m with
  | Ok a => k a
  | Throw e => Throw e
  end.

Notation "'let*' x ':=' m 'in' k" := (result_bind m (fun x => k))
  (at level 10, x pattern, m at level 100, k at level 200).

(** [for (const x of l) acc = body(acc, x)], leaving at the first throw *)
Fixpoint foldM {A B : Type} (body : A -> B -> result A) (acc : A) (l : list B) : result A :=
  match l with
  | [] => Ok acc
  | x :: l' => let* acc' := body acc x in foldM body acc' l'
  end.

(** ** The libraries, as interfaces

    Jimp, gif-frames and gifwrap are not part of the repository. Their
    values are abstract; the program only calls their operations. *)

(** The doubles that reach the image library. *)
Class JsNumber : Type := {
  number : Type;
  of_Z : Z -> number;
  nan : number;
  (** [Infinity], [-Infinity] *)
  infinity : bool -> number;
  (** [a / b] *)
  div : number -> number -> number;
  (** [ToNumber] of a string *)
  of_string : string -> number;
}.

Inductive jsval `{JsNumber} : Type :=
| VUndefined
| VBool (b : bool)
| VNumber (x : number)
| VString (s : string).

(** [ToNumber(v)] *)
Definition ToNumber `{JsNumber} (v : jsval) : number :=
  match v with
  | VUndefined => nan
  | VBool b => of_Z (if b then 1 else 0)
  | VNumber x => x
  | VString s => of_string s
  end.

Definition to_number `{JsNumber} (n : JsNum.jsnum) : number :=
  match n with
  | JsNum.Int z => of_Z z
  | JsNum.NaN => nan
  | JsNum.Inf s => infinity s
  end.

(** [v === s] for a string literal [s] *)
Definition strict_eq_string `{JsNumber} (v : jsval) (s : string) : bool :=
  match v with
  | VString t => String.eqb t s
  | _ => false
  end.

(** A Jimp image. Every Jimp method changes its receiver in place and
    returns it, so a method is a function from the receiver to the changed
    receiver. The methods the program names in its text ([clone], [crop],
    [posterize], [mask]) are given directly; [method] looks a computed name
    up on the object, [None] when the object has no such function. *)
Class Jimp `{JsNumber} : Type := {
  image : Type;
  buffer : Type;
  method : string -> option (list jsval -> image -> result image);
  clone : image -> image;
  (** [img.crop(x, y, w, h)] *)
  crop : Z -> Z -> Z -> Z -> image -> image;
  (** [img.posterize(n)] *)
  posterize : Z -> image -> image;
  (** [img.mask(src, x, y)] *)
  mask : image -> Z -> Z -> image -> image;
  (** [img.bitmap.width], [img.bitmap.height], [img.bitmap.data] *)
  width : image -> Z;
  height : image -> Z;
  bitmap_data : image -> buffer;
}.

(** What the program relies on from Jimp about sizes. *)
Class JimpContract `{Jimp} : Prop := {
  clone_width : forall i, width (clone i) = width i;
  clone_height : forall i, height (clone i) = height i;
  crop_size : forall x y w h i,
    0 <= x -> 0 <= y -> 0 < w -> 0 < h ->
    x + w <= width i -> y + h <= height i ->
    width (crop x y w h i) = w /\ height (crop x y w h i) = h;
  posterize_width : forall n i, width (posterize n i) = width i;
  posterize_height : forall n i, height (posterize n i) = height i;
}.

(** A frame as gif-frames hands it over, already read by [Jimp.read]. *)
Class GifFrames `{Jimp} : Type := {
  frameInfo : Type;
  (** [frameInfo.delay], in centiseconds *)
  delay : frameInfo -> Z;
}.

Record Frame `{GifFrames} : Type := {
  getImage : image;
  frame_info : frameInfo;
}.

(** [new GifFrame(w, h, 0, { delayCentisecs })] with its bitmap data
    replaced. *)
Record GifFrame `{GifFrames} : Type := {
  gf_width : Z;
  gf_height : Z;
  delayCentisecs : Z;
  gf_data : buffer;
}.

(** Where gif-frames reads from: a local path, or the bytes fetched from a
    URL. *)
Inductive readable : Type :=
| Local (path : string)
| Fetched (url : string).

(** What a run reads from outside. *)
Record World `{GifFrames} : Type := {
  (** [Jimp.read(path)] *)
  jimp_read : string -> result image;
  (** [gifFrames({ url, frames: 'all', ... })] *)
  gifFrames : readable -> result (list Frame);
  (** [readdirSync(MASKS_PATH)] *)
  readdir : list string;
}.

(** What a run does to the file system, in the order the program issues
    it. A GIF is written once its encoding has finished; the entry stands
    for the encoding request and its write. *)
Inductive effect `{GifFrames} : Type :=
| EmptyDir (path : string)
| WriteHistory (path : string) (emoji : string)
| WriteGif (path : string) (frames : list GifFrame) (colorScope : Z)
| WriteImage (path : string) (img : image).

(** A tile of one frame, with the frame's metadata. *)
Record Entry `{GifFrames} : Type := {
  frame : image;
  frameInfo_of : frameInfo;
}.

(** [image[name](...args)]: a [TypeError] when the image has no such
    function. *)
Definition call `{Jimp} (name : string) (args : list jsval) (img : image) : result image :=
  match method name with
  | Some f => f args img
  | None => Throw (TypeError name)
  end.

(** A non-empty string is truthy; the empty string (and a missing answer)
    is falsy. *)
Definition truthy (s : string) : bool := negb (String.eqb s EmptyString).

(** The quote stripping both drivers start with:
    [if (image.startsWith("'") && image.endsWith("'"))
       image = image.substr(1, image.length - 2)] *)
Definition strip_quotes (image : string) : string :=
  if JsString.startsWith "'" image && JsString.endsWith "'" image
  then JsString.substr 1 (JsString.length image - 2) image
  else image.

(** [/^http?s:\/\/[a-z.\/\-]*/.test(image)] *)
Definition isUrl (image : string) : bool :=
  Regex.test_prefix Prompts.URL_REGEX image.

(** [image.split('.').pop()] *)
Definition extension (image : string) : string :=
  JsString.pop (JsString.split "." image).

(** ** index.js *)

Module Index.
Import JsNum.

Definition SIZE : Z := 64.

Section Pipeline.
Context `{G : GifFrames}.

Record Args : Type := {
  arg_image : string;
  arg_dimensions : string;
  arg_name : string;
  arg_mode : string;
  (** [undefined] when the advanced filters were not enabled *)
  arg_filters : option (list string);
  arg_filterValues : gmap string jsval;
}.

(** [filterValues[filter]] *)
Definition filterValue (filterValues : gmap string jsval) (filter : string) : jsval :=
  default VUndefined (filterValues !! filter).

(** The callback of [filters.forEach] in [applyFilters]: one [switch]
    on the filter name. *)
Definition applyFilter (filterValues : gmap string jsval)
    (img : image) (filter : string) : result image :=
  if String.eqb filter "flip" then
    if strict_eq_string (filterValue filterValues filter) "horizontal" then
      call filter [VBool true; VBool false] img
    else if strict_eq_string (filterValue filterValues filter) "vertical" then
      call filter [VBool false; VBool true] img
    else if strict_eq_string (filterValue filterValues filter) "both" then
      call filter [VBool true; VBool true] img
    else Ok img
  else if String.eqb filter "brightness" || String.eqb filter "contrast"
          || String.eqb filter "opacity" || String.eqb filter "rotate" then
    call filter [VNumber (div (ToNumber (filterValue filterValues filter)) (of_Z 100))] img
  else if String.eqb filter "posterize" then
    call filter [filterValue filterValues filter] img
  else
    call filter [] img.

Definition applyFilters (img : image) (filters : option (list string))
    (filterValues : gmap string jsval) : result image :=
  match filters with
  | Some (f :: fs) => foldM (applyFilter filterValues) img (f :: fs)
  | _ => Ok img
  end.

(** The body of the two loops of [splitFrame]: the tile at column [x],
    row [y]. *)
Definition tile (resized : image) (ext : string) (x y : Z) : image :=
  let cloned := clone resized in
  let cloned := crop (x * SIZE) (y * SIZE) SIZE SIZE cloned in
  if String.eqb ext "gif" then posterize 15 cloned else cloned.

(** The two loops return when the loop over the rows has a last round and,
    if it has a round at all, the loop over the columns has one too. *)
Definition splitFrame (img : image) (widthParts heightParts : option jsnum)
    (ext mode : string) : result (list image) :=
  let width := mul widthParts (Some (Int SIZE)) in
  let height := mul heightParts (Some (Int SIZE)) in
  let* resized := call mode [VNumber (to_number width); VNumber (to_number height)] img in
  if ends heightParts && ((trip heightParts =? 0)%nat || ends widthParts) then
    Ok (for_lt heightParts (fun y images =>
          for_lt widthParts (fun x images =>
            images ++ [tile resized ext x y]) images) [])
  else Throw (Endless "splitFrame").

(** The grid shape, as [init] reads it: [None] is the
    [Invalid dimensions] exit. *)
Definition parseDimensions (dimensions : string)
    : option (option jsnum * option jsnum) :=
  if Regex.test_whole Prompts.DIMENSIONS_W_H_REGEX dimensions then
    let parts := map Number (JsString.split "," dimensions) in
    Some (parts !! 0%nat, parts !! 1%nat)
  else if Regex.test_whole Prompts.DIMENSIONS_N_REGEX dimensions then
    Some (Some (Number dimensions), Some (Number dimensions))
  else None.

(** [gifs[j].push(entry)]: a [TypeError] when [gifs[j]] is undefined. *)
Definition push_at (gifs : list (list Entry)) (j : nat) (e : Entry)
    : result (list (list Entry)) :=
  match gifs !! j with
  | Some g => Ok (<[j := g ++ [e]]> gifs)
  | None => Throw (TypeError "push")
  end.

(** The inner loop over [frameParts] at lines 221-223. *)
Definition push_parts (gifs : list (list Entry)) (frameParts : list image)
    (info : frameInfo) : result (list (list Entry)) :=
  foldM (fun gifs '(j, part) =>
           push_at gifs j {| frame := part; frameInfo_of := info |})
        gifs (imap (fun j part => (j, part)) frameParts).

(** Lines 210-224: the empty per-tile lists, then one round per source
    frame. The first loop does not return when the product is
    [Infinity]. *)
Definition aggregate (frames : list Frame) (widthParts heightParts : option jsnum)
    (ext mode : string) (filters : option (list string))
    (filterValues : gmap string jsval) : result (list (list Entry)) :=
  if ends (Some (mul widthParts heightParts)) then
    let gifs := for_lt (Some (mul widthParts heightParts))
                  (fun _ gifs => gifs ++ [[]]) [] in
    foldM (fun gifs fr =>
             let jimpFrame := getImage fr in
             let* jimpFrame := applyFilters jimpFrame filters filterValues in
             let* frameParts := splitFrame jimpFrame widthParts heightParts ext mode in
             push_parts gifs frameParts (frame_info fr))
          gifs frames
  else Throw (Endless "init").

(** The callback of [gifs[i].map] at lines 229-233. *)
Definition toGifFrame (e : Entry) : GifFrame :=
  {| gf_width := SIZE; gf_height := SIZE;
     delayCentisecs := delay (frameInfo_of e);
     gf_data := bitmap_data (frame e) |}.

(** [count > 1 ? '-' + (i + 1) : ''] *)
Definition suffix (count : nat) (i : nat) : string :=
  if (1 <? count)%nat then "-" +:+ pretty (Z.of_nat i + 1) else EmptyString.

Definition gif_path (OUT_PATH name : string) (count i : nat) : string :=
  OUT_PATH +:+ "/" +:+ name +:+ "/" +:+ name +:+ suffix count i +:+ ".gif".

Definition image_path (OUT_PATH name ext : string) (count i : nat) : string :=
  OUT_PATH +:+ "/" +:+ name +:+ "/" +:+ name +:+ suffix count i +:+ "." +:+ ext.

(** [init]: the effects issued, and how the function ended. The two
    housekeeping calls come first; an exception leaves the effects
    issued before it. In the static branch the work is in a promise
    whose failures go to [console.log]: [init] has returned by then, also
    when the callback has a loop with no last round. An effect is a call
    issued; whether a write issued then succeeds is outside [init]. *)
Definition init (OUT_PATH DATA_PATH : string) (w : World) (args : Args)
    : list effect * result unit :=
  let image := arg_image args in
  let name := arg_name args in
  let housekeeping :=
    [EmptyDir (OUT_PATH +:+ "/" +:+ name);
     WriteHistory (DATA_PATH +:+ "/history.json") image] in
  if truthy image && truthy (arg_dimensions args) && truthy (arg_mode args) then
    let image := strip_quotes image in
    let isUrl := isUrl image in
    let ext := extension image in
    match parseDimensions (arg_dimensions args) with
    | None => (housekeeping, Ok tt)
    | Some (widthParts, heightParts) =>
        if String.eqb (JsString.toLowerCase ext) "gif" then
          let readable := if isUrl then Fetched image else Local image in
          match
            (let* frames := gifFrames w readable in
             aggregate frames widthParts heightParts ext (arg_mode args)
               (arg_filters args) (arg_filterValues args))
          with
          | Throw e => (housekeeping, Throw e)
          | Ok gifs =>
              (housekeeping ++
               imap (fun i g =>
                       WriteGif (gif_path OUT_PATH name (length gifs) i)
                         (map toGifFrame g) 2) gifs,
               Ok tt)
          end
        else
          match
            (let* img := jimp_read w image in
             let* img := applyFilters img (arg_filters args) (arg_filterValues args) in
             splitFrame img widthParts heightParts ext (arg_mode args))
          with
          | Throw e => (housekeeping, Ok tt)
          | Ok parts =>
              (housekeeping ++
               imap (fun count img =>
                       WriteImage (image_path OUT_PATH name ext (length parts) count) img)
                 parts,
               Ok tt)
          end
    end
  else (housekeeping, Ok tt).

End Pipeline.
End Index.

(** ** The mask variant *)

Module MaskVariant.
Import JsNum.

Definition SIZE : Z := 128.

Definition alphabet : list string :=
  ["A"; "B"; "C"; "D"; "E"; "F"; "G"; "H"; "I"; "J"; "K"; "L"; "M"; "N"; "O";
   "P"; "Q"; "R"; "S"; "T"; "U"; "V"; "W"; "X"; "Y"; "Z"; "exclamation";
   "question"; "period"; "comma"; "0"; "1"; "2"; "3"; "4"; "5"; "6"; "7"; "8";
   "9"; "open-parenthesis"; "close-parenthesis"; "open-bracket";
   "close-bracket"; "colon"; "semi-colon"; "equals"; "quote"; "apostrophe";
   "underscore"; "plus"; "minus"; "asterisk"; "slash"; "pipe"; "less-than";
   "greater-than"; "at-sign"; "hash"; "dollar-sign"; "modulo"; "caret";
   "ampersand"].

(** [arr[n]]: [undefined] for [NaN], a negative index, or one past the
    end. *)
Definition index {A : Type} (arr : list A) (n : jsnum) : option A :=
  match n with
  | Int z => if z <? 0 then None else arr !! Z.to_nat z
  | NaN | Inf _ => None
  end.

(** [const maskName = alphabet[parseInt(maskFile.split('.')[0]) - 1] || maskName]:
    when the left operand is [undefined] the right one is read, and it is
    the binding being initialised. *)
Definition maskName (maskFile : string) : result string :=
  let prefix := hd EmptyString (JsString.split "." maskFile) in
  match index alphabet (sub (parseInt prefix) (Int 1)) with
  | Some s => if truthy s then Ok s else Throw (ReferenceError "maskName")
  | None => Throw (ReferenceError "maskName")
  end.

Section Pipeline.
Context `{G : GifFrames}.

Record Args : Type := {
  arg_image : string;
  arg_name : string;
  arg_mode : string;
}.

(** The masked image, and the mask as the call leaves it: [mask[mode]]
    resizes the caller's mask object in place. *)
Definition getImageWithMask (img msk : image) (ext mode : string)
    : result (image * image) :=
  let width := SIZE in
  let height := SIZE in
  let* resized := call mode [VNumber (of_Z width); VNumber (of_Z height)] img in
  let cloned := clone resized in
  let cloned := crop 0 0 SIZE SIZE cloned in
  let* msk := call mode [VNumber (of_Z width); VNumber (of_Z height)] msk in
  let cloned := mask msk 0 0 cloned in
  let cloned := if String.eqb ext "gif" then posterize 15 cloned else cloned in
  Ok (cloned, msk).

(** Lines 53-57: one masked frame per source frame, the same mask
    object throughout. *)
Definition mask_frames (frames : list Frame) (msk : image) (ext mode : string)
    : result (list Entry * image) :=
  foldM (fun '(gif, msk) fr =>
           let jimpFrame := getImage fr in
           let* (frame, msk) := getImageWithMask jimpFrame msk ext mode in
           Ok (gif ++ [{| frame := frame; frameInfo_of := frame_info fr |}], msk))
        ([], msk) frames.

(** The callback of [gif.map] at lines 60-64. *)
Definition toGifFrame (e : Entry) : GifFrame :=
  {| gf_width := SIZE; gf_height := SIZE;
     delayCentisecs := delay (frameInfo_of e);
     gf_data := bitmap_data (frame e) |}.

(** One round of [for (const maskFile of masks)]: the image locator as
    the round leaves it, and the effects it issues. *)
Definition mask_round (OUT_PATH MASKS_PATH : string) (w : World)
    (name mode image maskFile : string) : string * result (list effect) :=
  let image := strip_quotes image in
  let isUrl := isUrl image in
  let ext := extension image in
  (image,
   let* maskName := maskName maskFile in
   let* msk := jimp_read w (MASKS_PATH +:+ "/" +:+ maskFile) in
   if String.eqb (JsString.toLowerCase ext) "gif" then
     let readable := if isUrl then Fetched image else Local image in
     let* frames := gifFrames w readable in
     let* (gif, _) := mask_frames frames msk ext mode in
     Ok [WriteGif (OUT_PATH +:+ "/" +:+ name +:+ "/" +:+ name +:+ "-" +:+ maskName +:+ ".gif")
           (map toGifFrame gif) 2]
   else
     match (let* img := jimp_read w image in getImageWithMask img msk ext mode) with
     | Ok (masked, _) =>
         Ok [WriteImage (OUT_PATH +:+ "/" +:+ name +:+ "/" +:+ name +:+ "." +:+ ext) masked]
     | Throw _ => Ok []
     end).

Fixpoint mask_loop (OUT_PATH MASKS_PATH : string) (w : World)
    (name mode image : string) (masks : list string) : list effect * result unit :=
  match masks with
  | [] => ([], Ok tt)
  | maskFile :: rest =>
      match mask_round OUT_PATH MASKS_PATH w name mode image maskFile with
      | (_, Throw e) => ([], Throw e)
      | (image, Ok effects) =>
          let '(later, r) := mask_loop OUT_PATH MASKS_PATH w name mode image rest in
          (effects ++ later, r)
      end
  end.

(** [init] of the mask variant. Nothing is returned when the locator is
    falsy: the message is printed and the loop runs all the same. *)
Definition init (OUT_PATH MASKS_PATH DATA_PATH : string) (w : World) (args : Args)
    : list effect * result unit :=
  let image := arg_image args in
  let name := arg_name args in
  let housekeeping :=
    [EmptyDir (OUT_PATH +:+ "/" +:+ name);
     WriteHistory (DATA_PATH +:+ "/history.json") image] in
  let masks := filter (fun item => negb (Prompts.hidden item) = true) (readdir w) in
  let '(effects, r) :=
    mask_loop OUT_PATH MASKS_PATH w name (arg_mode args) image masks in
  (housekeeping ++ effects, r).

End Pipeline.
End MaskVariant.

(** ** A recording double of the libraries

    An image that remembers where it was read from, its size, and the calls
    made on it; numbers are kept as the expressions that produced them. It
    has the methods the prompts can name. *)

Module Recorder.

Inductive sym : Type :=
| SInt (z : Z)
| SNaN
| SInfinity (negative : bool)
| SDiv (a b : sym)
| SOfString (s : string).

#[export] Instance sym_number : JsNumber :=
  {| number := sym; of_Z := SInt; nan := SNaN; infinity := SInfinity;
     div := SDiv; of_string := SOfString |}.

Inductive op : Type :=
| OpCall (name : string) (args : list jsval)
| OpCrop (x y w h : Z)
| OpPosterize (n : Z)
| OpMask (src : string) (x y : Z).

Record rimage : Type := {
  origin : string;
  rwidth : Z;
  rheight : Z;
  log : list op;
}.

Definition record (o : op) (i : rimage) : rimage :=
  {| origin := origin i; rwidth := rwidth i; rheight := rheight i; log := log i ++ [o] |}.

Definition resizers : list string := ["resize"; "cover"; "contain"].

Definition filters : list string :=
  ["brightness"; "contrast"; "invert"; "greyscale"; "sepia"; "normalize";
   "posterize"; "flip"; "rotate"; "fade"; "opacity"].

Definition mem (s : string) (l : list string) : bool := existsb (String.eqb s) l.

Definition rmethod (name : string) : option (list jsval -> rimage -> result rimage) :=
  if mem name resizers then
    Some (fun args i =>
      match args with
      | [VNumber (SInt w); VNumber (SInt h)] =>
          Ok {| origin := origin i; rwidth := w; rheight := h;
                log := log i ++ [OpCall name args] |}
      | _ => Throw (LibraryError name)
      end)
  else if mem name filters then Some (fun args i => Ok (record (OpCall name args) i))
  else None.

#[export] Instance rjimp : Jimp :=
  {| image := rimage; buffer := rimage;
     method := rmethod;
     clone := fun i => i;
     crop := fun x y w h i =>
       {| origin := origin i; rwidth := w; rheight := h;
          log := log i ++ [OpCrop x y w h] |};
     posterize := fun n i => record (OpPosterize n) i;
     mask := fun src x y i => record (OpMask (origin src) x y) i;
     width := rwidth; height := rheight;
     bitmap_data := fun i => i |}.

#[export] Instance rgif : GifFrames := {| frameInfo := Z; delay := fun d => d |}.

Definition blank (path : string) (w h : Z) : rimage :=
  {| origin := path; rwidth := w; rheight := h; log := [] |}.

(** A three-frame animation with delays 10, 10, 20. *)
Definition example_frames : list Frame :=
  [ {| getImage := blank "frame0" 256 256; frame_info := 10 |};
    {| getImage := blank "frame1" 256 256; frame_info := 10 |};
    {| getImage := blank "frame2" 256 256; frame_info := 20 |} ].

(** A world with 256 by 256 images everywhere, the animation above, and the
    given mask directory. *)
Definition world (masks : list string) : World :=
  {| jimp_read := fun path => Ok (blank path 256 256);
     gifFrames := fun r => Ok example_frames;
     readdir := masks |}.

(** The partition of every example frame, with no filter. *)
Definition example_parts (cols rows : Z) (ext mode : string) : list (list rimage) :=
  map (fun fr =>
         match Index.splitFrame (getImage fr) (Some (JsNum.Int cols))
                 (Some (JsNum.Int rows)) ext mode with
         | Ok tiles => tiles
         | Throw _ => []
         end) example_frames.

Definition example_args (image dimensions : string) : Index.Args :=
  {| Index.arg_image := image; Index.arg_dimensions := dimensions;
     Index.arg_name := "cat"; Index.arg_mode := "cover";
     Index.arg_filters := None; Index.arg_filterValues := ∅ |}.

Definition example_mask_args (image : string) : MaskVariant.Args :=
  {| MaskVariant.arg_image := image; MaskVariant.arg_name := "cat";
     MaskVariant.arg_mode := "cover" |}.

End Recorder.

(** ** The prompts for the filter values and for the name *)

Module FilterPrompts.

(** Filter Defaults, the table [FD]. *)
Definition BAC_MIN : Z := -100.
Definition BAC_MAX : Z := 100.
Definition OP_MIN : Z := 0.
Definition OP_MAX : Z := 100.
Definition POS_MIN : Z := 1.
Definition POS_MAX : Z := 255.

Inductive prompt_type : Type :=
| number_prompt
| select_prompt
| text_prompt.

Record choice : Type := {
  title : string;
  value : string;
}.

(** A prompt object. [validate] answers [true] for acceptance and [false]
    where the source answers with its message; [None] is a prompt with no
    such field. *)
Record prompt : Type := {
  p_type : prompt_type;
  p_name : string;
  p_message : string;
  p_initial : option Z;
  p_validate : option (Z -> bool);
  p_choices : list choice;
}.

(** [value >= lo && value <= hi] *)
Definition between (lo hi : Z) (v : Z) : bool := (lo <=? v) && (v <=? hi).

(** The callback of [filters.reduce] in [constructFilterPrompts]. *)
Definition add_prompt (acc : list prompt) (filter : string) : list prompt :=
  if String.eqb filter "brightness" || String.eqb filter "contrast" then
    acc ++ [{| p_type := number_prompt; p_name := filter;
               p_message := "Adjust " +:+ filter +:+ " level: (" +:+ pretty BAC_MIN
                            +:+ " - " +:+ pretty BAC_MAX +:+ ")";
               p_initial := Some 0;
               p_validate := Some (between BAC_MIN BAC_MAX);
               p_choices := [] |}]
  else if String.eqb filter "opacity" then
    acc ++ [{| p_type := number_prompt; p_name := filter;
               p_message := "Adjust opacity: (" +:+ pretty OP_MIN
                            +:+ " - " +:+ pretty OP_MAX +:+ ")";
               p_initial := Some 1;
               p_validate := Some (between OP_MIN OP_MAX);
               p_choices := [] |}]
  else if String.eqb filter "posterize" then
    acc ++ [{| p_type := number_prompt; p_name := filter;
               p_message := "Posterization levels: (" +:+ pretty POS_MIN
                            +:+ " - " +:+ pretty POS_MAX +:+ ")";
               p_initial := Some 8;
               p_validate := Some (between POS_MIN POS_MAX);
               p_choices := [] |}]
  else if String.eqb filter "rotate" then
    acc ++ [{| p_type := number_prompt; p_name := filter;
               p_message := "Rotate image: (deg)";
               p_initial := Some 0;
               p_validate := None;
               p_choices := [] |}]
  else if String.eqb filter "flip" then
    acc ++ [{| p_type := select_prompt; p_name := filter;
               p_message := "Flip image:";
               p_initial := None;
               p_validate := None;
               p_choices := [ {| title := "Vertical"; value := "vertical" |};
                              {| title := "Horizontal"; value := "horizontal" |};
                              {| title := "Both"; value := "both" |} ] |}]
  else acc.

Definition constructFilterPrompts (filters : list string) : list prompt :=
  fold_left add_prompt filters [].

(** [[a-zA-Z0-9-]] *)
Definition is_name_char (c : ascii) : bool :=
  Prompts.in_range 97 122 c || Prompts.in_range 65 90 c || Prompts.in_range 48 57 c
  || Ascii.eqb c "-".

(** [s.replace(/ /g, '-')]: every space becomes a dash. *)
Fixpoint replace_spaces (s : string) : string :=
  match s with
  | EmptyString => EmptyString
  | String c s' => String (if Ascii.eqb c " " then "-"%char else c) (replace_spaces s')
  end.

(** [s.replace(/[^a-zA-Z0-9-]*/g, '')]: the runs of characters outside the
    class are deleted, and the empty matches change nothing. *)
Fixpoint delete_unsafe (s : string) : string :=
  match s with
  | EmptyString => EmptyString
  | String c s' => if is_name_char c then String c (delete_unsafe s') else delete_unsafe s'
  end.

(** [arr.shift()] on the result of [split]: the first segment. *)
Definition shift (segs : list string) : string := hd EmptyString segs.

(** The default name of [finalQuestions]. *)
Definition imageName (image : string) : string :=
  let cleaned :=
    delete_unsafe
      (replace_spaces
         (shift (JsString.split "." (JsString.pop (JsString.split "/" image))))) in
  if truthy cleaned then cleaned else "emoji".

End FilterPrompts.

(** What the mask variant relies on from Jimp's [mask] about sizes. *)
Class MaskContract `{Jimp} : Prop := {
  mask_width : forall src x y i, width (mask src x y i) = width i;
  mask_height : forall src x y i, height (mask src x y i) = height i;
}.

(** ** Notions the statements use *)

Module Spec.

(** A non-empty run of decimal digits. *)
Fixpoint numeral (s : string) : bool :=
  match s with
  | EmptyString => false
  | String c EmptyString => Prompts.is_digit c
  | String c s' => Prompts.is_digit c && numeral s'
  end.

(** The integer a run of decimal digits denotes, digit by position. *)
Fixpoint decimal (s : string) : Z :=
  match s with
  | EmptyString => 0
  | String c s' =>
      (Z.of_nat (nat_of_ascii c) - 48) * 10 ^ Z.of_nat (String.length s') + decimal s'
  end.

(** A non-negative integer that a double holds: a significand below 2^53
    times a power of two, below 2^1024. *)
Definition is_double (v : Z) : Prop :=
  exists m k, 0 <= m < 2 ^ 53 /\ 0 <= k /\ v = m * 2 ^ k /\ v < 2 ^ 1024.

(** A double whose 53-bit significand is even. *)
Definition even_double (v : Z) : Prop :=
  exists m k, 2 ^ 52 <= m < 2 ^ 53 /\ 0 <= k /\ Z.even m = true /\ v = m * 2 ^ k.

(** The number the integer [z] is read as: a double, and no double is
    nearer to [z]; when another double is as near, the one with the even
    significand; [Infinity] from [2^1024 - 2^970] on, half a step past the
    largest double. *)
Definition reads_as (z : Z) (n : JsNum.jsnum) : Prop :=
  if z <? 2 ^ 1024 - 2 ^ 970
  then exists v, n = JsNum.Int v /\ is_double v
                 /\ (forall d, is_double d -> Z.abs (z - v) <= Z.abs (z - d))
                 /\ (forall d, is_double d -> d <> v ->
                               Z.abs (z - v) = Z.abs (z - d) -> even_double v)
  else n = JsNum.Infinity.

(** The extensions the image prompt names. *)
Definition extensions : list string := ["png"; "jpg"; "jpeg"; "gif"; "bmp"].

(** The filter names [applyFilters] has a case for. *)
Definition cased_filters : list string :=
  ["flip"; "brightness"; "contrast"; "opacity"; "rotate"; "posterize"].

(** The filters whose value is a number on the prompt's scale. *)
Definition scaled_filters : list string :=
  ["brightness"; "contrast"; "opacity"; "rotate"].

(** Row-major enumeration of a grid: rows outside, columns inside. *)
Definition row_major {A : Type} (cols rows : Z) (f : Z -> Z -> A) : list A :=
  flat_map (fun y => map (fun x => f x y) (seqZ 0 cols)) (seqZ 0 rows).

(** What one frame adds to a tile's sequence. *)
Definition snoc_entry `{GifFrames} (info : frameInfo) (g : list Entry) (part : image)
    : list Entry :=
  g ++ [{| frame := part; frameInfo_of := info |}].

(** A grid tile whose last step is the posterization to 15 levels, and one
    with no step after the cut. *)
Definition grid_posterized `{Jimp} (t : image) : Prop :=
  exists resized x y,
    t = posterize 15
          (crop (x * Index.SIZE) (y * Index.SIZE) Index.SIZE Index.SIZE (clone resized)).

Definition grid_plain `{Jimp} (t : image) : Prop :=
  exists resized x y,
    t = crop (x * Index.SIZE) (y * Index.SIZE) Index.SIZE Index.SIZE (clone resized).

(** The same for a masked frame: the mask is the step before. *)
Definition mask_posterized `{Jimp} (t : image) : Prop :=
  exists resized m,
    t = posterize 15
          (mask m 0 0 (crop 0 0 MaskVariant.SIZE MaskVariant.SIZE (clone resized))).

Definition mask_plain `{Jimp} (t : image) : Prop :=
  exists resized m,
    t = mask m 0 0 (crop 0 0 MaskVariant.SIZE MaskVariant.SIZE (clone resized)).

(** An effect whose images are as required: the frames of a written GIF
    carry the pixels of images in [in_gif], a written static image is in
    [in_static]. *)
Definition emitted_as `{GifFrames} (in_gif in_static : image -> Prop) (eff : effect) : Prop :=
  match eff with
  | WriteGif _ frames _ =>
      Forall (fun gf => exists t, gf_data gf = bitmap_data t /\ in_gif t) frames
  | WriteImage _ t => in_static t
  | _ => True
  end.

(** The name of output [k] among [n]: bare for a single output, numbered
    from 1 otherwise. *)
Definition file_name (name : string) (n k : nat) : string :=
  if (n =? 1)%nat then name else name +:+ "-" +:+ pretty (Z.of_nat k + 1).

End Spec.

(** ** Further example runs *)

Module Examples.
Import Recorder.


(** A numeral of [n] nines. *)
Fixpoint nines (n : nat) : string :=
  match n with
  | O => EmptyString
  | S n' => String "9" (nines n')
  end.

End Examples.

(** ** Further notions *)

Module Notions.

(** Every character of [s] satisfies [p]. *)
Fixpoint all_chars (p : ascii -> bool) (s : string) : bool :=
  match s with
  | EmptyString => true
  | String c s' => p c && all_chars p s'
  end.

Definition is_not (c d : ascii) : bool := negb (Ascii.eqb d c).

(** The filter has a case of its own in [applyFilters]. *)
Definition cased (filter : string) : bool :=
  existsb (String.eqb filter) Spec.cased_filters.

(** An effect that writes an output file. *)
Definition is_write `{GifFrames} (e : effect) : Prop :=
  match e with
  | WriteGif _ _ _ | WriteImage _ _ => True
  | _ => False
  end.

(** The two effects every run starts with. *)
Definition housekeeping `{GifFrames} (OUT_PATH DATA_PATH name image : string) : list effect :=
  [EmptyDir (OUT_PATH +:+ "/" +:+ name);
   WriteHistory (DATA_PATH +:+ "/history.json") image].

(** A written GIF has the delays [delays], in order, and declares every
    frame [size] by [size]. *)
Definition gif_keeps `{GifFrames} (size : Z) (delays : list Z) (e : effect) : Prop :=
  match e with
  | WriteGif _ frames _ =>
      map delayCentisecs frames = delays
      /\ Forall (fun f => gf_width f = size /\ gf_height f = size) frames
  | _ => True
  end.

End Notions.

(** * Proofs *)

(** ** Strings and the matcher *)

Module StringFacts.

Lemma app_nil_l (s : string) : EmptyString +:+ s = s.
Proof. reflexivity. Qed.

Lemma app_cons (c : ascii) (s t : string) : String c s +:+ t = String c (s +:+ t).
Proof. reflexivity. Qed.

Lemma app_nil_r (s : string) : s +:+ EmptyString = s.
Proof.
  induction s as [|c s IH]; [reflexivity | now rewrite app_cons, IH].
Qed.

Lemma app_assoc (s1 s2 s3 : string) : (s1 +:+ s2) +:+ s3 = s1 +:+ (s2 +:+ s3).
Proof.
  induction s1 as [|c s1 IH]; [reflexivity | now rewrite !app_cons, IH].
Qed.

Lemma app_eq_nil (s1 s2 : string) :
  s1 +:+ s2 = EmptyString -> s1 = EmptyString /\ s2 = EmptyString.
Proof. destruct s1; [auto | rewrite app_cons; discriminate]. Qed.

Lemma app_eq_cons (s1 s2 : string) (c : ascii) (s : string) :
  s1 +:+ s2 = String c s ->
  (s1 = EmptyString /\ s2 = String c s)
  \/ exists s1', s1 = String c s1' /\ s = s1' +:+ s2.
Proof.
  destruct s1 as [|d s1]; intros H.
  - left; auto.
  - right. rewrite app_cons in H. injection H as -> <-. eauto.
Qed.

Lemma length_app (s1 s2 : string) :
  String.length (s1 +:+ s2) = (String.length s1 + String.length s2)%nat.
Proof.
  induction s1 as [|c s1 IH]; [reflexivity | rewrite app_cons; simpl; now rewrite IH].
Qed.

End StringFacts.

Module RegexFacts.
Import Regex StringFacts.

Lemma lang_seq_inv (r1 r2 : regex) (s : string) :
  lang (Seq r1 r2) s <-> exists s1 s2, s = s1 +:+ s2 /\ lang r1 s1 /\ lang r2 s2.
Proof.
  split.
  - intros H. inversion H; subst. eauto.
  - intros (s1 & s2 & -> & H1 & H2). now constructor.
Qed.

Lemma lang_alt_inv (r1 r2 : regex) (s : string) :
  lang (Alt r1 r2) s <-> lang r1 s \/ lang r2 s.
Proof.
  split.
  - intros H. inversion H; subst; auto.
  - intros [H|H]; [now apply L_alt_l | now apply L_alt_r].
Qed.

Lemma lang_eps_inv (s : string) : lang Eps s <-> s = EmptyString.
Proof. split; [intros H; now inversion H | intros ->; constructor]. Qed.

Lemma lang_class_inv (p : ascii -> bool) (s : string) :
  lang (Class p) s <-> exists c, p c = true /\ s = String c EmptyString.
Proof.
  split.
  - intros H. inversion H; subst. eauto.
  - intros (c & Hp & ->). now constructor.
Qed.

Lemma lang_never_inv (s : string) : lang Never s <-> False.
Proof. split; [intros H; inversion H | intros []]. Qed.

Lemma nullable_lang (r : regex) : nullable r = true <-> lang r EmptyString.
Proof.
  induction r as [| |p|r1 IH1 r2 IH2|r1 IH1 r2 IH2|r IH]; simpl.
  - rewrite lang_never_inv. split; [discriminate | tauto].
  - rewrite lang_eps_inv. tauto.
  - rewrite lang_class_inv. split; [discriminate |].
    intros (c & _ & Hc). discriminate.
  - rewrite andb_true_iff, IH1, IH2, lang_seq_inv. split.
    + intros [H1 H2]. exists EmptyString, EmptyString. auto.
    + intros (s1 & s2 & Heq & H1 & H2). symmetry in Heq.
      apply app_eq_nil in Heq as [-> ->]. auto.
  - now rewrite orb_true_iff, IH1, IH2, lang_alt_inv.
  - split; [constructor | reflexivity].
Qed.

Lemma star_cons_inv (r : regex) (c : ascii) (s : string) :
  lang (Star r) (String c s) ->
  exists s1 s2, s = s1 +:+ s2 /\ lang r (String c s1) /\ lang (Star r) s2.
Proof.
  intros H. remember (Star r) as r' eqn:Hr. remember (String c s) as w eqn:Hw.
  revert s Hw.
  induction H as [| | | | | |r0 s1 s2 H1 _ H2 IH2]; intros t Hw; try discriminate.
  injection Hr as ->.
  apply app_eq_cons in Hw as [[-> ->]|(s1' & -> & ->)].
  - now apply IH2.
  - exists s1', s2. auto.
Qed.

Lemma deriv_lang (c : ascii) (r : regex) (s : string) :
  lang (deriv c r) s <-> lang r (String c s).
Proof.
  revert s.
  induction r as [| |p|r1 IH1 r2 IH2|r1 IH1 r2 IH2|r IH]; intros s; simpl.
  - now rewrite !lang_never_inv.
  - rewrite lang_never_inv, lang_eps_inv. split; [tauto | discriminate].
  - rewrite lang_class_inv. destruct (p c) eqn:Hp.
    + rewrite lang_eps_inv. split.
      * intros ->. eauto.
      * intros (d & _ & Hd). now injection Hd.
    + rewrite lang_never_inv. split; [tauto |].
      intros (d & Hd & Heq). injection Heq as <- _. congruence.
  - assert (Hseq : lang (Seq (deriv c r1) r2) s <->
                   exists s1 s2, s = s1 +:+ s2 /\ lang r1 (String c s1) /\ lang r2 s2).
    { rewrite lang_seq_inv. split; intros (s1 & s2 & -> & H1 & H2);
        exists s1, s2; (split; [reflexivity | split; [now apply IH1 | assumption]]). }
    assert (Hcons : lang (Seq r1 r2) (String c s) <->
              (lang r1 EmptyString /\ lang r2 (String c s))
              \/ exists s1 s2, s = s1 +:+ s2 /\ lang r1 (String c s1) /\ lang r2 s2).
    { rewrite lang_seq_inv. split.
      - intros (s1 & s2 & Heq & H1 & H2). symmetry in Heq.
        apply app_eq_cons in Heq as [[-> ->]|(s1' & -> & ->)]; [auto | eauto 7].
      - intros [[H1 H2]|(s1 & s2 & -> & H1 & H2)].
        + exists EmptyString, (String c s). auto.
        + exists (String c s1), s2. auto. }
    rewrite Hcons, <- Hseq, <- nullable_lang, <- IH2.
    destruct (nullable r1); [rewrite lang_alt_inv |]; intuition congruence.
  - now rewrite !lang_alt_inv, IH1, IH2.
  - rewrite lang_seq_inv. split.
    + intros (s1 & s2 & -> & H1 & H2). rewrite <- app_cons.
      constructor; [now apply IH | assumption].
    + intros H. apply star_cons_inv in H as (s1 & s2 & -> & H1 & H2).
      exists s1, s2. split; [reflexivity | split; [now apply IH | assumption]].
Qed.

Lemma matches_lang (r : regex) (s : string) : matches r s = true <-> lang r s.
Proof.
  revert r. induction s as [|c s IH]; intros r; simpl.
  - apply nullable_lang.
  - rewrite IH. apply deriv_lang.
Qed.

Lemma lang_any_star (s : string) : lang (Star Any) s.
Proof.
  induction s as [|c s IH]; [constructor |].
  change (String c s) with (String c EmptyString +:+ s).
  constructor; [now constructor | assumption].
Qed.

Lemma lang_chr_inv (c : ascii) (s : string) :
  lang (Chr c) s <-> s = String c EmptyString.
Proof.
  unfold Chr. rewrite lang_class_inv. split.
  - intros (d & Hd & ->). apply Ascii.eqb_eq in Hd. now subst.
  - intros ->. exists c. split; [apply Ascii.eqb_refl | reflexivity].
Qed.

Lemma lang_lit_inv (l s : string) : lang (Lit l) s <-> s = l.
Proof.
  revert s. induction l as [|c l IH]; intros s; simpl.
  - apply lang_eps_inv.
  - rewrite lang_seq_inv. split.
    + intros (s1 & s2 & -> & H1 & H2). apply lang_chr_inv in H1 as ->.
      apply IH in H2 as ->. reflexivity.
    + intros ->. exists (String c EmptyString), l.
      split; [reflexivity | split; [now apply lang_chr_inv | now apply IH]].
Qed.

Lemma lang_opt_inv (r : regex) (s : string) :
  lang (Opt r) s <-> lang r s \/ s = EmptyString.
Proof. unfold Opt. now rewrite lang_alt_inv, lang_eps_inv. Qed.

(** [/r$/.test(s)]: some suffix of [s] is in the language. *)
Lemma test_suffix_spec (r : regex) (s : string) :
  test_suffix r s = true <-> exists p t, s = p +:+ t /\ lang r t.
Proof.
  unfold test_suffix. rewrite matches_lang, lang_seq_inv. split.
  - intros (p & t & -> & _ & H). eauto.
  - intros (p & t & -> & H). exists p, t. auto using lang_any_star.
Qed.

(** [/^r/.test(s)]: some prefix of [s] is in the language. *)
Lemma test_prefix_spec (r : regex) (s : string) :
  test_prefix r s = true <-> exists p t, s = p +:+ t /\ lang r p.
Proof.
  unfold test_prefix. rewrite matches_lang, lang_seq_inv. split.
  - intros (p & t & -> & H & _). eauto.
  - intros (p & t & -> & H). exists p, t. auto using lang_any_star.
Qed.

End RegexFacts.

(** ** The prompts *)

Module PromptFacts.
Import Regex RegexFacts StringFacts Prompts.

Lemma lang_extensions (e : string) : lang EXTENSIONS e <-> In e Spec.extensions.
Proof.
  split.
  - unfold EXTENSIONS. rewrite !lang_alt_inv, !lang_lit_inv, !lang_seq_inv.
    intros [->|[(s1 & s2 & -> & H1 & H2)|[->| ->]]]; simpl; auto 10.
    apply lang_lit_inv in H1 as ->.
    apply lang_seq_inv in H2 as (o & g & -> & Ho & Hg).
    apply lang_chr_inv in Hg as ->.
    apply lang_opt_inv in Ho as [Ho| ->]; [apply lang_chr_inv in Ho as ->|];
      simpl; auto 10.
  - intros He. apply matches_lang. simpl in He.
    destruct He as [<-|[<-|[<-|[<-|[<-|[]]]]]]; reflexivity.
Qed.

Lemma lang_image_regex (t : string) :
  lang IMAGE_REGEX t <->
  exists e q, t = "." +:+ e +:+ q /\ In e Spec.extensions
              /\ (q = EmptyString \/ q = "'").
Proof.
  unfold IMAGE_REGEX. rewrite lang_seq_inv. split.
  - intros (d & r & -> & Hd & Hr). apply lang_chr_inv in Hd as ->.
    apply lang_seq_inv in Hr as (e & q & -> & He & Hq).
    exists e, q. split; [reflexivity|]. split; [now apply lang_extensions|].
    apply lang_opt_inv in Hq as [Hq|Hq]; [right; now apply lang_chr_inv | now left].
  - intros (e & q & -> & He & Hq). exists ".", (e +:+ q).
    split; [reflexivity|]. split; [now apply lang_chr_inv|].
    apply lang_seq_inv. exists e, q. split; [reflexivity|].
    split; [now apply lang_extensions|].
    apply lang_opt_inv. destruct Hq as [->| ->]; [now right | left; now apply lang_chr_inv].
Qed.

(** What [questions[0].validate] accepts. *)
Lemma validate_image_spec (value : string) :
  validate_image value = true <->
  exists p e q, JsString.trim value = p +:+ "." +:+ e +:+ q
                /\ In e Spec.extensions /\ (q = EmptyString \/ q = "'").
Proof.
  unfold validate_image. rewrite test_suffix_spec. split.
  - intros (p & t & Heq & Ht). apply lang_image_regex in Ht as (e & q & -> & He & Hq).
    exists p, e, q. auto.
  - intros (p & e & q & Heq & He & Hq). exists p, ("." +:+ e +:+ q).
    split; [assumption|]. apply lang_image_regex. eauto.
Qed.

End PromptFacts.

(** C10, as the code has it: the image prompt accepts a value exactly when
    its trimmed form ends with one of .png, .jpg, .jpeg, .gif, .bmp, in
    lower case, optionally followed by one single quote. *)
Theorem C10_validate_image_accepts (value : string) :
  Prompts.validate_image value = true <->
  exists p e q, JsString.trim value = p +:+ "." +:+ e +:+ q
                /\ In e Spec.extensions /\ (q = EmptyString \/ q = "'").
Proof. apply PromptFacts.validate_image_spec. Qed.

(** C10, the still-quoted path is accepted, and an upper-case extension is
    not: the check is case-sensitive. *)
Lemma C10_upper_case_extension_rejected :
  Prompts.validate_image "photo.png'" = true
  /\ Prompts.validate_image "photo.PNG" = false.
Proof. split; reflexivity. Qed.

(** ** The grid shape *)

(** ** Reading a numeral as a double *)

Module RoundingFacts.
Import JsNum Spec.

Lemma pow_split (a b : Z) : 0 <= a <= b -> 2 ^ b = 2 ^ a * 2 ^ (b - a).
Proof. intros H. rewrite <- Z.pow_add_r by lia. f_equal. lia. Qed.

(** The shape of the rounding: quotient, remainder, and the choice. *)
Lemma rounding_shape (z : Z) :
  2 ^ 53 <= z ->
  exists e P q r q',
    1 <= e /\ P = 2 ^ e /\ z = q * P + r /\ 0 <= r < P
    /\ 2 ^ 52 <= q < 2 ^ 53
    /\ e = Z.log2 z - 52
    /\ ((q' = q /\ 2 * r <= P /\ (2 * r = P -> Z.even q = true))
        \/ (q' = q + 1 /\ P <= 2 * r /\ (2 * r = P -> Z.even q = false)))
    /\ nearest_double z = if q' * P <? 2 ^ 1024 then Int (q' * P) else Infinity.
Proof.
  intros Hz.
  assert (Hlog : 53 <= Z.log2 z) by (apply Z.log2_le_pow2; lia).
  pose proof (Z.log2_spec z ltac:(lia)) as [Hlo Hhi].
  set (e := Z.log2 z - 52) in *.
  assert (He : 1 <= e) by lia.
  set (P := 2 ^ e).
  assert (HP : 0 < P) by (apply Z.pow_pos_nonneg; lia).
  assert (Hhalf : P = 2 * 2 ^ (e - 1)).
  { unfold P. rewrite <- Z.pow_succ_r by lia. f_equal. lia. }
  assert (Hlo' : 2 ^ 52 * P <= z).
  { unfold P. rewrite <- Z.pow_add_r by lia. replace (52 + e) with (Z.log2 z) by lia. exact Hlo. }
  assert (Hhi' : z < 2 ^ 53 * P).
  { unfold P. rewrite <- Z.pow_add_r by lia.
    replace (53 + e) with (Z.succ (Z.log2 z)) by lia. exact Hhi. }
  set (q := z / P).
  set (r := z mod P).
  assert (Hdiv : z = q * P + r) by (unfold q, r; rewrite Z.mul_comm; apply Z.div_mod; lia).
  assert (Hr : 0 <= r < P) by (apply Z.mod_pos_bound; lia).
  assert (Hq : 2 ^ 52 <= q < 2 ^ 53) by nia.
  assert (Hnd : nearest_double z =
                let q' := if r <? 2 ^ (e - 1) then q
                          else if 2 ^ (e - 1) <? r then q + 1
                          else if Z.even q then q else q + 1 in
                if q' * P <? 2 ^ 1024 then Int (q' * P) else Infinity).
  { unfold nearest_double. replace (z <? 2 ^ 53) with false by (symmetry; apply Z.ltb_ge; lia).
    fold e. rewrite !Z.shiftr_div_pow2, !Z.shiftl_mul_pow2 by lia.
    fold P. fold q. replace (z - q * P) with r by lia.
    rewrite Z.mul_1_l. cbv zeta. reflexivity. }
  rewrite Hnd. clear Hnd. cbv zeta.
  destruct (r <? 2 ^ (e - 1)) eqn:H1.
  - apply Z.ltb_lt in H1. exists e, P, q, r, q.
    split; [lia|]. split; [reflexivity|]. split; [lia|]. split; [lia|].
    split; [lia|]. split; [reflexivity|]. split; [|reflexivity].
    left. split; [reflexivity|]. split; lia.
  - apply Z.ltb_ge in H1. destruct (2 ^ (e - 1) <? r) eqn:H2.
    + apply Z.ltb_lt in H2. exists e, P, q, r, (q + 1).
      split; [lia|]. split; [reflexivity|]. split; [lia|]. split; [lia|].
      split; [lia|]. split; [reflexivity|]. split; [|reflexivity].
      right. split; [reflexivity|]. split; lia.
    + apply Z.ltb_ge in H2. destruct (Z.even q) eqn:H3.
      * exists e, P, q, r, q.
        split; [lia|]. split; [reflexivity|]. split; [lia|]. split; [lia|].
        split; [lia|]. split; [reflexivity|]. split; [|reflexivity].
        left. split; [reflexivity|]. split; [lia | intros _; exact H3].
      * exists e, P, q, r, (q + 1).
        split; [lia|]. split; [reflexivity|]. split; [lia|]. split; [lia|].
        split; [lia|]. split; [reflexivity|]. split; [|reflexivity].
        right. split; [reflexivity|]. split; [lia | intros _; exact H3].
Qed.

Lemma pow_mono (a b : Z) : 0 <= a <= b -> 2 ^ a <= 2 ^ b.
Proof. intros H. apply Z.pow_le_mono_r; lia. Qed.

(** No double lies strictly between two neighbouring multiples of [2^e]
    whose quotient has 53 bits. *)
Lemma double_outside (e q d : Z) :
  1 <= e -> 2 ^ 52 <= q -> is_double d ->
  d <= q * 2 ^ e \/ (q + 1) * 2 ^ e <= d.
Proof.
  intros He Hq (m & k & Hm & Hk & -> & _).
  assert (HP : 0 < 2 ^ e) by (apply Z.pow_pos_nonneg; lia).
  destruct (Z_lt_le_dec k e) as [Hlt|Hge].
  - left. assert (H1 : 2 ^ k <= 2 ^ (e - 1)) by (apply pow_mono; lia).
    assert (H2 : 2 ^ e = 2 * 2 ^ (e - 1)).
    { rewrite <- Z.pow_succ_r by lia. f_equal. lia. }
    assert (H3 : 0 < 2 ^ k) by (apply Z.pow_pos_nonneg; lia).
    change (2 ^ 53) with (2 * 2 ^ 52) in Hm. nia.
  - rewrite (pow_split e k) by lia.
    assert (H3 : 0 < 2 ^ (k - e)) by (apply Z.pow_pos_nonneg; lia).
    set (j := m * 2 ^ (k - e)).
    replace (m * (2 ^ e * 2 ^ (k - e))) with (j * 2 ^ e) by (unfold j; ring).
    destruct (Z_le_gt_dec j q); [left | right]; nia.
Qed.

Lemma nearest_double_reads_as (z : Z) : 0 <= z -> reads_as z (nearest_double z).
Proof.
  intros Hz0. unfold reads_as.
  destruct (Z_lt_le_dec z (2 ^ 53)) as [Hsmall|Hbig].
  - unfold nearest_double.
    replace (z <? 2 ^ 53) with true by (symmetry; apply Z.ltb_lt; lia).
    replace (z <? 2 ^ 1024 - 2 ^ 970) with true by (symmetry; apply Z.ltb_lt; lia).
    exists z. split; [reflexivity|]. split; [|split].
    + exists z, 0. split; [lia|]. split; [lia|]. split; [lia|]. lia.
    + intros d _. lia.
    + intros d _ Hne Htie. lia.
  - destruct (rounding_shape z Hbig)
      as (e & P & q & r & q' & He & -> & Hdiv & Hr & Hq & _ & Hq' & ->).
    assert (HP : 0 < 2 ^ e) by (apply Z.pow_pos_nonneg; lia).
    destruct (q' * 2 ^ e <? 2 ^ 1024) eqn:Hv.
    + apply Z.ltb_lt in Hv.
      assert (Hz : z < 2 ^ 1024 - 2 ^ 970).
      { destruct (Z_le_gt_dec e 970) as [He1|He1].
        - pose proof (pow_mono e 970 ltac:(lia)). nia.
        - destruct (Z_le_gt_dec 972 e) as [He2|He2].
          + pose proof (pow_mono 972 e ltac:(lia)). nia.
          + assert (e = 971) by lia. subst e.
            destruct Hq' as [(-> & H1 & H2)|(-> & H1 & H2)].
            * destruct (Z.eq_dec q (2 ^ 53 - 1)) as [->|Hne]; [|lia].
              destruct (Z.eq_dec (2 * r) (2 ^ 971)) as [Heq|Hneq]; [|lia].
              specialize (H2 Heq). discriminate.
            * lia. }
      replace (z <? 2 ^ 1024 - 2 ^ 970) with true by (symmetry; apply Z.ltb_lt; lia).
      exists (q' * 2 ^ e). split; [reflexivity|]. split; [|split].
      * destruct (Z.eq_dec q' (2 ^ 53)) as [->|Hne].
        -- exists (2 ^ 52), (e + 1). split; [lia|]. split; [lia|]. split; [|lia].
           rewrite Z.pow_add_r by lia. change (2 ^ 53) with (2 ^ 52 * 2 ^ 1). ring.
        -- exists q', e. split; [lia|]. split; [lia|]. split; [reflexivity | lia].
      * intros d Hd.
        destruct (double_outside e q d He ltac:(lia) Hd) as [Hlow|Hhigh];
          destruct Hq' as [(-> & H1 & _)|(-> & H1 & _)]; nia.
      * intros d Hd Hne Htie.
        assert (Hhalf : 2 * r = 2 ^ e).
        { destruct (double_outside e q d He ltac:(lia) Hd) as [Hlow|Hhigh];
            destruct Hq' as [(-> & H1 & _)|(-> & H1 & _)]; nia. }
        destruct Hq' as [(-> & _ & Heven)|(-> & _ & Hodd)].
        -- exists q, e. split; [lia|]. split; [lia|]. split; [now apply Heven | reflexivity].
        -- specialize (Hodd Hhalf).
           assert (Heven : Z.even (q + 1) = true).
           { rewrite Z.even_add, Hodd. reflexivity. }
           destruct (Z.eq_dec (q + 1) (2 ^ 53)) as [Heq|Hneq].
           ++ exists (2 ^ 52), (e + 1). split; [lia|]. split; [lia|].
              split; [reflexivity|]. rewrite Heq, Z.pow_add_r by lia.
              change (2 ^ 53) with (2 ^ 52 * 2 ^ 1). ring.
           ++ exists (q + 1), e. split; [lia|]. split; [lia|].
              split; [exact Heven | reflexivity].
    + apply Z.ltb_ge in Hv.
      replace (z <? 2 ^ 1024 - 2 ^ 970) with false; [reflexivity|].
      symmetry. apply Z.ltb_ge.
      destruct (Z_le_gt_dec e 970) as [He1|He1].
      * pose proof (pow_mono e 970 ltac:(lia)). nia.
      * destruct (Z_le_gt_dec 972 e) as [He2|He2].
        -- pose proof (pow_mono 972 e ltac:(lia)). nia.
        -- assert (e = 971) by lia. subst e. lia.
Qed.

Lemma nearest_double_exact (z : Z) : 0 <= z <= 2 ^ 53 -> nearest_double z = Int z.
Proof.
  intros Hz. destruct (Z.eq_dec z (2 ^ 53)) as [->|Hne]; [reflexivity|].
  unfold nearest_double. now replace (z <? 2 ^ 53) with true by (symmetry; apply Z.ltb_lt; lia).
Qed.

(** Reading is a function on the doubles: a double reads as itself. *)
Lemma reads_as_double (z : Z) (n : jsnum) :
  0 <= z -> is_double z -> reads_as z n -> n = Int z.
Proof.
  intros Hz Hd. unfold reads_as.
  destruct (z <? 2 ^ 1024 - 2 ^ 970) eqn:Hlt.
  - intros (v & -> & _ & Hnear & _). specialize (Hnear z Hd). f_equal. lia.
  - apply Z.ltb_ge in Hlt. destruct Hd as (m & k & Hm & Hk & -> & Hv). intros _.
    exfalso.
    destruct (Z_le_gt_dec k 970) as [Hk1|Hk1].
    + pose proof (pow_mono k 970 ltac:(lia)).
      assert (0 < 2 ^ k) by (apply Z.pow_pos_nonneg; lia). nia.
    + destruct (Z_le_gt_dec 972 k) as [Hk2|Hk2].
      * assert (Hpos : 0 < 2 ^ k) by (apply Z.pow_pos_nonneg; lia).
        assert (Hm1 : 1 <= m) by (destruct (Z.eq_dec m 0) as [->|]; lia).
        assert (Hk3 : k <= 1024).
        { destruct (Z_le_gt_dec k 1024) as [|Hgt]; [assumption|].
          pose proof (pow_mono 1024 k ltac:(lia)). nia. }
        pose proof (pow_mono 972 k ltac:(lia)) as Hmono.
        rewrite (pow_split k 1024) in Hv, Hlt by lia.
        assert (Hc : 0 < 2 ^ (1024 - k)) by (apply Z.pow_pos_nonneg; lia).
        assert (Hm' : m + 1 <= 2 ^ (1024 - k)) by nia.
        assert (Hstep : (m + 1) * 2 ^ k <= 2 ^ k * 2 ^ (1024 - k)) by nia.
        change (2 ^ 972) with (4 * 2 ^ 970) in Hmono. lia.
      * assert (k = 971) by lia. subst k. lia.
Qed.

(** Every integer from 0 to 2^53 is a double, and is read as itself. *)
Lemma is_double_small (z : Z) : 0 <= z <= 2 ^ 53 -> is_double z.
Proof.
  intros Hz. destruct (Z.eq_dec z (2 ^ 53)) as [->|Hne].
  - exists (2 ^ 52), 1. repeat split; reflexivity || lia.
  - exists z, 0. repeat split; lia.
Qed.

Lemma reads_as_exact (z : Z) (n : jsnum) :
  0 <= z <= 2 ^ 53 -> reads_as z n -> n = Int z.
Proof.
  intros Hz. apply reads_as_double; [lia | now apply is_double_small].
Qed.

End RoundingFacts.

Module DimensionFacts.
Import Regex RegexFacts StringFacts Prompts JsNum Spec.

Lemma is_digit_range (c : ascii) :
  is_digit c = true <-> (48 <= nat_of_ascii c <= 57)%nat.
Proof.
  unfold is_digit, in_range. rewrite andb_true_iff, !Nat.leb_le. tauto.
Qed.

Lemma numeral_String (c : ascii) (s : string) :
  numeral (String c s) = true <->
  is_digit c = true /\ (s = EmptyString \/ numeral s = true).
Proof.
  destruct s as [|d s]; simpl.
  - split; [auto | tauto].
  - rewrite andb_true_iff. split; [tauto |].
    intros [Hc [Hs|Hs]]; [discriminate | auto].
Qed.

Lemma lang_star_digit (s : string) :
  lang (Star digit) s <-> s = EmptyString \/ numeral s = true.
Proof.
  split.
  - intros H. remember (Star digit) as r eqn:Hr.
    induction H as [| | | | | |r0 s1 s2 H1 _ H2 IH2]; try discriminate; [now left|].
    injection Hr as ->. right.
    apply lang_class_inv in H1 as (c & Hc & ->). rewrite app_cons, app_nil_l.
    apply numeral_String. auto.
  - intros [->|H]; [constructor|].
    induction s as [|c s IH]; [discriminate|].
    apply numeral_String in H as [Hc Hs].
    change (String c s) with (String c EmptyString +:+ s).
    constructor; [now constructor|].
    destruct Hs as [->|Hs]; [constructor | now apply IH].
Qed.

Lemma lang_plus_digit (s : string) : lang (Plus digit) s <-> numeral s = true.
Proof.
  unfold Plus. rewrite lang_seq_inv. split.
  - intros (s1 & s2 & -> & H1 & H2).
    apply lang_class_inv in H1 as (c & Hc & ->). apply lang_star_digit in H2.
    rewrite app_cons, app_nil_l. now apply numeral_String.
  - destruct s as [|c s]; [discriminate|]. intros H.
    apply numeral_String in H as [Hc Hs].
    exists (String c EmptyString), s. split; [reflexivity|].
    split; [now constructor | now apply lang_star_digit].
Qed.

Lemma lang_w_h (s : string) :
  lang DIMENSIONS_W_H_REGEX s <->
  exists w sep h, s = w +:+ String sep h /\ numeral w = true
                  /\ is_separator sep = true /\ numeral h = true.
Proof.
  unfold DIMENSIONS_W_H_REGEX. rewrite lang_seq_inv. split.
  - intros (w & t & -> & Hw & Ht).
    apply lang_seq_inv in Ht as (x & h & -> & Hx & Hh).
    apply lang_class_inv in Hx as (sep & Hsep & ->).
    exists w, sep, h. rewrite app_cons, app_nil_l.
    split; [reflexivity|]. split; [now apply lang_plus_digit|].
    split; [assumption | now apply lang_plus_digit].
  - intros (w & sep & h & -> & Hw & Hsep & Hh).
    exists w, (String sep h). split; [reflexivity|].
    split; [now apply lang_plus_digit|].
    apply lang_seq_inv. exists (String sep EmptyString), h.
    split; [reflexivity|]. split; [now constructor | now apply lang_plus_digit].
Qed.

Lemma separator_not_digit (c : ascii) : is_separator c = true -> is_digit c = false.
Proof.
  unfold is_separator. rewrite !orb_true_iff, !Ascii.eqb_eq.
  intros [[->| ->]| ->]; reflexivity.
Qed.

Lemma numeral_app_inv (w : string) (sep : ascii) (h : string) :
  numeral (w +:+ String sep h) = true -> is_digit sep = true.
Proof.
  induction w as [|c w IH].
  - rewrite app_nil_l. intros H. now apply numeral_String in H.
  - rewrite app_cons. intros H. apply numeral_String in H as [_ [H|H]].
    + destruct w; discriminate.
    + now apply IH.
Qed.

Lemma split_nonempty (sep : ascii) (s : string) : JsString.split sep s <> [].
Proof.
  destruct s as [|c s]; simpl; [discriminate|].
  destruct (Ascii.eqb c sep); [discriminate|].
  destruct (JsString.split sep s); discriminate.
Qed.

Lemma split_app (sep : ascii) (p t : string) :
  JsString.split sep (p +:+ String sep t)
  = JsString.split sep p ++ JsString.split sep t.
Proof.
  induction p as [|c p IH].
  - rewrite app_nil_l. simpl. now rewrite Ascii.eqb_refl.
  - rewrite app_cons. simpl. rewrite IH.
    destruct (Ascii.eqb c sep); [reflexivity|].
    pose proof (split_nonempty sep p) as Hne.
    destruct (JsString.split sep p); [congruence | reflexivity].
Qed.

Lemma split_numeral (w : string) : numeral w = true -> JsString.split "," w = [w].
Proof.
  induction w as [|c w IH]; [discriminate|].
  intros H. apply numeral_String in H as [Hc Hw]. simpl.
  destruct (Ascii.eqb c ",") eqn:Hcomma.
  - apply Ascii.eqb_eq in Hcomma as ->. discriminate.
  - destruct Hw as [->|Hw]; [reflexivity | now rewrite IH].
Qed.

Lemma digit_value_digit (c : ascii) :
  is_digit c = true -> digit_value c = Some (Z.of_nat (nat_of_ascii c) - 48).
Proof.
  intros H. unfold digit_value. unfold is_digit, in_range in H. now rewrite H.
Qed.

Lemma digits_from_numeral (s : string) (acc : Z) :
  s = EmptyString \/ numeral s = true ->
  digits_from 10 acc s = Some (acc * 10 ^ Z.of_nat (String.length s) + decimal s).
Proof.
  revert acc. induction s as [|c s IH]; intros acc H.
  - simpl. f_equal. lia.
  - destruct H as [H|H]; [discriminate|].
    apply numeral_String in H as [Hc Hs].
    cbn [digits_from]. rewrite (digit_value_digit _ Hc).
    apply is_digit_range in Hc.
    replace (Z.of_nat (nat_of_ascii c) - 48 <? 10) with true
      by (symmetry; apply Z.ltb_lt; lia).
    rewrite (IH _ Hs). f_equal. cbn [String.length decimal].
    rewrite Nat2Z.inj_succ, Z.pow_succ_r by lia. ring.
Qed.

Lemma decimal_nonneg (s : string) :
  s = EmptyString \/ numeral s = true -> 0 <= decimal s.
Proof.
  induction s as [|c s IH]; intros H; [simpl; lia|].
  destruct H as [H|H]; [discriminate|].
  apply numeral_String in H as [Hc Hs]. apply is_digit_range in Hc.
  specialize (IH Hs). cbn [decimal].
  assert (0 <= 10 ^ Z.of_nat (String.length s)) by (apply Z.pow_nonneg; lia).
  nia.
Qed.

Lemma hex_prefix_numeral (s : string) : numeral s = true -> hex_prefix s = None.
Proof.
  destruct s as [|c0 [|c1 s]]; try reflexivity.
  intros H. apply numeral_String in H as [_ [H|H]]; [discriminate|].
  apply numeral_String in H as [H1 _]. unfold hex_prefix.
  destruct (Ascii.eqb c1 "x") eqn:Hx; [apply Ascii.eqb_eq in Hx as ->; discriminate|].
  destruct (Ascii.eqb c1 "X") eqn:HX; [apply Ascii.eqb_eq in HX as ->; discriminate|].
  now rewrite andb_false_r.
Qed.

Lemma Number_numeral (s : string) :
  numeral s = true -> Number s = nearest_double (decimal s).
Proof.
  intros H. unfold Number. rewrite (hex_prefix_numeral _ H).
  destruct s as [|c s]; [discriminate|].
  unfold literal. rewrite digits_from_numeral by auto. reflexivity.
Qed.

Lemma parse_comma (w h : string) :
  numeral w = true -> numeral h = true ->
  Index.parseDimensions (w +:+ String "," h)
  = Some (Some (nearest_double (decimal w)), Some (nearest_double (decimal h))).
Proof.
  intros Hw Hh. unfold Index.parseDimensions, test_whole.
  replace (matches DIMENSIONS_W_H_REGEX (w +:+ String "," h)) with true.
  - rewrite split_app, !split_numeral by assumption. simpl.
    now rewrite !Number_numeral.
  - symmetry. apply matches_lang, lang_w_h. exists w, ","%char, h. auto.
Qed.

Lemma parse_numeral (s : string) :
  numeral s = true ->
  Index.parseDimensions s
  = Some (Some (nearest_double (decimal s)), Some (nearest_double (decimal s))).
Proof.
  intros Hs. unfold Index.parseDimensions, test_whole.
  destruct (matches DIMENSIONS_W_H_REGEX s) eqn:Hwh.
  - apply matches_lang, lang_w_h in Hwh as (w & sep & h & -> & _ & Hsep & _).
    apply numeral_app_inv in Hs. apply separator_not_digit in Hsep. congruence.
  - replace (matches DIMENSIONS_N_REGEX s) with true
      by (symmetry; now apply matches_lang, lang_plus_digit).
    now rewrite Number_numeral.
Qed.

(** What [questions[1].validate] accepts. *)
Lemma validate_dimensions_spec (s : string) :
  validate_dimensions s = true <->
  (exists w sep h, s = w +:+ String sep h /\ numeral w = true
                   /\ is_separator sep = true /\ numeral h = true)
  \/ numeral s = true.
Proof.
  unfold validate_dimensions, test_whole.
  now rewrite orb_true_iff, !matches_lang, lang_w_h, lang_plus_digit.
Qed.

End DimensionFacts.

(** C4, as the code has it: an accepted grid shape is either two runs of
    decimal digits around one of the separators [,] [|] [x], or one run of
    decimal digits. [W,H] is read as two numbers and [N] as the same number
    twice, each the double nearest to the integer written (the one with the
    even significand of two equally near, [Infinity] from [2^1024 - 2^970]
    on), so the integer itself up to 2^53; the integers written are
    non-negative, and zero is accepted. *)
Theorem C4_accepted_grid_shapes (s : string) :
  Prompts.validate_dimensions s = true ->
  (exists w sep h,
      s = w +:+ String sep h /\ Spec.numeral w = true /\ Spec.numeral h = true
      /\ Prompts.is_separator sep = true
      /\ (sep = ","%char ->
          exists cols rows,
            Index.parseDimensions s = Some (Some cols, Some rows)
            /\ Spec.reads_as (Spec.decimal w) cols
            /\ Spec.reads_as (Spec.decimal h) rows
            /\ 0 <= Spec.decimal w /\ 0 <= Spec.decimal h))
  \/ (Spec.numeral s = true
      /\ exists n,
           Index.parseDimensions s = Some (Some n, Some n)
           /\ Spec.reads_as (Spec.decimal s) n
           /\ 0 <= Spec.decimal s).
Proof.
  intros H. apply DimensionFacts.validate_dimensions_spec in H
    as [(w & sep & h & -> & Hw & Hsep & Hh)|Hs].
  - left. exists w, sep, h. repeat split; try assumption.
    intros ->.
    pose proof (DimensionFacts.decimal_nonneg w (or_intror Hw)) as Hw0.
    pose proof (DimensionFacts.decimal_nonneg h (or_intror Hh)) as Hh0.
    exists (JsNum.nearest_double (Spec.decimal w)),
           (JsNum.nearest_double (Spec.decimal h)).
    split; [now apply DimensionFacts.parse_comma|].
    split; [now apply RoundingFacts.nearest_double_reads_as|].
    split; [now apply RoundingFacts.nearest_double_reads_as|]. split; assumption.
  - right. split; [assumption|].
    pose proof (DimensionFacts.decimal_nonneg s (or_intror Hs)) as Hs0.
    exists (JsNum.nearest_double (Spec.decimal s)).
    split; [now apply DimensionFacts.parse_numeral|].
    split; [now apply RoundingFacts.nearest_double_reads_as | assumption].
Qed.

Lemma C4_accepted_grid_shapes_witness :
  Prompts.validate_dimensions "2,3" = true
  /\ ((exists w sep h,
         "2,3" = w +:+ String sep h /\ Spec.numeral w = true /\ Spec.numeral h = true
         /\ Prompts.is_separator sep = true
         /\ (sep = ","%char ->
             exists cols rows,
               Index.parseDimensions "2,3" = Some (Some cols, Some rows)
               /\ Spec.reads_as (Spec.decimal w) cols
               /\ Spec.reads_as (Spec.decimal h) rows
               /\ 0 <= Spec.decimal w /\ 0 <= Spec.decimal h))
      \/ (Spec.numeral "2,3" = true
          /\ exists n,
               Index.parseDimensions "2,3" = Some (Some n, Some n)
               /\ Spec.reads_as (Spec.decimal "2,3") n
               /\ 0 <= Spec.decimal "2,3")).
Proof.
  split; [reflexivity | apply (C4_accepted_grid_shapes "2,3"); reflexivity].
Defined.

(** C4 fails as stated: [0] is accepted and gives a 0 by 0 grid, and [2x3]
    is accepted but is not read as (2, 3). *)
Lemma C4_zero_and_x_shapes :
  (Prompts.validate_dimensions "0" = true
   /\ Index.parseDimensions "0" = Some (Some (JsNum.Int 0), Some (JsNum.Int 0))
   /\ ~ 0 < 0)
  /\ (Prompts.validate_dimensions "2x3" = true
      /\ Index.parseDimensions "2x3" = Some (Some JsNum.NaN, None)).
Proof. repeat split; try reflexivity. lia. Qed.

(** C8: the classification of the locator. The test accepts the prefixes
    [https://] and [htts://], and no other. *)
Lemma isUrl_spec (s : string) :
  isUrl s = true <->
  (exists rest, s = "https://" +:+ rest) \/ (exists rest, s = "htts://" +:+ rest).
Proof.
  unfold isUrl. rewrite RegexFacts.test_prefix_spec. unfold Prompts.URL_REGEX. split.
  - intros (p & t & -> & H).
    apply RegexFacts.lang_seq_inv in H as (a & b & -> & Ha & Hb).
    apply RegexFacts.lang_lit_inv in Ha as ->.
    apply RegexFacts.lang_seq_inv in Hb as (o & c & -> & Ho & Hc).
    apply RegexFacts.lang_seq_inv in Hc as (d & u & -> & Hd & _).
    apply RegexFacts.lang_lit_inv in Hd as ->.
    apply RegexFacts.lang_opt_inv in Ho as [Ho| ->].
    + apply RegexFacts.lang_chr_inv in Ho as ->. left. exists (u +:+ t).
      now rewrite !StringFacts.app_assoc.
    + right. exists (u +:+ t). now rewrite !StringFacts.app_assoc.
  - intros [[rest ->]|[rest ->]].
    + exists "https://", rest. split; [reflexivity|].
      apply RegexFacts.matches_lang. reflexivity.
    + exists "htts://", rest. split; [reflexivity|].
      apply RegexFacts.matches_lang. reflexivity.
Qed.

(** C8: a quoted [http://] locator has its quotes stripped and is then
    classified as local, while the [https://] one is classified as
    remote. *)
Theorem C8_http_locator_classified_local :
  strip_quotes "'http://example.com/cat.gif'" = "http://example.com/cat.gif"
  /\ isUrl (strip_quotes "'http://example.com/cat.gif'") = false
  /\ isUrl (strip_quotes "'https://example.com/cat.gif'") = true.
Proof. repeat split; reflexivity. Qed.

(** ** The recording double meets the contract *)

Lemma recorder_contract : @JimpContract Recorder.sym_number Recorder.rjimp.
Proof.
  split; simpl; intros; try reflexivity. split; reflexivity.
Qed.

(** ** Loops and grids *)

Module LoopFacts.
Import JsNum Spec.

Lemma foldl_snoc {A B : Type} (f : B -> A) (l : list B) (init : list A) :
  foldl (fun acc i => acc ++ [f i]) init l = init ++ map f l.
Proof.
  revert init. induction l as [|b l IH]; intros init; simpl.
  - now rewrite app_nil_r.
  - rewrite IH. now rewrite <- app_assoc.
Qed.

Lemma foldl_rows {A B C : Type} (f : B -> C -> A) (xs : list B) (ys : list C)
    (init : list A) :
  foldl (fun acc y => foldl (fun acc x => acc ++ [f x y]) acc xs) init ys
  = init ++ flat_map (fun y => map (fun x => f x y) xs) ys.
Proof.
  revert init. induction ys as [|y ys IH]; intros init; simpl.
  - now rewrite app_nil_r.
  - rewrite foldl_snoc, IH. now rewrite <- app_assoc.
Qed.

Lemma for_lt_Int {S : Type} (n : Z) (body : Z -> S -> S) (s : S) :
  0 <= n ->
  for_lt (Some (Int n)) body s = foldl (fun acc i => body i acc) s (seqZ 0 n).
Proof. intros Hn. unfold for_lt, trip. now rewrite Z2Nat.id. Qed.

Lemma length_flat_map_rows {A B C : Type} (g : C -> B -> A) (xs : list B) (ys : list C) :
  length (flat_map (fun y => map (g y) xs) ys) = (length ys * length xs)%nat.
Proof.
  induction ys as [|y ys IH]; simpl; [reflexivity|].
  now rewrite length_app, length_map, IH.
Qed.

Lemma lookup_flat_map_rows {A B C : Type} (g : C -> B -> A) (xs : list B) (ys : list C)
    (i j : nat) (x : B) (y : C) :
  xs !! i = Some x -> ys !! j = Some y ->
  flat_map (fun y => map (g y) xs) ys !! (j * length xs + i)%nat = Some (g y x).
Proof.
  intros Hx. revert j. induction ys as [|y0 ys IH]; intros j Hy; [discriminate|].
  destruct j as [|j]; simpl in *.
  - injection Hy as ->. rewrite lookup_app_l.
    + now rewrite list_lookup_fmap, Hx.
    + rewrite length_map. now apply lookup_lt_Some in Hx.
  - rewrite lookup_app_r by (rewrite length_map; lia).
    rewrite length_map.
    replace (length xs + j * length xs + i - length xs)%nat
      with (j * length xs + i)%nat by lia.
    now apply IH.
Qed.

Lemma length_row_major {A : Type} (cols rows : Z) (f : Z -> Z -> A) :
  0 <= cols -> 0 <= rows ->
  length (row_major cols rows f) = Z.to_nat (cols * rows).
Proof.
  intros Hc Hr. unfold row_major.
  rewrite (length_flat_map_rows (fun y x => f x y)), !length_seqZ. lia.
Qed.

Lemma lookup_row_major {A : Type} (cols rows : Z) (f : Z -> Z -> A) (x y : Z) :
  0 <= x < cols -> 0 <= y < rows ->
  row_major cols rows f !! Z.to_nat (y * cols + x) = Some (f x y).
Proof.
  intros Hx Hy. unfold row_major.
  replace (Z.to_nat (y * cols + x))
    with (Z.to_nat y * length (seqZ 0 cols) + Z.to_nat x)%nat
    by (rewrite length_seqZ, Z2Nat.inj_add, Z2Nat.inj_mul by nia; reflexivity).
  apply (lookup_flat_map_rows (fun y x => f x y)).
  - rewrite lookup_seqZ. lia.
  - rewrite lookup_seqZ. lia.
Qed.

Lemma elem_of_row_major {A : Type} (cols rows : Z) (f : Z -> Z -> A) (t : A) :
  In t (row_major cols rows f) ->
  exists x y, 0 <= x < cols /\ 0 <= y < rows /\ t = f x y.
Proof.
  unfold row_major. rewrite in_flat_map. intros (y & Hy & Ht).
  apply in_map_iff in Ht as (x & <- & Hx).
  apply list_elem_of_In, elem_of_seqZ in Hx.
  apply list_elem_of_In, elem_of_seqZ in Hy.
  exists x, y. split; [lia | split; [lia | reflexivity]].
Qed.

End LoopFacts.

(** ** [splitFrame] *)

Import Recorder.

Section SplitFrameFacts.
Context {N : JsNumber} {J : Jimp} {G : GifFrames}.
Import JsNum Spec Index LoopFacts.

(** The two loops enumerate the grid row by row. *)
Lemma splitFrame_row_major (img : image) (widthParts heightParts : option jsnum)
    (ext mode : string) :
  splitFrame img widthParts heightParts ext mode
  = let* resized :=
      call mode [VNumber (to_number (mul widthParts (Some (Int SIZE))));
                 VNumber (to_number (mul heightParts (Some (Int SIZE))))] img in
    if ends heightParts && ((trip heightParts =? 0)%nat || ends widthParts) then
      Ok (row_major (Z.of_nat (trip widthParts)) (Z.of_nat (trip heightParts))
            (tile resized ext))
    else Throw (Endless "splitFrame").
Proof.
  unfold splitFrame. destruct (call mode _ img) as [resized|e]; simpl; [|reflexivity].
  destruct (ends heightParts && _); [|reflexivity].
  f_equal. unfold for_lt, row_major.
  apply (foldl_rows (fun x y => tile resized ext x y)).
Qed.

Lemma splitFrame_Int (img : image) (cols rows : Z) (ext mode : string) :
  0 <= cols -> 0 <= rows ->
  splitFrame img (Some (Int cols)) (Some (Int rows)) ext mode
  = let* resized :=
      call mode [VNumber (of_Z (cols * SIZE)); VNumber (of_Z (rows * SIZE))] img in
    Ok (row_major cols rows (tile resized ext)).
Proof.
  intros Hc Hr. rewrite splitFrame_row_major. simpl.
  now rewrite orb_true_r, !Z2Nat.id.
Qed.

Lemma splitFrame_length (img : image) (widthParts heightParts : option jsnum)
    (ext mode : string) (tiles : list image) :
  splitFrame img widthParts heightParts ext mode = Ok tiles ->
  length tiles = (trip heightParts * trip widthParts)%nat.
Proof.
  rewrite splitFrame_row_major. destruct (call mode _ img); simpl; [|discriminate].
  destruct (ends heightParts && _); [|discriminate].
  intros [= <-]. unfold row_major.
  rewrite (length_flat_map_rows (fun y x => tile a ext x y)), !length_seqZ. lia.
Qed.

Context {C : JimpContract}.

(** A tile cut inside the frame is [SIZE] by [SIZE]. *)
Lemma tile_size (resized : image) (ext : string) (x y : Z) :
  0 <= x -> 0 <= y ->
  x * SIZE + SIZE <= width resized -> y * SIZE + SIZE <= height resized ->
  width (tile resized ext x y) = SIZE /\ height (tile resized ext x y) = SIZE.
Proof.
  intros Hx Hy Hw Hh. unfold tile.
  destruct (crop_size (x * SIZE) (y * SIZE) SIZE SIZE (clone resized)) as [Cw Ch];
    rewrite ?clone_width, ?clone_height; unfold SIZE in *; try lia.
  destruct (String.eqb ext "gif");
    rewrite ?posterize_width, ?posterize_height; auto.
Qed.

(** C1: on a frame resized to [cols * SIZE] by [rows * SIZE],
    [splitFrame] returns [cols * rows] tiles, each [SIZE] by [SIZE]; the
    tile of column [x] and row [y] sits at position [y * cols + x] and is
    the crop of the frame at offset [(x * SIZE, y * SIZE)] (posterized
    when the extension is gif). *)
Theorem C1_splitFrame_row_major (cols rows : Z) (img : image) (ext mode : string)
    (f : list jsval -> image -> result image) (resized : image) :
  0 < cols -> 0 < rows ->
  method mode = Some f ->
  f [VNumber (of_Z (cols * SIZE)); VNumber (of_Z (rows * SIZE))] img = Ok resized ->
  width resized = cols * SIZE -> height resized = rows * SIZE ->
  exists tiles,
    splitFrame img (Some (Int cols)) (Some (Int rows)) ext mode = Ok tiles
    /\ length tiles = Z.to_nat (cols * rows)
    /\ Forall (fun t => width t = SIZE /\ height t = SIZE) tiles
    /\ forall x y, 0 <= x < cols -> 0 <= y < rows ->
         tiles !! Z.to_nat (y * cols + x)
         = Some (let cropped := crop (x * SIZE) (y * SIZE) SIZE SIZE (clone resized) in
                 if String.eqb ext "gif" then posterize 15 cropped else cropped).
Proof.
  intros Hc Hr Hm Hf Hw Hh.
  exists (row_major cols rows (tile resized ext)). split.
  - rewrite splitFrame_Int by lia. unfold call. now rewrite Hm, Hf.
  - split; [apply length_row_major; lia|]. split.
    + apply List.Forall_forall. intros t Ht.
      apply elem_of_row_major in Ht as (x & y & Hx & Hy & ->).
      apply tile_size; unfold SIZE in *; nia.
    + intros x y Hx Hy. now apply lookup_row_major.
Qed.

End SplitFrameFacts.

Lemma C1_splitFrame_row_major_witness :
  exists tiles,
    Index.splitFrame (Recorder.blank "cat.png" 256 256)
      (Some (JsNum.Int 2)) (Some (JsNum.Int 3)) "png" "cover" = Ok tiles
    /\ length tiles = Z.to_nat (2 * 3)
    /\ Forall (fun t => width t = Index.SIZE /\ height t = Index.SIZE) tiles
    /\ forall x y, 0 <= x < 2 -> 0 <= y < 3 ->
         tiles !! Z.to_nat (y * 2 + x)
         = Some (let cropped :=
                   crop (x * Index.SIZE) (y * Index.SIZE) Index.SIZE Index.SIZE
                     (clone {| Recorder.origin := "cat.png";
                               Recorder.rwidth := 128; Recorder.rheight := 192;
                               Recorder.log :=
                                 [Recorder.OpCall "cover"
                                    [VNumber (Recorder.SInt 128);
                                     VNumber (Recorder.SInt 192)]] |}) in
                 if String.eqb "png" "gif" then posterize 15 cropped else cropped).
Proof.
  eapply (C1_splitFrame_row_major (C := recorder_contract) 2 3
            (Recorder.blank "cat.png" 256 256) "png" "cover");
    [lia | lia | reflexivity | reflexivity | reflexivity | reflexivity].
Defined.

(** ** [applyFilters] *)

Section FilterFacts.
Context {N : JsNumber} {J : Jimp} {G : GifFrames}.
Import Spec Index.

Lemma foldM_app {A B : Type} (body : A -> B -> result A) (acc : A) (l1 l2 : list B) :
  foldM body acc (l1 ++ l2) = let* a := foldM body acc l1 in foldM body a l2.
Proof.
  revert acc. induction l1 as [|x l1 IH]; intros acc; simpl; [reflexivity|].
  destruct (body acc x); simpl; [apply IH | reflexivity].
Qed.

Lemma applyFilters_Some (img : image) (l : list string) (fv : gmap string jsval) :
  applyFilters img (Some l) fv = foldM (applyFilter fv) img l.
Proof. destruct l; reflexivity. Qed.

(** The chain around one of its entries. *)
Lemma applyFilters_at (img : image) (pre post : list string) (filter : string)
    (fv : gmap string jsval) :
  applyFilters img (Some (pre ++ filter :: post)) fv
  = let* i := foldM (applyFilter fv) img pre in
    let* i := applyFilter fv i filter in
    foldM (applyFilter fv) i post.
Proof. now rewrite applyFilters_Some, foldM_app. Qed.

Lemma applyFilter_scaled (img : image) (fv : gmap string jsval) (filter : string) :
  In filter scaled_filters ->
  applyFilter fv img filter
  = call filter [VNumber (div (ToNumber (filterValue fv filter)) (of_Z 100))] img.
Proof.
  simpl. intros [<-|[<-|[<-|[<-|[]]]]]; reflexivity.
Qed.

Lemma applyFilter_posterize (img : image) (fv : gmap string jsval) :
  applyFilter fv img "posterize" = call "posterize" [filterValue fv "posterize"] img.
Proof. reflexivity. Qed.

Lemma applyFilter_uncased (img : image) (fv : gmap string jsval) (name : string) :
  ~ In name cased_filters -> applyFilter fv img name = call name [] img.
Proof.
  intros Hn. unfold applyFilter.
  repeat match goal with
         | |- context [String.eqb name ?s] =>
             destruct (String.eqb_spec name s) as [->|_];
             [exfalso; apply Hn; simpl; tauto|]
         end.
  reflexivity.
Qed.

(** C6: in a chain, a brightness, contrast, opacity or rotate entry with
    the number [v] calls the image's method of that name with [v / 100],
    and a posterize entry calls it with [v] itself. *)
Theorem C6_filter_arguments (img : image) (fv : gmap string jsval)
    (pre post : list string) (filter : string) (v : number) :
  fv !! filter = Some (VNumber v) ->
  (In filter scaled_filters ->
   applyFilters img (Some (pre ++ filter :: post)) fv
   = let* i := foldM (applyFilter fv) img pre in
     let* i := call filter [VNumber (div v (of_Z 100))] i in
     foldM (applyFilter fv) i post)
  /\ (filter = "posterize" ->
      applyFilters img (Some (pre ++ filter :: post)) fv
      = let* i := foldM (applyFilter fv) img pre in
        let* i := call filter [VNumber v] i in
        foldM (applyFilter fv) i post).
Proof.
  intros Hv. split; intros Hf; rewrite applyFilters_at;
    destruct (foldM (applyFilter fv) img pre) as [i|e]; simpl; try reflexivity.
  - rewrite applyFilter_scaled by assumption.
    unfold filterValue. now rewrite Hv.
  - subst filter. rewrite applyFilter_posterize.
    unfold filterValue. now rewrite Hv.
Qed.

(** C5, as the code has it: an entry the [switch] has no case for calls
    the image's method of that name with no argument; when the image has
    no such method the call throws a [TypeError], which ends the chain. *)
Theorem C5_uncased_filter_is_called (img : image) (fv : gmap string jsval)
    (pre post : list string) (name : string) :
  ~ In name cased_filters ->
  applyFilters img (Some (pre ++ name :: post)) fv
  = (let* i := foldM (applyFilter fv) img pre in
     let* i := call name [] i in
     foldM (applyFilter fv) i post)
  /\ (method name = None ->
      forall i, foldM (applyFilter fv) img pre = Ok i ->
                applyFilters img (Some (pre ++ name :: post)) fv
                = Throw (TypeError name)).
Proof.
  intros Hn.
  assert (Hat : applyFilters img (Some (pre ++ name :: post)) fv
                = (let* i := foldM (applyFilter fv) img pre in
                   let* i := call name [] i in
                   foldM (applyFilter fv) i post)).
  { rewrite applyFilters_at.
    destruct (foldM (applyFilter fv) img pre) as [i|e]; simpl; [|reflexivity].
    now rewrite applyFilter_uncased. }
  split; [exact Hat|].
  intros Hm i Hi. rewrite Hat, Hi. simpl. unfold call. now rewrite Hm.
Qed.

End FilterFacts.

Lemma C6_filter_arguments_witness :
  (In "brightness" Spec.scaled_filters ->
   Index.applyFilters (blank "cat.png" 64 64)
     (Some (["invert"] ++ "brightness" :: ["sepia"]))
     {[ "brightness" := VNumber (SInt 50) ]}
   = let* i := foldM (Index.applyFilter {[ "brightness" := VNumber (SInt 50) ]})
                 (blank "cat.png" 64 64) ["invert"] in
     let* i := call "brightness" [VNumber (div (SInt 50) (of_Z 100))] i in
     foldM (Index.applyFilter {[ "brightness" := VNumber (SInt 50) ]}) i ["sepia"])
  /\ ("brightness" = "posterize" ->
      Index.applyFilters (blank "cat.png" 64 64)
        (Some (["invert"] ++ "brightness" :: ["sepia"]))
        {[ "brightness" := VNumber (SInt 50) ]}
      = let* i := foldM (Index.applyFilter {[ "brightness" := VNumber (SInt 50) ]})
                    (blank "cat.png" 64 64) ["invert"] in
        let* i := call "brightness" [VNumber (SInt 50)] i in
        foldM (Index.applyFilter {[ "brightness" := VNumber (SInt 50) ]}) i ["sepia"]).
Proof.
  apply (C6_filter_arguments (N := sym_number) (J := rjimp)).
  reflexivity.
Defined.

Lemma C5_uncased_filter_is_called_witness :
  Index.applyFilters (blank "cat.png" 64 64) (Some (["invert"] ++ "sparkle" :: ["sepia"])) ∅
  = (let* i := foldM (Index.applyFilter ∅) (blank "cat.png" 64 64) ["invert"] in
     let* i := call "sparkle" [] i in
     foldM (Index.applyFilter ∅) i ["sepia"])
  /\ (method "sparkle" = None ->
      forall i, foldM (Index.applyFilter ∅) (blank "cat.png" 64 64) ["invert"] = Ok i ->
                Index.applyFilters (blank "cat.png" 64 64)
                  (Some (["invert"] ++ "sparkle" :: ["sepia"])) ∅
                = Throw (TypeError "sparkle")).
Proof.
  apply (C5_uncased_filter_is_called (N := sym_number) (J := rjimp)).
  simpl. intros H.
  repeat (destruct H as [H|H]; [discriminate H|]). exact H.
Defined.

(** C5 fails as stated: a name the image has no method for is not ignored,
    the chain throws. *)
Lemma C5_unknown_filter_throws :
  Index.applyFilters (blank "cat.png" 64 64) (Some ["sparkle"]) ∅
  = Throw (TypeError "sparkle")
  /\ Index.applyFilters (blank "cat.png" 64 64) (Some ["sparkle"]) ∅
     <> Ok (blank "cat.png" 64 64).
Proof. split; [reflexivity | discriminate]. Qed.


(** ** The aggregation of tiles over the frames *)

Section AggregateFacts.
Context {N : JsNumber} {J : Jimp} {G : GifFrames}.
Import JsNum Spec Index LoopFacts.

Lemma push_parts_from (info : frameInfo) (parts : list image)
    (done gifs : list (list Entry)) :
  length gifs = length parts ->
  foldM (fun gifs '(j, part) =>
           push_at gifs j {| frame := part; frameInfo_of := info |})
        (done ++ gifs) (imap (fun j part => (length done + j, part)%nat) parts)
  = Ok (done ++ zip_with (snoc_entry info) gifs parts).
Proof.
  revert done gifs. induction parts as [|part parts IH]; intros done gifs Hlen.
  - destruct gifs; [reflexivity | discriminate].
  - destruct gifs as [|g gifs]; [discriminate|]. injection Hlen as Hlen.
    rewrite imap_cons. cbn [foldM]. unfold push_at at 1.
    rewrite (list_lookup_middle done gifs g) by lia.
    cbn [result_bind]. rewrite insert_app_r. cbn [insert list_insert zip_with].
    change (g ++ [{| frame := part; frameInfo_of := info |}])
      with (snoc_entry info g part).
    rewrite (imap_ext _ (fun j part0 =>
               (length (done ++ [snoc_entry info g part]) + j, part0)%nat)).
    + rewrite (cons_middle (snoc_entry info g part) done gifs), app_assoc.
      rewrite IH by assumption. now rewrite <- app_assoc.
    + intros i x _. simpl. rewrite length_app. simpl. f_equal. lia.
Qed.

Lemma push_parts_zip (info : frameInfo) (parts : list image) (gifs : list (list Entry)) :
  length gifs = length parts ->
  push_parts gifs parts info = Ok (zip_with (snoc_entry info) gifs parts).
Proof. intros Hlen. apply (push_parts_from info parts [] gifs Hlen). Qed.

Lemma initial_gifs (n : Z) :
  0 <= n ->
  for_lt (Some (Int n)) (fun _ (gifs : list (list Entry)) => gifs ++ [[]]) []
  = map (fun _ => []) (seqZ 0 n).
Proof.
  intros Hn. rewrite for_lt_Int by assumption.
  exact (foldl_snoc (fun _ : Z => @nil Entry) (seqZ 0 n) []).
Qed.

(** One round per frame: each tile's sequence grows by the tile of that
    frame, in place. *)
Lemma aggregate_loop (P : Frame -> list image -> Prop)
    (step : list (list Entry) -> Frame -> result (list (list Entry)))
    (n : nat) (frames : list Frame) (parts : list (list image)) :
  (forall gifs fr tiles, P fr tiles -> length gifs = n ->
     length tiles = n
     /\ step gifs fr = Ok (zip_with (snoc_entry (frame_info fr)) gifs tiles)) ->
  Forall2 P frames parts ->
  forall gifs0, length gifs0 = n ->
  exists gifs,
    foldM step gifs0 frames = Ok gifs
    /\ length gifs = n
    /\ forall k g0, gifs0 !! k = Some g0 ->
         exists seq,
           gifs !! k = Some (g0 ++ seq)
           /\ length seq = length frames
           /\ forall i fr tiles, frames !! i = Some fr -> parts !! i = Some tiles ->
                exists t, tiles !! k = Some t
                          /\ seq !! i = Some {| frame := t; frameInfo_of := frame_info fr |}.
Proof.
  intros Hstep HP. induction HP as [|fr tiles frames parts Hfr _ IH]; intros gifs0 Hlen.
  - exists gifs0. split; [reflexivity|]. split; [assumption|].
    intros k g0 Hk. exists []. rewrite app_nil_r.
    split; [assumption|]. split; [reflexivity|]. intros i fr tiles Hi. discriminate.
  - destruct (Hstep gifs0 fr tiles Hfr Hlen) as [Htiles Hrun].
    destruct (IH (zip_with (snoc_entry (frame_info fr)) gifs0 tiles)) as (gifs & Hrest & Hn & Hseq).
    { rewrite length_zip_with_l_eq; congruence. }
    exists gifs. split; [cbn [foldM]; now rewrite Hrun|]. split; [assumption|].
    intros k g0 Hk.
    destruct (lookup_lt_is_Some_2 tiles k) as [t Ht].
    { apply lookup_lt_Some in Hk. lia. }
    destruct (Hseq k (snoc_entry (frame_info fr) g0 t)) as (seq & Hg & Hlenseq & Hentries).
    { rewrite lookup_zip_with, Hk. simpl. now rewrite Ht. }
    exists ({| frame := t; frameInfo_of := frame_info fr |} :: seq).
    split; [rewrite Hg; unfold snoc_entry; now rewrite <- app_assoc|].
    split; [simpl; now rewrite Hlenseq|].
    intros [|i] fr' tiles' Hi Hp; simpl in Hi, Hp.
    + injection Hi as <-. injection Hp as <-. exists t. auto.
    + destruct (Hentries i fr' tiles' Hi Hp) as (t' & Ht' & Hs). exists t'. auto.
Qed.

(** C2: for an animation of [L] frames, [aggregate] builds for every tile
    coordinate a sequence of length [L]; entry [i] of the sequence of tile
    [(c, r)] is the tile at position [r * cols + c] of the partition of
    frame [i], with that frame's [frameInfo], and the GIF frame made from it
    has that frame's delay. *)
Theorem C2_aggregate_positional (cols rows : Z) (frames : list Frame)
    (parts : list (list image)) (ext mode : string)
    (filters : option (list string)) (fv : gmap string jsval) :
  0 < cols -> 0 < rows ->
  Forall2 (fun fr tiles =>
             exists jf, applyFilters (getImage fr) filters fv = Ok jf
                        /\ splitFrame jf (Some (Int cols)) (Some (Int rows)) ext mode
                           = Ok tiles)
          frames parts ->
  exists gifs,
    aggregate frames (Some (Int cols)) (Some (Int rows)) ext mode filters fv = Ok gifs
    /\ length gifs = Z.to_nat (cols * rows)
    /\ forall c r, 0 <= c < cols -> 0 <= r < rows ->
         exists seq,
           gifs !! Z.to_nat (r * cols + c) = Some seq
           /\ length seq = length frames
           /\ forall i fr tiles, frames !! i = Some fr -> parts !! i = Some tiles ->
                exists t,
                  tiles !! Z.to_nat (r * cols + c) = Some t
                  /\ seq !! i = Some {| frame := t; frameInfo_of := frame_info fr |}
                  /\ delayCentisecs <$> (map toGifFrame seq !! i)
                     = Some (delay (frame_info fr)).
Proof.
  intros Hc Hr HP. unfold aggregate.
  change (mul (Some (Int cols)) (Some (Int rows))) with (Int (cols * rows)).
  rewrite initial_gifs by nia.
  set (P := fun (fr : Frame) (tiles : list image) =>
              exists jf, applyFilters (getImage fr) filters fv = Ok jf
                         /\ splitFrame jf (Some (Int cols)) (Some (Int rows)) ext mode
                            = Ok tiles) in HP.
  set (step := fun (gifs : list (list Entry)) (fr : Frame) =>
                 let* jimpFrame := applyFilters (getImage fr) filters fv in
                 let* frameParts :=
                   splitFrame jimpFrame (Some (Int cols)) (Some (Int rows)) ext mode in
                 push_parts gifs frameParts (frame_info fr)).
  assert (Hstep : forall gifs fr tiles, P fr tiles ->
            length gifs = Z.to_nat (cols * rows) ->
            length tiles = Z.to_nat (cols * rows)
            /\ step gifs fr = Ok (zip_with (snoc_entry (frame_info fr)) gifs tiles)).
  { intros gifs fr tiles (jf & Hjf & Htiles) Hgifs.
    pose proof (splitFrame_length _ _ _ _ _ _ Htiles) as Hl. simpl in Hl.
    assert (length tiles = Z.to_nat (cols * rows)) by nia.
    split; [assumption|]. unfold step. rewrite Hjf. cbn [result_bind]. rewrite Htiles.
    cbn [result_bind]. apply push_parts_zip. congruence. }
  destruct (aggregate_loop P step (Z.to_nat (cols * rows)) frames parts Hstep HP
              (map (fun _ : Z => @nil Entry) (seqZ 0 (cols * rows))))
    as (gifs & Hrun & Hlen & Hseq).
  { now rewrite length_map, length_seqZ. }
  exists gifs. split; [exact Hrun|]. split; [exact Hlen|].
  intros c r Hcr Hrr.
  destruct (Hseq (Z.to_nat (r * cols + c)) []) as (seq & Hg & Hlenseq & Hentries).
  { rewrite list_lookup_fmap, lookup_seqZ_lt by nia. reflexivity. }
  exists seq. split; [exact Hg|]. split; [exact Hlenseq|].
  intros i fr tiles Hi Hp.
  destruct (Hentries i fr tiles Hi Hp) as (t & Ht & Hs).
  exists t. split; [exact Ht|]. split; [exact Hs|].
  rewrite list_lookup_fmap, Hs. reflexivity.
Qed.

End AggregateFacts.

Lemma C2_aggregate_positional_witness :
  exists gifs,
    Index.aggregate example_frames (Some (JsNum.Int 2)) (Some (JsNum.Int 1))
      "gif" "cover" None ∅ = Ok gifs
    /\ length gifs = Z.to_nat (2 * 1)
    /\ forall c r, 0 <= c < 2 -> 0 <= r < 1 ->
         exists seq,
           gifs !! Z.to_nat (r * 2 + c) = Some seq
           /\ length seq = length example_frames
           /\ forall i fr tiles,
                example_frames !! i = Some fr ->
                example_parts 2 1 "gif" "cover" !! i = Some tiles ->
                exists t,
                  tiles !! Z.to_nat (r * 2 + c) = Some t
                  /\ seq !! i = Some {| frame := t; frameInfo_of := frame_info fr |}
                  /\ delayCentisecs <$> (map Index.toGifFrame seq !! i)
                     = Some (delay (frame_info fr)).
Proof.
  apply (C2_aggregate_positional (N := sym_number) (J := rjimp) (G := rgif)
           2 1 example_frames (example_parts 2 1 "gif" "cover")); [lia | lia |].
  repeat constructor; eexists; split; reflexivity.
Defined.

(** ** [init] *)

Section InitFacts.
Context {N : JsNumber} {J : Jimp} {G : GifFrames}.
Import JsNum Spec Index LoopFacts.

Lemma foldM_invariant {A B : Type} (Inv : A -> Prop) (body : A -> B -> result A)
    (l : list B) (acc r : A) :
  (forall a x a', Inv a -> body a x = Ok a' -> Inv a') ->
  Inv acc -> foldM body acc l = Ok r -> Inv r.
Proof.
  intros Hbody. revert acc. induction l as [|x l IH]; intros acc Hacc; simpl.
  - now intros [= <-].
  - destruct (body acc x) as [a'|e] eqn:Hx; simpl; [|discriminate].
    apply IH. now apply (Hbody acc x).
Qed.

Lemma push_parts_length (gifs gifs' : list (list Entry)) (parts : list image)
    (info : frameInfo) :
  push_parts gifs parts info = Ok gifs' -> length gifs' = length gifs.
Proof.
  unfold push_parts.
  apply (foldM_invariant (fun g => length g = length gifs)); [|reflexivity].
  intros a [j part] a' Ha. unfold push_at. destruct (a !! j); [|discriminate].
  intros [= <-]. now rewrite length_insert.
Qed.

Lemma aggregate_length (frames : list Frame) (widthParts heightParts : option jsnum)
    (ext mode : string) (filters : option (list string)) (fv : gmap string jsval)
    (gifs : list (list Entry)) :
  aggregate frames widthParts heightParts ext mode filters fv = Ok gifs ->
  length gifs = trip (Some (mul widthParts heightParts)).
Proof.
  unfold aggregate. destruct (ends _); [|discriminate].
  apply (foldM_invariant
           (fun g => length g = trip (Some (mul widthParts heightParts)))).
  - intros a fr a' Ha.
    destruct (applyFilters (getImage fr) filters fv); simpl; [|discriminate].
    destruct (splitFrame _ widthParts heightParts ext mode); simpl; [|discriminate].
    intros Hp. apply push_parts_length in Hp. rewrite Hp. exact Ha.
  - unfold for_lt.
    rewrite (foldl_snoc (fun _ : Z => @nil Entry)). simpl.
    now rewrite length_map, length_seqZ, Nat2Z.id.
Qed.

(** The code's suffix and the file name of the statement agree. *)
Lemma suffix_file_name (name : string) (n k : nat) :
  (0 < n)%nat -> name +:+ suffix n k = file_name name n k.
Proof.
  intros Hn. unfold suffix, file_name.
  destruct (Nat.ltb_spec 1 n), (Nat.eqb_spec n 1); try lia; try reflexivity.
  apply StringFacts.app_nil_r.
Qed.

Lemma gif_path_file_name (OUT_PATH name : string) (n k : nat) :
  (0 < n)%nat ->
  gif_path OUT_PATH name n k
  = OUT_PATH +:+ "/" +:+ name +:+ "/" +:+ file_name name n k +:+ ".gif".
Proof.
  intros Hn. unfold gif_path. rewrite <- (suffix_file_name name n k Hn).
  now rewrite !StringFacts.app_assoc.
Qed.

Lemma image_path_file_name (OUT_PATH name ext : string) (n k : nat) :
  (0 < n)%nat ->
  image_path OUT_PATH name ext n k
  = OUT_PATH +:+ "/" +:+ name +:+ "/" +:+ file_name name n k +:+ "." +:+ ext.
Proof.
  intros Hn. unfold image_path. rewrite <- (suffix_file_name name n k Hn).
  now rewrite !StringFacts.app_assoc.
Qed.

Lemma app_inj_r (s1 s2 t : string) : s1 +:+ t = s2 +:+ t -> s1 = s2.
Proof.
  revert s2. induction s1 as [|c s1 IH]; intros [|d s2] H; try reflexivity.
  - apply (f_equal String.length) in H.
    rewrite StringFacts.app_cons, StringFacts.app_nil_l in H. simpl in H.
    rewrite StringFacts.length_app in H. lia.
  - apply (f_equal String.length) in H.
    rewrite StringFacts.app_cons, StringFacts.app_nil_l in H. simpl in H.
    rewrite StringFacts.length_app in H. lia.
  - rewrite !StringFacts.app_cons in H. injection H as -> H. f_equal. now apply IH.
Qed.

(** Different tiles get different names. *)
Lemma file_name_inj (name tail : string) (n k k' : nat) :
  (k < n)%nat -> (k' < n)%nat ->
  file_name name n k +:+ tail = file_name name n k' +:+ tail -> k = k'.
Proof.
  intros Hk Hk' H. apply app_inj_r in H. unfold file_name in H.
  destruct (Nat.eqb_spec n 1) as [->|_]; [lia|].
  apply (inj (String.append name)) in H. apply (inj (String.append "-")) in H.
  apply (inj pretty) in H. lia.
Qed.

(** C3: in grid mode with a [cols] by [rows] grid, [init] writes
    [n = cols * rows] files after its housekeeping, one per tile in tile
    order; file [k] carries tile [k] and is named by the bare run name when
    [n = 1] and by the run name followed by [-(k+1)] otherwise, so that no
    two tiles share a file. *)
Theorem C3_grid_output_names (OUT_PATH DATA_PATH : string) (w : World) (args : Args)
    (cols rows : Z) :
  truthy (arg_image args) = true ->
  truthy (arg_dimensions args) = true ->
  truthy (arg_mode args) = true ->
  parseDimensions (arg_dimensions args) = Some (Some (Int cols), Some (Int rows)) ->
  0 < cols -> 0 < rows ->
  let image := strip_quotes (arg_image args) in
  let ext := extension image in
  let name := arg_name args in
  let n := Z.to_nat (cols * rows) in
  let housekeeping :=
    [EmptyDir (OUT_PATH +:+ "/" +:+ name);
     WriteHistory (DATA_PATH +:+ "/history.json") (arg_image args)] in
  (String.eqb (JsString.toLowerCase ext) "gif" = false ->
   forall img jf tiles,
     jimp_read w image = Ok img ->
     applyFilters img (arg_filters args) (arg_filterValues args) = Ok jf ->
     splitFrame jf (Some (Int cols)) (Some (Int rows)) ext (arg_mode args) = Ok tiles ->
     length tiles = n
     /\ fst (init OUT_PATH DATA_PATH w args)
        = housekeeping ++
          imap (fun k tile =>
                  WriteImage (OUT_PATH +:+ "/" +:+ name +:+ "/"
                              +:+ file_name name n k +:+ "." +:+ ext) tile) tiles)
  /\ (String.eqb (JsString.toLowerCase ext) "gif" = true ->
      forall frames gifs,
        gifFrames w (if isUrl image then Fetched image else Local image) = Ok frames ->
        aggregate frames (Some (Int cols)) (Some (Int rows)) ext (arg_mode args)
          (arg_filters args) (arg_filterValues args) = Ok gifs ->
        length gifs = n
        /\ fst (init OUT_PATH DATA_PATH w args)
           = housekeeping ++
             imap (fun k g =>
                     WriteGif (OUT_PATH +:+ "/" +:+ name +:+ "/"
                               +:+ file_name name n k +:+ ".gif")
                       (map toGifFrame g) 2) gifs)
  /\ (forall k k' tail, (k < n)%nat -> (k' < n)%nat ->
        file_name name n k +:+ tail = file_name name n k' +:+ tail -> k = k').
Proof.
  intros Hi Hd Hm Hparse Hc Hr image ext name n housekeeping.
  assert (Hn : (0 < n)%nat) by (unfold n; nia).
  split; [|split; [|intros k k' tail; apply file_name_inj]].
  - intros Hext img jf tiles Hread Hjf Htiles.
    assert (Hlen : length tiles = n).
    { apply splitFrame_length in Htiles. simpl in Htiles. unfold n. nia. }
    split; [exact Hlen|].
    unfold init. rewrite Hi, Hd, Hm, Hparse. cbn [andb].
    fold image. fold ext. rewrite Hext, Hread. cbn [result_bind].
    rewrite Hjf. cbn [result_bind]. rewrite Htiles. cbn [fst].
    f_equal. rewrite Hlen. apply imap_ext. intros k t _.
    now rewrite image_path_file_name.
  - intros Hext frames gifs Hframes Hgifs.
    assert (Hlen : length gifs = n).
    { apply aggregate_length in Hgifs. simpl in Hgifs. unfold n. lia. }
    split; [exact Hlen|].
    unfold init. rewrite Hi, Hd, Hm, Hparse. cbn [andb].
    fold image. fold ext. rewrite Hext, Hframes. cbn [result_bind].
    rewrite Hgifs. cbn [fst].
    f_equal. rewrite Hlen. apply imap_ext. intros k g _.
    now rewrite gif_path_file_name.
Qed.

End InitFacts.

Lemma C3_grid_output_names_witness :
  let args := example_args "cat.gif" "2,3" in
  let w := world [] in
  let image := strip_quotes (Index.arg_image args) in
  let ext := extension image in
  let name := Index.arg_name args in
  let n := Z.to_nat (2 * 3) in
  let housekeeping :=
    [EmptyDir ("./out" +:+ "/" +:+ name);
     WriteHistory ("./.data" +:+ "/history.json") (Index.arg_image args)] in
  (String.eqb (JsString.toLowerCase ext) "gif" = false ->
   forall img jf tiles,
     jimp_read w image = Ok img ->
     Index.applyFilters img (Index.arg_filters args) (Index.arg_filterValues args) = Ok jf ->
     Index.splitFrame jf (Some (JsNum.Int 2)) (Some (JsNum.Int 3)) ext
       (Index.arg_mode args) = Ok tiles ->
     length tiles = n
     /\ fst (Index.init "./out" "./.data" w args)
        = housekeeping ++
          imap (fun k tile =>
                  WriteImage ("./out" +:+ "/" +:+ name +:+ "/"
                              +:+ Spec.file_name name n k +:+ "." +:+ ext) tile) tiles)
  /\ (String.eqb (JsString.toLowerCase ext) "gif" = true ->
      forall frames gifs,
        gifFrames w (if isUrl image then Fetched image else Local image) = Ok frames ->
        Index.aggregate frames (Some (JsNum.Int 2)) (Some (JsNum.Int 3)) ext
          (Index.arg_mode args) (Index.arg_filters args) (Index.arg_filterValues args)
        = Ok gifs ->
        length gifs = n
        /\ fst (Index.init "./out" "./.data" w args)
           = housekeeping ++
             imap (fun k g =>
                     WriteGif ("./out" +:+ "/" +:+ name +:+ "/"
                               +:+ Spec.file_name name n k +:+ ".gif")
                       (map Index.toGifFrame g) 2) gifs)
  /\ (forall k k' tail, (k < n)%nat -> (k' < n)%nat ->
        Spec.file_name name n k +:+ tail = Spec.file_name name n k' +:+ tail -> k = k').
Proof.
  apply (C3_grid_output_names (N := sym_number) (J := rjimp) (G := rgif)
           "./out" "./.data" (world []) (example_args "cat.gif" "2,3") 2 3);
    [reflexivity | reflexivity | reflexivity | reflexivity | lia | lia].
Defined.

(** The two boundary runs of the specification: one tile gives the bare
    name, a 2 by 3 grid gives the suffixes -1 to -6. *)
Example grid_1_writes_bare_name :
  fst (Index.init "./out" "./.data" (world []) (example_args "cat.png" "1"))
  = [EmptyDir "./out/cat"; WriteHistory "./.data/history.json" "cat.png";
     WriteImage "./out/cat/cat.png"
       (crop 0 0 64 64
          (clone {| origin := "cat.png"; rwidth := 64; rheight := 64;
                    log := [OpCall "cover" [VNumber (SInt 64); VNumber (SInt 64)]] |}))].
Proof. reflexivity. Qed.

Example grid_2_3_writes_six_names :
  omap (fun e => match e with WriteGif path _ _ => Some path | _ => None end)
    (fst (Index.init "./out" "./.data" (world []) (example_args "cat.gif" "2,3")))
  = ["./out/cat/cat-1.gif"; "./out/cat/cat-2.gif"; "./out/cat/cat-3.gif";
     "./out/cat/cat-4.gif"; "./out/cat/cat-5.gif"; "./out/cat/cat-6.gif"].
Proof. reflexivity. Qed.

(** ** The locator: quotes and extension *)

Module LocatorFacts.
Import StringFacts.

Ltac norm_app := rewrite ?app_cons, ?app_nil_l.

Lemma last_char_app (a : string) (c : ascii) (b : string) :
  JsString.last_char (a +:+ String c b) = JsString.last_char (String c b).
Proof.
  induction a as [|d a IH]; [reflexivity|].
  rewrite app_cons. cbn [JsString.last_char]. rewrite IH.
  destruct a; reflexivity.
Qed.

Lemma last_app_nonempty {A : Type} (l1 l2 : list A) (x d : A) :
  List.last (l1 ++ x :: l2) d = List.last (x :: l2) d.
Proof.
  induction l1 as [|y l1 IH]; [reflexivity|].
  cbn [app List.last]. rewrite IH. destruct l1; reflexivity.
Qed.

Lemma extension_app (p s : string) :
  extension (p +:+ String "." s) = extension s.
Proof.
  unfold extension, JsString.pop. rewrite DimensionFacts.split_app.
  pose proof (DimensionFacts.split_nonempty "." s) as Hne.
  destruct (JsString.split "." s) as [|seg segs] eqn:Hs; [congruence|].
  apply last_app_nonempty.
Qed.

Lemma substring_prefix (m r : string) :
  String.substring 0 (String.length m) (m +:+ r) = m.
Proof.
  induction m as [|c m IH]; [destruct r; reflexivity|].
  rewrite app_cons. simpl. now rewrite IH.
Qed.

(** Stripping takes one quote off each end. *)
Lemma strip_quotes_quoted (m : string) :
  strip_quotes (String "'" (m +:+ "'")) = m.
Proof.
  unfold strip_quotes, JsString.startsWith, JsString.endsWith.
  change (String "'" (m +:+ "'")) with (String "'" m +:+ "'").
  rewrite last_char_app. simpl. unfold JsString.substr, JsString.length.
  rewrite app_cons. cbn [String.length].
  rewrite length_app. cbn [String.length].
  replace (Z.to_nat (Z.of_nat (S (String.length m + 1)) - 2)) with (String.length m) by lia.
  change (Z.to_nat 1) with 1%nat. cbn [String.substring].
  apply substring_prefix.
Qed.

Lemma strip_quotes_unquoted (s : string) :
  JsString.startsWith "'" s && JsString.endsWith "'" s = false ->
  strip_quotes s = s.
Proof. intros H. unfold strip_quotes. now rewrite H. Qed.

Lemma endsWith_app (a : string) (c : ascii) (b : string) (q : ascii) :
  JsString.endsWith q (a +:+ String c b) = JsString.endsWith q (String c b).
Proof. unfold JsString.endsWith. now rewrite last_char_app. Qed.

(** After validation and one stripping, the locator is stable under
    stripping, and its extension is gif as soon as it is gif up to case. *)
Lemma validated_locator (value : string) :
  Prompts.validate_image value = true ->
  let image := strip_quotes (Prompts.format_image value) in
  strip_quotes image = image
  /\ (String.eqb (JsString.toLowerCase (extension image)) "gif" = true ->
      extension image = "gif").
Proof.
  intros Hv. apply PromptFacts.validate_image_spec in Hv as (p & e & q & Ht & He & Hq).
  unfold Prompts.format_image. rewrite Ht. clear Ht value.
  assert (Hbase : forall (s : string) (p0 : string),
             JsString.endsWith "'" (String "." s) = false ->
             strip_quotes (p0 +:+ String "." s) = p0 +:+ String "." s).
  { intros s p0 Hend. apply strip_quotes_unquoted.
    rewrite endsWith_app, Hend. apply andb_false_r. }
  assert (Hplain : forall s : string,
             JsString.endsWith "'" (String "." s) = false ->
             (String.eqb (JsString.toLowerCase (extension s)) "gif" = true ->
              extension s = "gif") ->
             let image := strip_quotes (p +:+ String "." s) in
             strip_quotes image = image
             /\ (String.eqb (JsString.toLowerCase (extension image)) "gif" = true ->
                 extension image = "gif")).
  { intros s Hend Hext. cbv zeta. rewrite !Hbase, extension_app by assumption. auto. }
  assert (Hquoted : forall s : string,
             JsString.endsWith "'" (String "." s) = false ->
             (String.eqb (JsString.toLowerCase (extension s)) "gif" = true ->
              extension s = "gif") ->
             (String.eqb (JsString.toLowerCase (extension (s +:+ "'"))) "gif" = true ->
              extension (s +:+ "'") = "gif") ->
             let image := strip_quotes (p +:+ String "." (s +:+ "'")) in
             strip_quotes image = image
             /\ (String.eqb (JsString.toLowerCase (extension image)) "gif" = true ->
                 extension image = "gif")).
  { intros s Hend Hext Hext'. cbv zeta.
    destruct (JsString.startsWith "'" p) eqn:Hstart.
    - destruct p as [|c p']; [discriminate|]. simpl in Hstart.
      apply Ascii.eqb_eq in Hstart as ->.
      replace (String "'" p' +:+ String "." (s +:+ "'"))
        with (String "'" ((p' +:+ String "." s) +:+ "'"))
        by (now rewrite app_cons, app_assoc, app_cons).
      rewrite strip_quotes_quoted, Hbase, extension_app by assumption. auto.
    - assert (Hs : strip_quotes (p +:+ String "." (s +:+ "'"))
                   = p +:+ String "." (s +:+ "'")).
      { apply strip_quotes_unquoted.
        destruct p as [|c p']; [reflexivity|].
        simpl in Hstart. unfold JsString.startsWith. rewrite app_cons, Hstart.
        reflexivity. }
      rewrite !Hs, extension_app. auto. }
  simpl in He.
  destruct Hq as [-> | ->].
  - rewrite app_nil_r. norm_app.
    apply (Hplain e); destruct He as [<-|[<-|[<-|[<-|[<-|[]]]]]];
      vm_compute; intros; congruence.
  - norm_app.
    apply (Hquoted e); destruct He as [<-|[<-|[<-|[<-|[<-|[]]]]]];
      vm_compute; intros; congruence.
Qed.

End LocatorFacts.

(** ** The posterization of GIF output *)

Section PosterizeFacts.
Context {N : JsNumber} {J : Jimp} {G : GifFrames}.
Import JsNum Spec LoopFacts.

Lemma foldM_invariant_on {A B : Type} (Inv : A -> Prop) (Q : B -> Prop)
    (body : A -> B -> result A) (l : list B) (acc r : A) :
  (forall a x a', Q x -> Inv a -> body a x = Ok a' -> Inv a') ->
  Forall Q l -> Inv acc -> foldM body acc l = Ok r -> Inv r.
Proof.
  intros Hbody HQ. revert acc.
  induction HQ as [|x l Hx _ IH]; intros acc Hacc; simpl.
  - now intros [= <-].
  - destruct (body acc x) as [a'|e] eqn:Hb; simpl; [|discriminate].
    apply IH. now apply (Hbody acc x).
Qed.

Lemma Forall_imap {A B : Type} (P : B -> Prop) (f : nat -> A -> B) (l : list A) :
  (forall i x, l !! i = Some x -> P (f i x)) -> Forall P (imap f l).
Proof.
  intros H. apply Forall_lookup. intros i y Hy.
  rewrite list_lookup_imap in Hy.
  destruct (l !! i) as [x|] eqn:Hx; [|discriminate].
  injection Hy as <-. now apply H.
Qed.

(** Every tile [splitFrame] returns comes out of [tile]. *)
Lemma splitFrame_tiles (img : image) (widthParts heightParts : option jsnum)
    (ext mode : string) (tiles : list image) :
  Index.splitFrame img widthParts heightParts ext mode = Ok tiles ->
  Forall (fun t => exists resized x y, t = Index.tile resized ext x y) tiles.
Proof.
  rewrite splitFrame_row_major.
  destruct (call mode _ img) as [resized|e]; simpl; [|discriminate].
  destruct (JsNum.ends heightParts && _); [|discriminate].
  intros [= <-]. apply List.Forall_forall. intros t Ht.
  apply elem_of_row_major in Ht as (x & y & _ & _ & ->). eauto.
Qed.

Lemma push_parts_entries (P : image -> Prop) (gifs gifs' : list (list Entry))
    (parts : list image) (info : frameInfo) :
  Forall P parts ->
  Forall (Forall (fun e => P (frame e))) gifs ->
  Index.push_parts gifs parts info = Ok gifs' ->
  Forall (Forall (fun e => P (frame e))) gifs'.
Proof.
  intros Hparts Hgifs. unfold Index.push_parts.
  apply (foldM_invariant_on _ (fun jp : nat * image => P (snd jp))); [| |exact Hgifs].
  - intros a [j part] a' Hp Ha. unfold Index.push_at.
    destruct (a !! j) as [g|] eqn:Hg; [|discriminate]. intros [= <-].
    apply Forall_insert; [assumption|].
    apply Forall_app. split.
    + now apply (Forall_lookup_1 _ _ _ _ Ha Hg).
    + constructor; [exact Hp | constructor].
  - apply Forall_imap. intros i x Hx. simpl.
    now apply (Forall_lookup_1 _ _ _ _ Hparts Hx).
Qed.

Lemma aggregate_entries (frames : list Frame) (widthParts heightParts : option jsnum)
    (ext mode : string) (filters : option (list string)) (fv : gmap string jsval)
    (gifs : list (list Entry)) :
  Index.aggregate frames widthParts heightParts ext mode filters fv = Ok gifs ->
  Forall (Forall (fun e => exists resized x y, frame e = Index.tile resized ext x y)) gifs.
Proof.
  unfold Index.aggregate. destruct (JsNum.ends _); [|discriminate].
  apply (foldM_invariant_on _ (fun _ => True)).
  - intros a fr a' _ Ha.
    destruct (Index.applyFilters (getImage fr) filters fv) as [jf|e]; simpl; [|discriminate].
    destruct (Index.splitFrame jf widthParts heightParts ext mode) as [tiles|e] eqn:Ht;
      simpl; [|discriminate].
    apply (push_parts_entries
             (fun t => exists resized x y, t = Index.tile resized ext x y));
      [now apply splitFrame_tiles in Ht | exact Ha].
  - apply Forall_forall. auto.
  - unfold for_lt. rewrite (foldl_snoc (fun _ : Z => @nil Entry)). simpl.
    apply Forall_fmap, Forall_forall. intros x _. constructor.
Qed.

Lemma tile_gif (resized : image) (x y : Z) :
  grid_posterized (Index.tile resized "gif" x y).
Proof. exists resized, x, y. reflexivity. Qed.

Lemma tile_not_gif (resized : image) (ext : string) (x y : Z) :
  String.eqb ext "gif" = false -> grid_plain (Index.tile resized ext x y).
Proof. intros H. exists resized, x, y. unfold Index.tile. now rewrite H. Qed.

(** The extension test of [init] is at least as wide as that of
    [splitFrame]. *)
Lemma not_gif_up_to_case (ext : string) :
  String.eqb (JsString.toLowerCase ext) "gif" = false -> String.eqb ext "gif" = false.
Proof.
  intros H. destruct (String.eqb_spec ext "gif") as [->|]; [discriminate H | reflexivity].
Qed.

Lemma housekeeping_emitted (in_gif in_static : image -> Prop) (dir path emoji : string) :
  Forall (emitted_as in_gif in_static) [EmptyDir dir; WriteHistory path emoji].
Proof. repeat constructor. Qed.

Lemma grid_init_emitted (OUT_PATH DATA_PATH : string) (w : World) (args : Index.Args) :
  (let image := strip_quotes (Index.arg_image args) in
   String.eqb (JsString.toLowerCase (extension image)) "gif" = true ->
   extension image = "gif") ->
  Forall (emitted_as grid_posterized grid_plain)
    (fst (Index.init OUT_PATH DATA_PATH w args)).
Proof.
  intros Hagree. unfold Index.init.
  destruct (truthy (Index.arg_image args) && truthy (Index.arg_dimensions args)
            && truthy (Index.arg_mode args)); [|apply housekeeping_emitted].
  destruct (Index.parseDimensions (Index.arg_dimensions args)) as [[wp hp]|];
    [|apply housekeeping_emitted].
  destruct (String.eqb (JsString.toLowerCase
                          (extension (strip_quotes (Index.arg_image args)))) "gif")
    eqn:Hext.
  - specialize (Hagree Hext). cbv zeta in Hagree. rewrite Hagree.
    destruct (gifFrames w _) as [frames|e]; simpl; [|apply housekeeping_emitted].
    destruct (Index.aggregate frames wp hp "gif" _ _ _) as [gifs|e] eqn:Hagg;
      [|apply housekeeping_emitted].
    apply aggregate_entries in Hagg. cbn [fst app].
    constructor; [exact I|]. constructor; [exact I|].
    apply Forall_imap. intros i g Hg. simpl.
    apply Forall_fmap, Forall_forall. intros e He.
    pose proof (Forall_lookup_1 _ _ _ _ Hagg Hg) as Hgi.
    rewrite Forall_forall in Hgi. destruct (Hgi e He) as (resized & x & y & Hf).
    exists (frame e). split; [reflexivity|]. rewrite Hf. apply tile_gif.
  - apply not_gif_up_to_case in Hext.
    destruct (jimp_read w _) as [img|e]; simpl; [|apply housekeeping_emitted].
    destruct (Index.applyFilters img _ _) as [jf|e]; simpl; [|apply housekeeping_emitted].
    destruct (Index.splitFrame jf wp hp _ _) as [tiles|e] eqn:Ht;
      [|apply housekeeping_emitted].
    apply splitFrame_tiles in Ht. cbn [fst app].
    constructor; [exact I|]. constructor; [exact I|].
    apply Forall_imap. intros i t Hi. simpl.
    destruct (Forall_lookup_1 _ _ _ _ Ht Hi) as (resized & x & y & ->).
    now apply tile_not_gif.
Qed.

End PosterizeFacts.

Section MaskFacts.
Context {N : JsNumber} {J : Jimp} {G : GifFrames}.
Import JsNum Spec MaskVariant.

Lemma getImageWithMask_shape (img msk : image) (ext mode : string) (t m : image) :
  getImageWithMask img msk ext mode = Ok (t, m) ->
  exists resized,
    t = let masked := mask m 0 0 (crop 0 0 SIZE SIZE (clone resized)) in
        if String.eqb ext "gif" then posterize 15 masked else masked.
Proof.
  unfold getImageWithMask.
  destruct (call mode _ img) as [resized|e]; simpl; [|discriminate].
  destruct (call mode _ msk) as [m'|e]; simpl; [|discriminate].
  intros [= <- <-]. now exists resized.
Qed.

Lemma mask_frames_entries (frames : list Frame) (msk : image) (ext mode : string)
    (gif : list Entry) (m : image) :
  mask_frames frames msk ext mode = Ok (gif, m) ->
  Forall (fun e => exists resized m',
            frame e = let masked := mask m' 0 0 (crop 0 0 SIZE SIZE (clone resized)) in
                      if String.eqb ext "gif" then posterize 15 masked else masked) gif.
Proof.
  unfold mask_frames. intros H.
  apply (foldM_invariant_on
           (fun p : list Entry * image =>
              Forall (fun e => exists resized m',
                        frame e = let masked :=
                                    mask m' 0 0 (crop 0 0 SIZE SIZE (clone resized)) in
                                  if String.eqb ext "gif" then posterize 15 masked
                                  else masked) (fst p))
           (fun _ => True)) in H; [exact H | | apply Forall_forall; auto | constructor].
  intros [g m0] fr [g' m1] _ Hg. simpl in Hg.
  destruct (getImageWithMask (getImage fr) m0 ext mode) as [[t m2]|e] eqn:Ht;
    simpl; [|discriminate].
  intros [= <- <-]. simpl. apply Forall_app. split; [exact Hg|].
  constructor; [|constructor]. simpl.
  apply getImageWithMask_shape in Ht as [resized ->]. eauto.
Qed.

Lemma mask_round_emitted (OUT_PATH MASKS_PATH : string) (w : World)
    (name mode image maskFile : string) (effects : list effect) :
  (String.eqb (JsString.toLowerCase (extension (strip_quotes image))) "gif" = true ->
   extension (strip_quotes image) = "gif") ->
  snd (mask_round OUT_PATH MASKS_PATH w name mode image maskFile) = Ok effects ->
  Forall (emitted_as mask_posterized mask_plain) effects.
Proof.
  intros Hagree. unfold mask_round. cbn [snd].
  destruct (maskName maskFile) as [mname|e]; simpl; [|discriminate].
  destruct (jimp_read w (MASKS_PATH +:+ "/" +:+ maskFile)) as [msk|e]; simpl; [|discriminate].
  destruct (String.eqb (JsString.toLowerCase (extension (strip_quotes image))) "gif")
    eqn:Hext.
  - rewrite (Hagree eq_refl).
    destruct (gifFrames w _) as [frames|e]; simpl; [|discriminate].
    destruct (mask_frames frames msk "gif" mode) as [[gif m]|e] eqn:Hgif;
      simpl; [|discriminate].
    intros [= <-]. constructor; [|constructor]. simpl.
    apply mask_frames_entries in Hgif.
    apply Forall_fmap. eapply Forall_impl; [exact Hgif|].
    intros e (resized & m' & He). exists (frame e). split; [reflexivity|].
    rewrite He. now exists resized, m'.
  - apply not_gif_up_to_case in Hext.
    destruct (jimp_read w (strip_quotes image)) as [img|e]; simpl;
      [|intros [= <-]; constructor].
    destruct (getImageWithMask img msk _ mode) as [[masked m]|e] eqn:Hm;
      intros [= <-]; constructor; [|constructor]. simpl.
    apply getImageWithMask_shape in Hm as [resized ->]. rewrite Hext.
    now exists resized, m.
Qed.

Lemma mask_loop_emitted (OUT_PATH MASKS_PATH : string) (w : World)
    (name mode : string) (masks : list string) (image : string) :
  strip_quotes (strip_quotes image) = strip_quotes image ->
  (String.eqb (JsString.toLowerCase (extension (strip_quotes image))) "gif" = true ->
   extension (strip_quotes image) = "gif") ->
  Forall (emitted_as mask_posterized mask_plain)
    (fst (mask_loop OUT_PATH MASKS_PATH w name mode image masks)).
Proof.
  revert image. induction masks as [|maskFile rest IH]; intros image Hstable Hagree.
  - constructor.
  - cbn [mask_loop].
    pose proof (mask_round_emitted OUT_PATH MASKS_PATH w name mode image maskFile) as Hround.
    assert (Himage : fst (mask_round OUT_PATH MASKS_PATH w name mode image maskFile)
                     = strip_quotes image) by reflexivity.
    destruct (mask_round OUT_PATH MASKS_PATH w name mode image maskFile)
      as [image' [effects|e]]; [|constructor].
    simpl in Himage. subst image'.
    specialize (IH (strip_quotes image)). rewrite !Hstable in IH.
    specialize (IH eq_refl Hagree).
    destruct (mask_loop OUT_PATH MASKS_PATH w name mode (strip_quotes image) rest)
      as [later r].
    cbn [fst] in *. apply Forall_app. split; [|exact IH].
    now apply Hround.
Qed.

Lemma mask_init_emitted (OUT_PATH MASKS_PATH DATA_PATH : string) (w : World) (args : Args) :
  strip_quotes (strip_quotes (arg_image args)) = strip_quotes (arg_image args) ->
  (String.eqb (JsString.toLowerCase (extension (strip_quotes (arg_image args)))) "gif"
   = true -> extension (strip_quotes (arg_image args)) = "gif") ->
  Forall (emitted_as mask_posterized mask_plain)
    (fst (init OUT_PATH MASKS_PATH DATA_PATH w args)).
Proof.
  intros Hstable Hagree. unfold init.
  pose proof (mask_loop_emitted OUT_PATH MASKS_PATH w (arg_name args) (arg_mode args)
                (filter (fun item => negb (Prompts.hidden item) = true) (readdir w))
                (arg_image args) Hstable Hagree) as Hloop.
  destruct (mask_loop _ _ _ _ _ _ _) as [effects r]. cbn [fst app] in *.
  constructor; [exact I|]. constructor; [exact I|]. exact Hloop.
Qed.

End MaskFacts.

(** C7: in a run on a locator the image prompt accepted, every frame of
    every GIF written carries the pixels of a tile (or masked frame) whose
    last step is [posterize(15)], whatever the filters; every static image
    written is the cut tile (or the masked cut), with no posterization
    after it. *)
Theorem C7_gif_output_posterized {N : JsNumber} {J : Jimp} {G : GifFrames}
    (OUT_PATH MASKS_PATH DATA_PATH : string) (w : World) (value : string)
    (args : Index.Args) (margs : MaskVariant.Args) :
  Prompts.validate_image value = true ->
  Index.arg_image args = Prompts.format_image value ->
  MaskVariant.arg_image margs = Prompts.format_image value ->
  Forall (Spec.emitted_as Spec.grid_posterized Spec.grid_plain)
    (fst (Index.init OUT_PATH DATA_PATH w args))
  /\ Forall (Spec.emitted_as Spec.mask_posterized Spec.mask_plain)
       (fst (MaskVariant.init OUT_PATH MASKS_PATH DATA_PATH w margs)).
Proof.
  intros Hv Hargs Hmargs.
  destruct (LocatorFacts.validated_locator value Hv) as [Hstable Hagree].
  split.
  - apply grid_init_emitted. rewrite Hargs. exact Hagree.
  - apply mask_init_emitted; rewrite Hmargs; assumption.
Qed.

Lemma C7_gif_output_posterized_witness :
  Forall (Spec.emitted_as Spec.grid_posterized Spec.grid_plain)
    (fst (Index.init "./out" "./.data" (world ["1.png"; "2.png"])
            (example_args "'cat.gif'" "2")))
  /\ Forall (Spec.emitted_as Spec.mask_posterized Spec.mask_plain)
       (fst (MaskVariant.init "./out" "./masks" "./.data" (world ["1.png"; "2.png"])
               (example_mask_args "'cat.gif'"))).
Proof.
  apply (C7_gif_output_posterized (N := sym_number) (J := rjimp) (G := rgif)
           "./out" "./masks" "./.data" (world ["1.png"; "2.png"]) "  'cat.gif' ");
    reflexivity.
Defined.

(** Outside what the prompt accepts the two tests part: an upper-case
    extension takes the GIF branch of [init] and is not posterized by
    [splitFrame]. *)
Example upper_case_gif_not_posterized :
  String.eqb (JsString.toLowerCase (extension "CAT.GIF")) "gif" = true
  /\ Index.tile (blank "CAT.GIF" 64 64) (extension "CAT.GIF") 0 0
     = crop 0 0 64 64 (blank "CAT.GIF" 64 64)
  /\ Prompts.validate_image "CAT.GIF" = false.
Proof. repeat split; reflexivity. Qed.

(** C9: with three mask files and a static source, the three writes of the
    mask variant all go to the one path [name.ext], with no mask name in
    it; the GIF branch does name its outputs after the masks; and a mask
    file whose number is past the table ends the run with a
    [ReferenceError] instead of falling back to the number. *)
Theorem C9_static_masks_share_one_path :
  omap (fun e => match e with WriteImage path _ => Some path | _ => None end)
    (fst (MaskVariant.init "./out" "./masks" "./.data"
            (world ["1.png"; ".DS_Store"; "2.png"; "3.png"]) (example_mask_args "cat.png")))
  = ["./out/cat/cat.png"; "./out/cat/cat.png"; "./out/cat/cat.png"]
  /\ omap (fun e => match e with WriteGif path _ _ => Some path | _ => None end)
       (fst (MaskVariant.init "./out" "./masks" "./.data"
               (world ["1.png"; ".DS_Store"; "2.png"; "3.png"]) (example_mask_args "cat.gif")))
     = ["./out/cat/cat-A.gif"; "./out/cat/cat-B.gif"; "./out/cat/cat-C.gif"]
  /\ MaskVariant.maskName "64.png" = Throw (ReferenceError "maskName")
  /\ MaskVariant.init "./out" "./masks" "./.data" (world ["64.png"; "1.png"])
       (example_mask_args "cat.gif")
     = ([EmptyDir "./out/cat"; WriteHistory "./.data/history.json" "cat.gif"],
        Throw (ReferenceError "maskName")).
Proof. repeat split; reflexivity. Qed.

(** The scenario of the specification: a three-frame animation with delays
    10, 10, 20 on a 1 by 1 grid gives one GIF, under the bare name, whose
    three frames keep the delays in order. *)
Example animation_keeps_delays :
  omap (fun e => match e with
                 | WriteGif path frames _ => Some (path, map delayCentisecs frames)
                 | _ => None
                 end)
    (fst (Index.init "./out" "./.data" (world []) (example_args "cat.gif" "1")))
  = [("./out/cat/cat.gif", [10; 10; 20])].
Proof. reflexivity. Qed.

(** * Further properties of the two programs *)

(** ** Runs of [init] in grid mode *)

Section GridRunFacts.
Context {N : JsNumber} {J : Jimp} {G : GifFrames}.
Import JsNum Spec Notions Index LoopFacts.

Lemma Forall_is_write_imap {A : Type} (f : nat -> A -> effect) (l : list A) :
  (forall i x, is_write (f i x)) -> Forall is_write (imap f l).
Proof. intros H. apply Forall_imap. intros i x _. apply H. Qed.

(** X1: whatever the arguments, a run first empties the output directory
    of the name and records the locator as it was typed (quotes included)
    in the history file; every later effect writes an output file. *)
Theorem X1_init_housekeeping_first (OUT_PATH DATA_PATH : string) (w : World) (args : Args) :
  exists outputs,
    fst (init OUT_PATH DATA_PATH w args)
    = housekeeping OUT_PATH DATA_PATH (arg_name args) (arg_image args) ++ outputs
    /\ Forall is_write outputs.
Proof.
  unfold init, housekeeping.
  destruct (truthy (arg_image args) && truthy (arg_dimensions args)
            && truthy (arg_mode args)); [|exists []; split; [reflexivity | constructor]].
  destruct (parseDimensions (arg_dimensions args)) as [[wp hp]|];
    [|exists []; split; [reflexivity | constructor]].
  destruct (String.eqb _ "gif").
  - destruct (let* frames := gifFrames w _ in aggregate frames wp hp _ _ _ _) as [gifs|e];
      [|exists []; split; [reflexivity | constructor]].
    eexists. split; [reflexivity|]. apply Forall_is_write_imap. intros; exact I.
  - destruct (let* img := jimp_read w _ in
              let* img0 := applyFilters img _ _ in splitFrame img0 wp hp _ _) as [parts|e];
      [|exists []; split; [reflexivity | constructor]].
    eexists. split; [reflexivity|]. apply Forall_is_write_imap. intros; exact I.
Qed.

Lemma parse_none_iff (s : string) :
  parseDimensions s = None <-> Prompts.validate_dimensions s = false.
Proof.
  unfold parseDimensions, Prompts.validate_dimensions.
  destruct (Regex.test_whole Prompts.DIMENSIONS_W_H_REGEX s),
           (Regex.test_whole Prompts.DIMENSIONS_N_REGEX s); simpl;
    split; intros H; congruence.
Qed.

(** X2: [init] reaches its [Invalid dimensions] exit exactly on the strings
    the grid prompt refuses; on those, and when the locator, the grid shape
    or the mode is empty, the run ends normally after its housekeeping and
    writes no output. *)
Theorem X2_init_quiet_exits (OUT_PATH DATA_PATH : string) (w : World) (args : Args) :
  (parseDimensions (arg_dimensions args) = None
   <-> Prompts.validate_dimensions (arg_dimensions args) = false)
  /\ (truthy (arg_image args) && truthy (arg_dimensions args) && truthy (arg_mode args)
      = false
      \/ Prompts.validate_dimensions (arg_dimensions args) = false ->
      init OUT_PATH DATA_PATH w args
      = (housekeeping OUT_PATH DATA_PATH (arg_name args) (arg_image args), Ok tt)).
Proof.
  split; [apply parse_none_iff|].
  intros H. unfold init, housekeeping.
  destruct (truthy (arg_image args) && truthy (arg_dimensions args)
            && truthy (arg_mode args)); [|reflexivity].
  destruct H as [H|H]; [discriminate|].
  apply parse_none_iff in H. now rewrite H.
Qed.


(** A grid with no cell gives no file. *)
Lemma init_no_tiles (OUT_PATH DATA_PATH : string) (w : World) (args : Args)
    (wp hp : option jsnum) :
  parseDimensions (arg_dimensions args) = Some (wp, hp) ->
  trip (Some (mul wp hp)) = 0%nat ->
  (trip hp * trip wp = 0)%nat ->
  fst (init OUT_PATH DATA_PATH w args)
  = housekeeping OUT_PATH DATA_PATH (arg_name args) (arg_image args).
Proof.
  intros Hparse Hgifs Htiles. unfold init, housekeeping.
  destruct (truthy (arg_image args) && truthy (arg_dimensions args)
            && truthy (arg_mode args)); [|reflexivity].
  rewrite Hparse.
  destruct (String.eqb _ "gif").
  - destruct (gifFrames w _) as [frames|e]; [|reflexivity]. cbn [result_bind].
    destruct (aggregate frames wp hp _ _ _ _) as [gifs|e] eqn:Hagg; [|reflexivity].
    apply aggregate_length in Hagg. rewrite Hgifs in Hagg.
    destruct gifs; [reflexivity | discriminate].
  - destruct (jimp_read w _) as [img|e]; [|reflexivity]. cbn [result_bind].
    destruct (applyFilters img _ _) as [img0|e]; [|reflexivity]. cbn [result_bind].
    destruct (splitFrame img0 wp hp _ _) as [parts|e] eqn:Hparts; [|reflexivity].
    apply splitFrame_length in Hparts. rewrite Htiles in Hparts.
    destruct parts; [reflexivity | discriminate].
Qed.

Lemma split_digit_prefix (w t : string) :
  Spec.numeral w = true ->
  JsString.split "," (w +:+ t)
  = match JsString.split "," t with
    | seg :: segs => (w +:+ seg) :: segs
    | [] => [w]
    end.
Proof.
  pose proof (DimensionFacts.split_nonempty "," t) as Hne.
  induction w as [|c w IH]; [discriminate|].
  intros H. apply DimensionFacts.numeral_String in H as [Hc Hw].
  rewrite StringFacts.app_cons. cbn [JsString.split].
  destruct (Ascii.eqb c ",") eqn:Hcomma;
    [apply Ascii.eqb_eq in Hcomma as ->; discriminate|].
  destruct Hw as [->|Hw].
  - rewrite StringFacts.app_nil_l.
    destruct (JsString.split "," t); [congruence | reflexivity].
  - rewrite (IH Hw). destruct (JsString.split "," t); [congruence | reflexivity].
Qed.

(** The shapes written with [x] or [|] leave the height undefined. *)
Lemma parse_other_separator (w h : string) (sep : ascii) :
  Spec.numeral w = true -> Spec.numeral h = true ->
  sep = "x"%char \/ sep = "|"%char ->
  exists n, parseDimensions (w +:+ String sep h) = Some (Some n, None).
Proof.
  intros Hw Hh Hsep. unfold parseDimensions, Regex.test_whole.
  replace (Regex.matches Prompts.DIMENSIONS_W_H_REGEX (w +:+ String sep h)) with true.
  - rewrite (split_digit_prefix w _ Hw). cbn [JsString.split].
    replace (Ascii.eqb sep ",") with false by (destruct Hsep as [-> | ->]; reflexivity).
    rewrite (DimensionFacts.split_numeral h Hh). simpl. eauto.
  - symmetry. apply RegexFacts.matches_lang, DimensionFacts.lang_w_h.
    exists w, sep, h. repeat split; try assumption.
    destruct Hsep as [-> | ->]; reflexivity.
Qed.

(** X4: a grid shape written [WxH] or [W|H] passes the prompt, and the run
    then writes no output at all: the height is left undefined, so no tile
    is cut and no file is written, whatever the source and the filters. *)
Theorem X4_x_shape_writes_nothing (OUT_PATH DATA_PATH : string) (w : World) (args : Args)
    (cols rows : string) (sep : ascii) :
  Spec.numeral cols = true -> Spec.numeral rows = true ->
  sep = "x"%char \/ sep = "|"%char ->
  arg_dimensions args = cols +:+ String sep rows ->
  Prompts.validate_dimensions (arg_dimensions args) = true
  /\ fst (init OUT_PATH DATA_PATH w args)
     = housekeeping OUT_PATH DATA_PATH (arg_name args) (arg_image args).
Proof.
  intros Hc Hr Hsep Hdims. split.
  - rewrite Hdims. apply DimensionFacts.validate_dimensions_spec. left.
    exists cols, sep, rows. repeat split; try assumption.
    destruct Hsep as [-> | ->]; reflexivity.
  - destruct (parse_other_separator cols rows sep Hc Hr Hsep) as [n Hn].
    apply (init_no_tiles _ _ _ _ (Some n) None); [now rewrite Hdims| |reflexivity].
    destruct n; reflexivity.
Qed.

(** X5: a grid with a zero dimension ([0], [0,5], [5,0]) is accepted by the
    prompt's pattern and the run writes no output. *)
Theorem X5_zero_grid_writes_nothing (OUT_PATH DATA_PATH : string) (w : World) (args : Args)
    (cols rows : Z) :
  parseDimensions (arg_dimensions args) = Some (Some (Int cols), Some (Int rows)) ->
  0 <= cols -> 0 <= rows -> cols * rows = 0 ->
  fst (init OUT_PATH DATA_PATH w args)
  = housekeeping OUT_PATH DATA_PATH (arg_name args) (arg_image args).
Proof.
  intros Hparse Hc Hr Hzero.
  apply (init_no_tiles _ _ _ _ _ _ Hparse); simpl; [rewrite Hzero; reflexivity | nia].
Qed.

End GridRunFacts.

Section GridGifFacts.
Context {N : JsNumber} {J : Jimp} {G : GifFrames}.
Import JsNum Spec Notions Index LoopFacts.

(** Round after round, every tile's sequence records the frames seen so
    far, in order. *)
Lemma aggregate_infos (cols rows : Z) (ext mode : string)
    (filters : option (list string)) (fv : gmap string jsval) (frames : list Frame) :
  0 <= cols -> 0 <= rows ->
  forall (gifs0 gifs : list (list Entry)) (seen : list frameInfo),
    Forall (fun g => map frameInfo_of g = seen) gifs0 ->
    length gifs0 = Z.to_nat (cols * rows) ->
    foldM (fun gifs fr =>
             let jimpFrame := getImage fr in
             let* jimpFrame := applyFilters jimpFrame filters fv in
             let* frameParts :=
               splitFrame jimpFrame (Some (Int cols)) (Some (Int rows)) ext mode in
             push_parts gifs frameParts (frame_info fr))
          gifs0 frames = Ok gifs ->
    Forall (fun g => map frameInfo_of g = seen ++ map frame_info frames) gifs.
Proof.
  intros Hc Hr. induction frames as [|fr frames IH]; intros gifs0 gifs seen Hseen Hlen.
  - simpl. intros [= <-]. now rewrite app_nil_r.
  - cbn [foldM]. cbv zeta.
    destruct (applyFilters (getImage fr) filters fv) as [jf|e]; [|discriminate].
    cbn [result_bind].
    destruct (splitFrame jf (Some (Int cols)) (Some (Int rows)) ext mode)
      as [tiles|e] eqn:Ht; [|discriminate].
    cbn [result_bind].
    apply splitFrame_length in Ht. simpl in Ht.
    assert (Htiles : length gifs0 = length tiles).
    { rewrite Hlen, Ht, Z2Nat.inj_mul by lia. lia. }
    rewrite (push_parts_zip _ _ _ Htiles). cbn [result_bind].
    intros Hrest.
    apply (IH _ _ (seen ++ [frame_info fr])) in Hrest.
    + now rewrite <- app_assoc in Hrest.
    + apply Forall_lookup. intros i g Hg.
      apply lookup_zip_with_Some in Hg as (g0 & t & -> & Hg0 & _).
      unfold snoc_entry. rewrite map_app. simpl.
      now rewrite (Forall_lookup_1 _ _ _ _ Hseen Hg0).
    + rewrite length_zip_with_l_eq; assumption.
Qed.

(** X6: in a run on an animation, every GIF written has exactly the
    source's delays, in the source's order (so also the source's number of
    frames), and declares each frame 64 by 64; this holds for every tile
    and whatever the filters. *)
Theorem X6_gif_outputs_keep_delays (OUT_PATH DATA_PATH : string) (w : World) (args : Args)
    (cols rows : Z) (frames : list Frame) :
  parseDimensions (arg_dimensions args) = Some (Some (Int cols), Some (Int rows)) ->
  0 <= cols -> 0 <= rows ->
  (let image := strip_quotes (arg_image args) in
   gifFrames w (if isUrl image then Fetched image else Local image) = Ok frames) ->
  Forall (gif_keeps SIZE (map (fun fr => delay (frame_info fr)) frames))
    (fst (init OUT_PATH DATA_PATH w args)).
Proof.
  intros Hparse Hc Hr Hframes. cbv zeta in Hframes. unfold init.
  destruct (truthy (arg_image args) && truthy (arg_dimensions args)
            && truthy (arg_mode args)); [|repeat constructor].
  rewrite Hparse.
  destruct (String.eqb _ "gif").
  - rewrite Hframes. cbn [result_bind].
    destruct (aggregate frames _ _ _ _ _ _) as [gifs|e] eqn:Hagg; [|repeat constructor].
    cbn [fst app]. constructor; [exact I|]. constructor; [exact I|].
    unfold aggregate in Hagg.
    apply (aggregate_infos cols rows _ _ _ _ frames Hc Hr _ gifs []) in Hagg.
    + apply Forall_imap. intros i g Hg. simpl. split.
      * pose proof (Forall_lookup_1 _ _ _ _ Hagg Hg) as Hinfos. simpl in Hinfos.
        rewrite <- (map_map frame_info delay frames), <- Hinfos, !map_map.
        reflexivity.
      * apply Forall_fmap, Forall_forall. intros e _. split; reflexivity.
    + unfold for_lt. rewrite (foldl_snoc (fun _ : Z => @nil Entry)). simpl.
      apply Forall_fmap, Forall_forall. intros x _. reflexivity.
    + unfold for_lt. rewrite (foldl_snoc (fun _ : Z => @nil Entry)). simpl.
      rewrite length_map, length_seqZ, Nat2Z.id. reflexivity.
  - destruct (let* img := jimp_read w _ in
              let* img0 := applyFilters img _ _ in splitFrame img0 _ _ _ _) as [parts|e];
      [|repeat constructor].
    cbn [fst app]. constructor; [exact I|]. constructor; [exact I|].
    apply Forall_imap. intros; exact I.
Qed.

End GridGifFacts.


Lemma X4_x_shape_writes_nothing_witness :
  Prompts.validate_dimensions "2x3" = true
  /\ fst (Index.init "./out" "./.data" (world []) (example_args "cat.png" "2x3"))
     = Notions.housekeeping "./out" "./.data" "cat" "cat.png".
Proof.
  apply (X4_x_shape_writes_nothing (N := sym_number) (J := rjimp) (G := rgif)
           "./out" "./.data" (world []) (example_args "cat.png" "2x3") "2" "3" "x");
    [reflexivity | reflexivity | now left | reflexivity].
Defined.

Lemma X5_zero_grid_writes_nothing_witness :
  fst (Index.init "./out" "./.data" (world []) (example_args "cat.gif" "0,5"))
  = Notions.housekeeping "./out" "./.data" "cat" "cat.gif".
Proof.
  apply (X5_zero_grid_writes_nothing (N := sym_number) (J := rjimp) (G := rgif)
           "./out" "./.data" (world []) (example_args "cat.gif" "0,5") 0 5);
    [reflexivity | lia | lia | reflexivity].
Defined.

Lemma X6_gif_outputs_keep_delays_witness :
  Forall (Notions.gif_keeps Index.SIZE
            (map (fun fr => delay (frame_info fr)) example_frames))
    (fst (Index.init "./out" "./.data" (world []) (example_args "cat.gif" "2,3"))).
Proof.
  apply (X6_gif_outputs_keep_delays (N := sym_number) (J := rjimp) (G := rgif)
           "./out" "./.data" (world []) (example_args "cat.gif" "2,3") 2 3);
    [reflexivity | lia | lia | reflexivity].
Defined.

(** ** The filter chain and its prompts *)

Section ChainFacts.
Context {N : JsNumber} {J : Jimp} {G : GifFrames}.
Import Spec Index.

(** X7: a chain is applied left to right: applying [l1 ++ l2] is applying
    [l1] and then [l2] to its result, and an exception in [l1] ends the
    chain with that exception, [l2] untouched. *)
Theorem X7_filter_chain_composes (img : image) (l1 l2 : list string)
    (fv : gmap string jsval) :
  applyFilters img (Some (l1 ++ l2)) fv
  = (let* i := applyFilters img (Some l1) fv in applyFilters i (Some l2) fv)
  /\ (forall e, applyFilters img (Some l1) fv = Throw e ->
                applyFilters img (Some (l1 ++ l2)) fv = Throw e).
Proof.
  assert (H : applyFilters img (Some (l1 ++ l2)) fv
              = (let* i := applyFilters img (Some l1) fv in applyFilters i (Some l2) fv)).
  { rewrite !applyFilters_Some, foldM_app.
    destruct (foldM (applyFilter fv) img l1); cbn [result_bind]; [|reflexivity].
    now rewrite applyFilters_Some. }
  split; [exact H|]. intros e He. now rewrite H, He.
Qed.

(** X8: a flip entry whose value is none of horizontal, vertical, both (or
    is missing) is skipped: the chain gives what it gives without the
    entry, and the image's flip method is not called. With one of the three
    values the method is called with the matching pair of booleans. *)
Theorem X8_flip_values (img : image) (pre post : list string) (fv : gmap string jsval) :
  (strict_eq_string (filterValue fv "flip") "horizontal" = false ->
   strict_eq_string (filterValue fv "flip") "vertical" = false ->
   strict_eq_string (filterValue fv "flip") "both" = false ->
   applyFilters img (Some (pre ++ "flip" :: post)) fv
   = applyFilters img (Some (pre ++ post)) fv)
  /\ (forall v, fv !! "flip" = Some (VString v) ->
        In v ["horizontal"; "vertical"; "both"] ->
        applyFilter fv img "flip"
        = call "flip" [VBool (negb (String.eqb v "vertical"));
                       VBool (negb (String.eqb v "horizontal"))] img).
Proof.
  split.
  - intros Hh Hv Hb. rewrite applyFilters_at, applyFilters_Some, foldM_app.
    destruct (foldM (applyFilter fv) img pre) as [i|e]; simpl; [|reflexivity].
    unfold applyFilter. simpl. now rewrite Hh, Hv, Hb.
  - intros v Hv Hin. unfold applyFilter, filterValue. rewrite Hv. simpl.
    destruct Hin as [<-|[<-|[<-|[]]]]; reflexivity.
Qed.

End ChainFacts.

Module PromptListFacts.
Import FilterPrompts Notions.

Lemma add_prompt_app (acc : list prompt) (filter : string) :
  add_prompt acc filter = acc ++ add_prompt [] filter.
Proof.
  unfold add_prompt.
  repeat match goal with
         | |- context [if ?b then _ else _] => destruct b; [reflexivity|]
         end.
  now rewrite app_nil_r.
Qed.

Lemma construct_app (acc : list prompt) (filters : list string) :
  fold_left add_prompt filters acc = acc ++ flat_map (add_prompt []) filters.
Proof.
  revert acc. induction filters as [|f filters IH]; intros acc; simpl.
  - now rewrite app_nil_r.
  - rewrite IH, (add_prompt_app acc f). now rewrite <- app_assoc.
Qed.

Lemma construct_flat_map (filters : list string) :
  constructFilterPrompts filters = flat_map (add_prompt []) filters.
Proof. unfold constructFilterPrompts. now rewrite construct_app. Qed.

Lemma add_prompt_cases (filter : string) :
  (cased filter = true /\ exists p, add_prompt [] filter = [p] /\ p_name p = filter)
  \/ (cased filter = false /\ add_prompt [] filter = []).
Proof.
  unfold add_prompt, cased. simpl.
  destruct (String.eqb filter "flip") eqn:Hflip;
  destruct (String.eqb filter "brightness") eqn:Hb;
  destruct (String.eqb filter "contrast") eqn:Hc;
  destruct (String.eqb filter "opacity") eqn:Ho;
  destruct (String.eqb filter "rotate") eqn:Hr;
  destruct (String.eqb filter "posterize") eqn:Hp; simpl;
    try (right; split; reflexivity);
    left; (split; [reflexivity | eexists; split; reflexivity]).
Qed.

End PromptListFacts.

(** X9: the prompts for filter values are asked in the order the filters
    were selected, one for each selected filter that [applyFilters] reads a
    value for (flip, brightness, contrast, opacity, rotate, posterize) and
    none for the others. *)
Theorem X9_prompts_follow_selection (filters : list string) :
  map FilterPrompts.p_name (FilterPrompts.constructFilterPrompts filters)
  = List.filter Notions.cased filters.
Proof.
  rewrite PromptListFacts.construct_flat_map.
  induction filters as [|f filters IH]; [reflexivity|].
  cbn [flat_map List.filter]. rewrite map_app, IH.
  destruct (PromptListFacts.add_prompt_cases f) as [[Hc (p & -> & Hp)]|[Hc ->]];
    rewrite Hc; [simpl; now rewrite Hp | reflexivity].
Qed.

(** X10: a value the prompts accept lies in the range of its filter (1 to
    255 for posterize, 0 to 100 for opacity, -100 to 100 for brightness and
    contrast), and every prompt's initial value is one its own check
    accepts. *)
Theorem X10_prompt_ranges (filters : list string) (p : FilterPrompts.prompt)
    (check : Z -> bool) :
  In p (FilterPrompts.constructFilterPrompts filters) ->
  FilterPrompts.p_validate p = Some check ->
  (forall x, check x = true ->
     (FilterPrompts.p_name p = "posterize" /\ 1 <= x <= 255)
     \/ (FilterPrompts.p_name p = "opacity" /\ 0 <= x <= 100)
     \/ ((FilterPrompts.p_name p = "brightness" \/ FilterPrompts.p_name p = "contrast")
         /\ -100 <= x <= 100))
  /\ (forall i, FilterPrompts.p_initial p = Some i -> check i = true).
Proof.
  rewrite PromptListFacts.construct_flat_map, in_flat_map.
  intros (f & _ & Hp) Hcheck. unfold FilterPrompts.add_prompt in Hp.
  assert (Hbetween : forall lo hi x, FilterPrompts.between lo hi x = true -> lo <= x <= hi).
  { intros lo hi x H. unfold FilterPrompts.between in H.
    apply andb_true_iff in H as [H1 H2]. lia. }
  destruct (String.eqb f "brightness") eqn:Eb;
    [|destruct (String.eqb f "contrast") eqn:Ec;
      [|destruct (String.eqb f "opacity") eqn:Eo;
        [|destruct (String.eqb f "posterize") eqn:Ep;
          [|destruct (String.eqb f "rotate") eqn:Er;
            [|destruct (String.eqb f "flip") eqn:Ef]]]]];
    simpl in Hp; try contradiction; destruct Hp as [<-|[]];
    simpl in Hcheck; try discriminate; injection Hcheck as <-;
    rewrite ?String.eqb_eq in *;
    (split; [intros x Hx; apply Hbetween in Hx; simpl; auto 6
            | intros i [= <-]; reflexivity]).
Qed.

Lemma X10_prompt_ranges_witness :
  (forall x, FilterPrompts.between 0 100 x = true ->
     ("opacity" = "posterize" /\ 1 <= x <= 255)
     \/ ("opacity" = "opacity" /\ 0 <= x <= 100)
     \/ (("opacity" = "brightness" \/ "opacity" = "contrast") /\ -100 <= x <= 100))
  /\ (forall i, Some 1 = Some i -> FilterPrompts.between 0 100 i = true).
Proof.
  apply (X10_prompt_ranges ["invert"; "opacity"]
           {| FilterPrompts.p_type := FilterPrompts.number_prompt;
              FilterPrompts.p_name := "opacity";
              FilterPrompts.p_message := "Adjust opacity: (0 - 100)";
              FilterPrompts.p_initial := Some 1;
              FilterPrompts.p_validate := Some (FilterPrompts.between 0 100);
              FilterPrompts.p_choices := [] |}
           (FilterPrompts.between 0 100));
    [left; reflexivity | reflexivity].
Defined.

(** ** Paths: segments, the default name, quotes and the extension *)

Module PathFacts.
Import StringFacts Notions FilterPrompts.

Lemma all_chars_app (p : ascii -> bool) (s t : string) :
  all_chars p (s +:+ t) = all_chars p s && all_chars p t.
Proof.
  induction s as [|c s IH]; [reflexivity|].
  rewrite app_cons. cbn [all_chars]. now rewrite IH, andb_assoc.
Qed.

Lemma all_chars_impl (p q : ascii -> bool) (s : string) :
  (forall c, p c = true -> q c = true) -> all_chars p s = true -> all_chars q s = true.
Proof.
  intros Hpq. induction s as [|c s IH]; [reflexivity|]. cbn [all_chars].
  rewrite !andb_true_iff. intros [Hc Hs]. auto.
Qed.

Lemma split_no_sep (sep : ascii) (s : string) :
  all_chars (is_not sep) s = true -> JsString.split sep s = [s].
Proof.
  induction s as [|c s IH]; [reflexivity|]. cbn [all_chars JsString.split].
  rewrite andb_true_iff. unfold is_not at 1. intros [Hc Hs].
  apply negb_true_iff in Hc. rewrite Hc, (IH Hs). reflexivity.
Qed.

(** No segment of a split contains the separator. *)
Lemma split_segments (sep : ascii) (s : string) :
  Forall (fun seg => all_chars (is_not sep) seg = true) (JsString.split sep s).
Proof.
  induction s as [|c s IH]; [repeat constructor|]. cbn [JsString.split].
  destruct (Ascii.eqb c sep) eqn:Hc; [constructor; [reflexivity | exact IH]|].
  destruct (JsString.split sep s) as [|seg segs]; [repeat constructor|].
  - cbn [all_chars]. unfold is_not. now rewrite Hc.
  - inversion IH as [|? ? Hseg Hsegs]; subst. constructor; [|exact Hsegs].
    cbn [all_chars]. unfold is_not at 1. now rewrite Hc.
Qed.

Lemma pop_split_app (sep : ascii) (p t : string) :
  JsString.pop (JsString.split sep (p +:+ String sep t))
  = JsString.pop (JsString.split sep t).
Proof.
  unfold JsString.pop. rewrite DimensionFacts.split_app.
  pose proof (DimensionFacts.split_nonempty sep t) as Hne.
  destruct (JsString.split sep t) as [|seg segs]; [congruence|].
  apply LocatorFacts.last_app_nonempty.
Qed.

Lemma shift_split_app (sep : ascii) (p t : string) :
  all_chars (is_not sep) p = true ->
  shift (JsString.split sep (p +:+ String sep t)) = p.
Proof.
  intros Hp. rewrite DimensionFacts.split_app, (split_no_sep _ _ Hp). reflexivity.
Qed.

Lemma delete_unsafe_safe (s : string) :
  all_chars is_name_char (delete_unsafe s) = true.
Proof.
  induction s as [|c s IH]; [reflexivity|]. cbn [delete_unsafe].
  destruct (is_name_char c) eqn:Hc; [|exact IH]. cbn [all_chars]. now rewrite Hc, IH.
Qed.

Lemma delete_unsafe_id (s : string) :
  all_chars is_name_char s = true -> delete_unsafe s = s.
Proof.
  induction s as [|c s IH]; [reflexivity|]. cbn [all_chars delete_unsafe].
  rewrite andb_true_iff. intros [Hc Hs]. now rewrite Hc, (IH Hs).
Qed.

Lemma replace_spaces_id (s : string) :
  all_chars (is_not " ") s = true -> replace_spaces s = s.
Proof.
  induction s as [|c s IH]; [reflexivity|]. cbn [all_chars replace_spaces].
  rewrite andb_true_iff. unfold is_not at 1. intros [Hc Hs].
  apply negb_true_iff in Hc. now rewrite Hc, (IH Hs).
Qed.

Lemma name_char_is_not (d : ascii) (c : ascii) :
  is_name_char d = false -> is_name_char c = true -> is_not d c = true.
Proof.
  intros Hd Hc. unfold is_not. apply negb_true_iff.
  destruct (Ascii.eqb c d) eqn:E; [|reflexivity].
  apply Ascii.eqb_eq in E. congruence.
Qed.

Lemma last_char_snoc (c : ascii) (s : string) (q : ascii) :
  s <> EmptyString -> JsString.last_char (String c s) = Some q ->
  exists m, s = m +:+ String q EmptyString.
Proof.
  revert c. induction s as [|d s IH]; intros c Hne H; [congruence|].
  destruct s as [|d' s'].
  - simpl in H. injection H as <-. now exists EmptyString.
  - destruct (IH d) as [m Hm]; [discriminate | exact H|].
    exists (String d m). now rewrite app_cons, <- Hm.
Qed.

Lemma last_In {A : Type} (l : list A) (d : A) : l <> [] -> In (List.last l d) l.
Proof.
  induction l as [|x l IH]; [congruence|]. intros _.
  destruct l as [|y l]; [now left|]. right. apply IH. discriminate.
Qed.

End PathFacts.

(** X11: the default name offered for a run is never empty and is made of
    letters, digits and dashes only, whatever the locator: it cannot hold a
    slash, a dot, a quote or a space. *)
Theorem X11_default_name_is_safe (image : string) :
  FilterPrompts.imageName image <> EmptyString
  /\ Notions.all_chars FilterPrompts.is_name_char (FilterPrompts.imageName image) = true.
Proof.
  unfold FilterPrompts.imageName.
  set (cleaned := FilterPrompts.delete_unsafe _).
  destruct (truthy cleaned) eqn:Ht.
  - split; [|apply PathFacts.delete_unsafe_safe].
    unfold truthy in Ht. apply negb_true_iff in Ht.
    intros Heq. rewrite Heq in Ht. discriminate.
  - split; [discriminate | reflexivity].
Qed.

(** X12: for a locator whose file name starts with a run of letters, digits
    and dashes followed by a dot, the default name is that run: the
    directories before the last slash and everything from the first dot of
    the file name on are dropped. *)
Theorem X12_default_name_of_path (dir base rest : string) :
  base <> EmptyString ->
  Notions.all_chars FilterPrompts.is_name_char base = true ->
  Notions.all_chars (Notions.is_not "/") rest = true ->
  FilterPrompts.imageName (dir +:+ "/" +:+ base +:+ "." +:+ rest) = base
  /\ FilterPrompts.imageName (base +:+ "." +:+ rest) = base.
Proof.
  intros Hne Hbase Hrest.
  assert (Hnot : forall d, FilterPrompts.is_name_char d = false ->
                           Notions.all_chars (Notions.is_not d) base = true).
  { intros d Hd. apply (PathFacts.all_chars_impl FilterPrompts.is_name_char); [|exact Hbase].
    intros c. now apply PathFacts.name_char_is_not. }
  assert (Hfile : JsString.split "/" (base +:+ String "." rest)
                  = [base +:+ String "." rest]).
  { apply PathFacts.split_no_sep. rewrite PathFacts.all_chars_app.
    rewrite (Hnot "/"%char eq_refl). cbn [Notions.all_chars]. now rewrite Hrest. }
  assert (Hname : forall file, JsString.pop (JsString.split "/" file)
                               = base +:+ String "." rest ->
                               FilterPrompts.imageName file = base).
  { intros file Hpop. unfold FilterPrompts.imageName. rewrite Hpop.
    rewrite (PathFacts.shift_split_app "." base rest (Hnot "."%char eq_refl)).
    rewrite (PathFacts.replace_spaces_id base (Hnot " "%char eq_refl)).
    rewrite (PathFacts.delete_unsafe_id base Hbase).
    destruct base; [congruence | reflexivity]. }
  rewrite !StringFacts.app_cons, !StringFacts.app_nil_l. split; apply Hname.
  - rewrite PathFacts.pop_split_app, Hfile. reflexivity.
  - rewrite Hfile. reflexivity.
Qed.

Lemma X12_default_name_of_path_witness :
  FilterPrompts.imageName ("/home/me/pics" +:+ "/" +:+ "party-2024" +:+ "." +:+ "final.gif'")
  = "party-2024"
  /\ FilterPrompts.imageName ("party-2024" +:+ "." +:+ "final.gif'") = "party-2024".
Proof.
  apply (X12_default_name_of_path "/home/me/pics" "party-2024" "final.gif'");
    [discriminate | reflexivity | reflexivity].
Defined.

(** X13: stripping undoes one layer of quoting, and only that: a locator
    between two single quotes gives what is between them; the lone quote
    gives the empty string; every other locator is left as it is. *)
Theorem X13_strip_quotes_cases (s : string) :
  (forall m, strip_quotes ("'" +:+ m +:+ "'") = m)
  /\ ((JsString.startsWith "'" s && JsString.endsWith "'" s = false
       /\ strip_quotes s = s)
      \/ (s = "'" /\ strip_quotes s = EmptyString)
      \/ s = "'" +:+ strip_quotes s +:+ "'").
Proof.
  split.
  - intros m. rewrite StringFacts.app_cons, StringFacts.app_nil_l.
    apply LocatorFacts.strip_quotes_quoted.
  - destruct (JsString.startsWith "'" s && JsString.endsWith "'" s) eqn:Hq.
    + right. apply andb_true_iff in Hq as [Hstart Hend].
      destruct s as [|c s]; [discriminate|]. simpl in Hstart.
      apply Ascii.eqb_eq in Hstart as ->.
      destruct s as [|d s']; [left; split; reflexivity|].
      right. unfold JsString.endsWith in Hend.
      destruct (JsString.last_char (String "'" (String d s'))) as [q|] eqn:Hlast;
        [|discriminate].
      apply Ascii.eqb_eq in Hend as ->.
      destruct (PathFacts.last_char_snoc "'" (String d s') "'") as [m Hm];
        [discriminate | exact Hlast|].
      rewrite Hm, LocatorFacts.strip_quotes_quoted.
      now rewrite StringFacts.app_cons, StringFacts.app_nil_l.
    + left. split; [reflexivity|]. now apply LocatorFacts.strip_quotes_unquoted.
Qed.

(** X14: the extension, taken as what follows the last dot, never holds a
    dot; it depends on nothing before the last dot; and for a locator with
    no dot at all it is the whole locator. *)
Theorem X14_extension_is_last_segment (s : string) :
  Notions.all_chars (Notions.is_not ".") (extension s) = true
  /\ (forall p, extension (p +:+ "." +:+ s) = extension s)
  /\ (Notions.all_chars (Notions.is_not ".") s = true -> extension s = s).
Proof.
  split; [|split].
  - unfold extension, JsString.pop.
    pose proof (PathFacts.split_segments "." s) as Hsegs.
    pose proof (DimensionFacts.split_nonempty "." s) as Hne.
    destruct (JsString.split "." s) as [|seg segs]; [congruence|].
    rewrite List.Forall_forall in Hsegs. apply Hsegs.
    apply PathFacts.last_In. discriminate.
  - intros p. rewrite StringFacts.app_cons, StringFacts.app_nil_l.
    apply LocatorFacts.extension_app.
  - intros Hs. unfold extension. now rewrite (PathFacts.split_no_sep _ _ Hs).
Qed.

(** ** The mask catalog *)

Module CatalogFacts.
Import StringFacts Notions JsNum Spec MaskVariant.

(** [/r/.test(s)]: some part of [s] is in the language. *)
Lemma test_anywhere_spec (r : Regex.regex) (s : string) :
  Regex.test_anywhere r s = true <-> exists p m t, s = p +:+ m +:+ t /\ Regex.lang r m.
Proof.
  unfold Regex.test_anywhere.
  rewrite RegexFacts.matches_lang, RegexFacts.lang_seq_inv. split.
  - intros (p & mt & -> & _ & H).
    apply RegexFacts.lang_seq_inv in H as (m & t & -> & Hm & _). eauto.
  - intros (p & m & t & -> & Hm). exists p, (m +:+ t).
    split; [reflexivity|]. split; [apply RegexFacts.lang_any_star|].
    apply RegexFacts.lang_seq_inv. exists m, t.
    auto using RegexFacts.lang_any_star.
Qed.

Lemma lang_dot_char (m : string) :
  Regex.lang (Regex.Seq (Regex.Chr ".") (Regex.Class Prompts.not_slash_dot)) m
  <-> exists c, Prompts.not_slash_dot c = true /\ m = String "." (String c EmptyString).
Proof.
  rewrite RegexFacts.lang_seq_inv. split.
  - intros (a & b & -> & Ha & Hb). apply RegexFacts.lang_chr_inv in Ha as ->.
    apply RegexFacts.lang_class_inv in Hb as (c & Hc & ->). eauto.
  - intros (c & Hc & ->). exists ".", (String c EmptyString).
    split; [reflexivity|]. split; [now apply RegexFacts.lang_chr_inv|].
    apply RegexFacts.lang_class_inv. eauto.
Qed.

Lemma white_not_digit (c : ascii) : Prompts.is_digit c = true -> JsString.is_white c = false.
Proof.
  intros H. apply DimensionFacts.is_digit_range in H. unfold JsString.is_white.
  repeat match goal with
         | |- context [(?a <=? ?b)%nat] => destruct (Nat.leb_spec a b)
         | |- context [(?a =? ?b)%nat] => destruct (Nat.eqb_spec a b)
         end; simpl; try reflexivity; lia.
Qed.

Lemma digit_prefix_numeral (s : string) (acc : option Z) :
  numeral s = true ->
  digit_prefix 10 acc s
  = Some (default 0 acc * 10 ^ Z.of_nat (String.length s) + decimal s).
Proof.
  revert acc. induction s as [|c s IH]; intros acc H; [discriminate|].
  apply DimensionFacts.numeral_String in H as [Hc Hs].
  cbn [digit_prefix]. rewrite (DimensionFacts.digit_value_digit _ Hc).
  pose proof Hc as Hrange. apply DimensionFacts.is_digit_range in Hrange.
  replace (Z.of_nat (nat_of_ascii c) - 48 <? 10) with true
    by (symmetry; apply Z.ltb_lt; lia).
  cbn [String.length decimal]. rewrite Nat2Z.inj_succ, Z.pow_succ_r by lia.
  destruct Hs as [->|Hs].
  - cbn [digit_prefix String.length decimal]. change (Z.of_nat 0) with 0.
    rewrite Z.pow_0_r. f_equal. lia.
  - rewrite (IH _ Hs). cbn [default]. unfold id. f_equal. ring.
Qed.

Lemma sign_of_digit (c : ascii) (s : string) :
  Prompts.is_digit c = true ->
  match String c s with
  | String "-" s' => (-1, s')
  | String "+" s' => (1, s')
  | _ => (1, String c s)
  end = (1, String c s).
Proof.
  destruct c as [[] [] [] [] [] [] [] []]; try reflexivity; discriminate.
Qed.

(** [parseInt] reads a run of decimal digits as its value. *)
Lemma parseInt_numeral (w : string) : numeral w = true -> parseInt w = Int (decimal w).
Proof.
  intros H. unfold parseInt.
  destruct w as [|c w]; [discriminate|].
  pose proof H as Hc. apply DimensionFacts.numeral_String in Hc as [Hc _].
  cbn [JsString.trimStart]. rewrite (white_not_digit _ Hc).
  rewrite (sign_of_digit c w Hc).
  rewrite (DimensionFacts.hex_prefix_numeral _ H).
  rewrite (digit_prefix_numeral _ None H). cbn [default]. f_equal. lia.
Qed.

Lemma numeral_no_dot (w : string) :
  numeral w = true -> all_chars (is_not ".") w = true.
Proof.
  induction w as [|c w IH]; [discriminate|]. intros H.
  apply DimensionFacts.numeral_String in H as [Hc Hw]. cbn [all_chars].
  apply andb_true_iff. split.
  - unfold is_not. apply negb_true_iff. destruct (Ascii.eqb c ".") eqn:E; [|reflexivity].
    apply Ascii.eqb_eq in E as ->. discriminate.
  - destruct Hw as [->|Hw]; [reflexivity | now apply IH].
Qed.

Lemma alphabet_truthy : Forall (fun s => truthy s = true) alphabet.
Proof. repeat constructor. Qed.

Lemma alphabet_NoDup : NoDup alphabet.
Proof. apply (bool_decide_unpack (NoDup alphabet)). vm_compute. exact I. Qed.

(** [parseInt] keeps every digit: it answers an integer or [NaN]. *)
Lemma parseInt_finite (s : string) : (exists k, parseInt s = Int k) \/ parseInt s = NaN.
Proof.
  unfold parseInt.
  destruct (match JsString.trimStart s with
            | String "-" s' => (-1, s')
            | String "+" s' => (1, s')
            | _ => (1, JsString.trimStart s)
            end) as [sign t].
  destruct (match hex_prefix t with
            | Some s' => (16, s')
            | None => (10, t)
            end) as [radix u].
  destruct (digit_prefix radix None u) as [v|]; [left; eauto | now right].
Qed.

(** What [maskName] answers, from the number its file name starts with. *)
Lemma maskName_cases (maskFile : string) :
  let n := parseInt (hd EmptyString (JsString.split "." maskFile)) in
  (exists k s, n = Int k /\ 1 <= k <= 63
               /\ alphabet !! Z.to_nat (k - 1) = Some s /\ maskName maskFile = Ok s)
  \/ ((n = NaN \/ exists k, n = Int k /\ ~ 1 <= k <= 63)
      /\ maskName maskFile = Throw (ReferenceError "maskName")).
Proof.
  cbv zeta. unfold maskName.
  destruct (parseInt_finite (hd EmptyString (JsString.split "." maskFile)))
    as [[k ->]| ->]; [|right; split; [now left | reflexivity]].
  cbn [sub index].
  destruct (Z.ltb_spec (k - 1) 0) as [Hneg|Hpos].
  - right. split; [right; exists k; split; [reflexivity | lia] | reflexivity].
  - destruct (alphabet !! Z.to_nat (k - 1)) as [s|] eqn:Hs.
    + left. exists k, s. split; [reflexivity|].
      pose proof (lookup_lt_Some _ _ _ Hs) as Hlt.
      change (length alphabet) with 63%nat in Hlt.
      split; [lia|]. split; [exact Hs|].
      now rewrite (Forall_lookup_1 _ _ _ _ alphabet_truthy Hs).
    + right. apply lookup_ge_None in Hs.
      change (length alphabet) with 63%nat in Hs.
      split; [right; exists k; split; [reflexivity | lia] | reflexivity].
Qed.

End CatalogFacts.

(** X15: among the names of a directory listing (no slash), the mask
    variant hides exactly those that begin with a dot followed by a
    character other than a dot; [.DS_Store] is hidden, [..x] and [1.png]
    are not. *)
Theorem X15_hidden_names (item : string) :
  Notions.all_chars (Notions.is_not "/") item = true ->
  (Prompts.hidden item = true
   <-> exists c rest, item = String "." (String c rest) /\ c <> "."%char).
Proof.
  intros Hslash. unfold Prompts.hidden.
  rewrite orb_true_iff, RegexFacts.test_prefix_spec, CatalogFacts.test_anywhere_spec.
  split.
  - intros [(p & t & -> & Hp)|(p & m & t & -> & Hm)].
    + apply CatalogFacts.lang_dot_char in Hp as (c & Hc & ->).
      exists c, t. split; [reflexivity|]. intros ->. discriminate.
    + apply RegexFacts.lang_seq_inv in Hm as (a & b & -> & Ha & _).
      apply RegexFacts.lang_chr_inv in Ha as ->.
      rewrite !PathFacts.all_chars_app in Hslash.
      rewrite !andb_true_iff in Hslash. destruct Hslash as (_ & (Hs & _) & _).
      discriminate.
  - intros (c & rest & -> & Hc). left.
    exists (String "." (String c EmptyString)), rest. split; [reflexivity|].
    apply CatalogFacts.lang_dot_char. exists c. split; [|reflexivity].
    cbn [Notions.all_chars] in Hslash. rewrite !andb_true_iff in Hslash.
    destruct Hslash as (_ & Hslash & _).
    unfold Prompts.not_slash_dot. apply negb_true_iff, orb_false_iff. split.
    + unfold Notions.is_not in Hslash. now apply negb_true_iff in Hslash.
    + destruct (Ascii.eqb c ".") eqn:E; [|reflexivity].
      apply Ascii.eqb_eq in E. congruence.
Qed.

Lemma X15_hidden_names_witness :
  Prompts.hidden ".DS_Store" = true
  <-> exists c rest, ".DS_Store" = String "." (String c rest) /\ c <> "."%char.
Proof. apply (X15_hidden_names ".DS_Store"). reflexivity. Defined.

(** X16: a mask file named by a run of decimal digits and an extension is
    given entry [number - 1] of the table when the number is between 1 and
    63 (leading zeros allowed); for any other number the look-up throws a
    [ReferenceError]: the number is never kept as a name. *)
Theorem X16_mask_name_of_number (w rest : string) :
  Spec.numeral w = true ->
  (1 <= Spec.decimal w <= 63 ->
   exists s, MaskVariant.alphabet !! Z.to_nat (Spec.decimal w - 1) = Some s
             /\ MaskVariant.maskName (w +:+ "." +:+ rest) = Ok s)
  /\ (~ 1 <= Spec.decimal w <= 63 ->
      MaskVariant.maskName (w +:+ "." +:+ rest) = Throw (ReferenceError "maskName")).
Proof.
  intros Hw.
  pose proof (CatalogFacts.maskName_cases (w +:+ "." +:+ rest)) as Hcases.
  cbv zeta in Hcases.
  rewrite StringFacts.app_cons, StringFacts.app_nil_l in Hcases.
  change (hd EmptyString (JsString.split "." (w +:+ String "." rest)))
    with (FilterPrompts.shift (JsString.split "." (w +:+ String "." rest))) in Hcases.
  rewrite (PathFacts.shift_split_app "." w rest (CatalogFacts.numeral_no_dot w Hw)) in Hcases.
  rewrite (CatalogFacts.parseInt_numeral w Hw) in Hcases.
  rewrite StringFacts.app_cons, StringFacts.app_nil_l.
  destruct Hcases as [(k & s & [= <-] & Hk & Hs & Hok)|[[Hnan|(k & [= <-] & Hk)] Hthrow]];
    try discriminate; split; intros Hrange; try lia; eauto.
Qed.

Lemma X16_mask_name_of_number_witness :
  (1 <= Spec.decimal "007" <= 63 ->
   exists s, MaskVariant.alphabet !! Z.to_nat (Spec.decimal "007" - 1) = Some s
             /\ MaskVariant.maskName ("007" +:+ "." +:+ "png") = Ok s)
  /\ (~ 1 <= Spec.decimal "007" <= 63 ->
      MaskVariant.maskName ("007" +:+ "." +:+ "png") = Throw (ReferenceError "maskName")).
Proof. apply (X16_mask_name_of_number "007" "png"). reflexivity. Defined.

(** X17: whatever the file name, [maskName] either answers an entry of the
    table or throws a [ReferenceError]; and two files get the same name
    only when [parseInt] reads the same number from both, so that the GIF
    outputs of different mask numbers never share a file. *)
Theorem X17_mask_names_are_table_entries (file1 file2 : string) (s : string) :
  MaskVariant.maskName file1 = Ok s ->
  In s MaskVariant.alphabet
  /\ (MaskVariant.maskName file2 = Ok s ->
      JsNum.parseInt (hd EmptyString (JsString.split "." file1))
      = JsNum.parseInt (hd EmptyString (JsString.split "." file2)))
  /\ (forall e, MaskVariant.maskName file2 = Throw e -> e = ReferenceError "maskName").
Proof.
  intros H1.
  destruct (CatalogFacts.maskName_cases file1) as [(k1 & s1 & Hn1 & Hk1 & Hs1 & Hok1)|[_ Ht]];
    [|congruence].
  assert (s1 = s) as -> by congruence.
  split; [apply list_elem_of_In; now apply list_elem_of_lookup_2 in Hs1|].
  split.
  - intros H2.
    destruct (CatalogFacts.maskName_cases file2)
      as [(k2 & s2 & Hn2 & Hk2 & Hs2 & Hok2)|[_ Ht]]; [|congruence].
    assert (s2 = s) as -> by congruence.
    pose proof (NoDup_lookup _ _ _ _ CatalogFacts.alphabet_NoDup Hs1 Hs2) as Heq.
    rewrite Hn1, Hn2. f_equal. lia.
  - intros e He.
    destruct (CatalogFacts.maskName_cases file2) as [(k2 & s2 & _ & _ & _ & Hok2)|[_ Ht]];
      congruence.
Qed.

Lemma X17_mask_names_are_table_entries_witness :
  In "B" MaskVariant.alphabet
  /\ (MaskVariant.maskName "02.gif" = Ok "B" ->
      JsNum.parseInt (hd EmptyString (JsString.split "." "2.png"))
      = JsNum.parseInt (hd EmptyString (JsString.split "." "02.gif")))
  /\ (forall e, MaskVariant.maskName "02.gif" = Throw e -> e = ReferenceError "maskName").
Proof. apply (X17_mask_names_are_table_entries "2.png" "02.gif" "B"). reflexivity. Defined.

(** ** Runs of [init] in the mask variant *)

Section MaskRunFacts.
Context {N : JsNumber} {J : Jimp} {G : GifFrames}.
Import JsNum Spec Notions MaskVariant.

Lemma mask_frames_from (ext mode : string) (frames : list Frame)
    (gif0 gif : list Entry) (msk m : image) :
  foldM (fun '(gif, msk) fr =>
           let jimpFrame := getImage fr in
           let* (frame, msk) := getImageWithMask jimpFrame msk ext mode in
           Ok (gif ++ [{| frame := frame; frameInfo_of := frame_info fr |}], msk))
        (gif0, msk) frames = Ok (gif, m) ->
  map frameInfo_of gif = map frameInfo_of gif0 ++ map frame_info frames.
Proof.
  revert gif0 msk. induction frames as [|fr frames IH]; intros gif0 msk.
  - simpl. intros [= <- _]. now rewrite app_nil_r.
  - cbn [foldM]. cbv zeta.
    destruct (getImageWithMask (getImage fr) msk ext mode) as [[t m1]|e]; [|discriminate].
    cbn [result_bind]. intros H. apply IH in H.
    rewrite H, map_app, <- app_assoc. reflexivity.
Qed.

(** Each masked animation keeps the frames' metadata, in order. *)
Lemma mask_frames_infos (frames : list Frame) (msk : image) (ext mode : string)
    (gif : list Entry) (m : image) :
  mask_frames frames msk ext mode = Ok (gif, m) ->
  map frameInfo_of gif = map frame_info frames.
Proof. unfold mask_frames. intros H. now apply mask_frames_from in H. Qed.

Lemma mask_round_keeps (OUT_PATH MASKS_PATH : string) (w : World)
    (name mode image maskFile : string) (frames : list Frame) (effects : list effect) :
  (forall r, gifFrames w r = Ok frames) ->
  snd (mask_round OUT_PATH MASKS_PATH w name mode image maskFile) = Ok effects ->
  Forall (gif_keeps SIZE (map (fun fr => delay (frame_info fr)) frames)) effects
  /\ Forall is_write effects /\ (length effects <= 1)%nat.
Proof.
  intros Hframes. unfold mask_round. cbn [snd].
  destruct (maskName maskFile) as [mname|e]; [|discriminate]. cbn [result_bind].
  destruct (jimp_read w (MASKS_PATH +:+ "/" +:+ maskFile)) as [msk|e]; [|discriminate].
  cbn [result_bind].
  destruct (String.eqb _ "gif").
  - rewrite Hframes. cbn [result_bind].
    destruct (mask_frames frames msk _ mode) as [[gif m]|e] eqn:Hgif; [|discriminate].
    cbn [result_bind]. intros [= <-].
    apply mask_frames_infos in Hgif.
    split; [|split; [repeat constructor | simpl; lia]].
    constructor; [|constructor]. simpl. split.
    + rewrite <- (map_map frame_info delay frames), <- Hgif, !map_map. reflexivity.
    + apply Forall_fmap, Forall_forall. intros e _. split; reflexivity.
  - destruct (let* img := jimp_read w _ in getImageWithMask img msk _ mode)
      as [[masked m]|e]; intros [= <-].
    + split; [|split; [repeat constructor | simpl; lia]]. repeat constructor.
    + split; [|split; [constructor | simpl; lia]]. constructor.
Qed.

Lemma mask_loop_keeps (OUT_PATH MASKS_PATH : string) (w : World)
    (name mode : string) (frames : list Frame) (masks : list string) (image : string) :
  (forall r, gifFrames w r = Ok frames) ->
  let effects := fst (mask_loop OUT_PATH MASKS_PATH w name mode image masks) in
  Forall (gif_keeps SIZE (map (fun fr => delay (frame_info fr)) frames)) effects
  /\ Forall is_write effects /\ (length effects <= length masks)%nat.
Proof.
  intros Hframes. cbv zeta. revert image.
  induction masks as [|maskFile rest IH]; intros image.
  - repeat constructor.
  - cbn [mask_loop].
    pose proof (mask_round_keeps OUT_PATH MASKS_PATH w name mode image maskFile frames)
      as Hround.
    destruct (mask_round OUT_PATH MASKS_PATH w name mode image maskFile)
      as [image' [effects|e]]; [|simpl; repeat constructor; lia].
    destruct (Hround effects Hframes eq_refl) as (Hk & Hw & Hl).
    specialize (IH image').
    destruct (mask_loop OUT_PATH MASKS_PATH w name mode image' rest) as [later r].
    cbn [fst] in *. destruct IH as (IHk & IHw & IHl).
    rewrite !Forall_app, length_app. simpl. repeat split; try assumption. lia.
Qed.

(** X18: in a run of the mask variant on an animation, every GIF written
    has exactly the source's delays, in the source's order, and declares
    each frame 128 by 128, whichever the mask. *)
Theorem X18_mask_gifs_keep_delays (OUT_PATH MASKS_PATH DATA_PATH : string) (w : World)
    (args : Args) (frames : list Frame) :
  (forall r, gifFrames w r = Ok frames) ->
  Forall (gif_keeps SIZE (map (fun fr => delay (frame_info fr)) frames))
    (fst (init OUT_PATH MASKS_PATH DATA_PATH w args)).
Proof.
  intros Hframes. unfold init.
  pose proof (mask_loop_keeps OUT_PATH MASKS_PATH w (arg_name args) (arg_mode args) frames
                (filter (fun item => negb (Prompts.hidden item) = true) (readdir w))
                (arg_image args) Hframes) as Hloop.
  cbv zeta in Hloop.
  destruct (mask_loop _ _ _ _ _ _ _) as [effects r]. cbn [fst app] in *.
  constructor; [exact I|]. constructor; [exact I|]. apply Hloop.
Qed.

(** X19: the run first empties the output directory and records the
    locator as typed; after that it only writes output files, at most one
    for each mask file that is not hidden. *)
Theorem X19_mask_run_effects (OUT_PATH MASKS_PATH DATA_PATH : string) (w : World)
    (args : Args) :
  exists outputs,
    fst (init OUT_PATH MASKS_PATH DATA_PATH w args)
    = housekeeping OUT_PATH DATA_PATH (arg_name args) (arg_image args) ++ outputs
    /\ Forall is_write outputs
    /\ (length outputs
        <= length (filter (fun item => negb (Prompts.hidden item) = true) (readdir w)))%nat.
Proof.
  unfold init.
  assert (Hloop : forall masks image,
            Forall is_write (fst (mask_loop OUT_PATH MASKS_PATH w (arg_name args)
                                    (arg_mode args) image masks))
            /\ (length (fst (mask_loop OUT_PATH MASKS_PATH w (arg_name args)
                               (arg_mode args) image masks)) <= length masks)%nat).
  { induction masks as [|maskFile rest IH]; intros image; [repeat constructor|].
    cbn [mask_loop].
    assert (Hround : forall effects,
              snd (mask_round OUT_PATH MASKS_PATH w (arg_name args) (arg_mode args)
                     image maskFile) = Ok effects ->
              Forall is_write effects /\ (length effects <= 1)%nat).
    { unfold mask_round. cbn [snd]. intros effects.
      destruct (maskName maskFile); [|discriminate]. cbn [result_bind].
      destruct (jimp_read w _); [|discriminate]. cbn [result_bind].
      destruct (String.eqb _ "gif").
      - destruct (gifFrames w _); [|discriminate]. cbn [result_bind].
        destruct (mask_frames _ _ _ _) as [[gif m]|]; [|discriminate].
        intros [= <-]. split; [repeat constructor | simpl; lia].
      - destruct (let* img := jimp_read w _ in getImageWithMask img _ _ _)
          as [[masked m]|]; intros [= <-];
          (split; [repeat constructor | simpl; lia]). }
    destruct (mask_round OUT_PATH MASKS_PATH w (arg_name args) (arg_mode args)
                image maskFile) as [image' [effects|e]];
      [|simpl; split; [constructor | lia]].
    destruct (Hround effects eq_refl) as [Hw Hl].
    specialize (IH image').
    destruct (mask_loop OUT_PATH MASKS_PATH w (arg_name args) (arg_mode args) image' rest)
      as [later r].
    cbn [fst] in *. destruct IH as [IHw IHl].
    rewrite Forall_app, length_app. simpl. split; [split; assumption | lia]. }
  specialize (Hloop (filter (fun item => negb (Prompts.hidden item) = true) (readdir w))
                (arg_image args)).
  destruct (mask_loop _ _ _ _ _ _ _) as [effects r]. cbn [fst] in *.
  exists effects. split; [reflexivity | exact Hloop].
Qed.


Context {C : JimpContract} {M : MaskContract}.

(** X21: when the resize gives a 128 by 128 image, the masked image is 128
    by 128, posterized or not; the call fails only if the resize of the
    source or of the mask does. *)
Theorem X21_masked_image_size (img msk : image) (ext mode : string)
    (f : list jsval -> image -> result image) (resized m : image) :
  method mode = Some f ->
  f [VNumber (of_Z SIZE); VNumber (of_Z SIZE)] img = Ok resized ->
  f [VNumber (of_Z SIZE); VNumber (of_Z SIZE)] msk = Ok m ->
  width resized = SIZE -> height resized = SIZE ->
  exists t, getImageWithMask img msk ext mode = Ok (t, m)
            /\ width t = SIZE /\ height t = SIZE.
Proof.
  intros Hm Himg Hmsk Hw Hh. unfold getImageWithMask, call. rewrite Hm, Himg.
  cbn [result_bind]. rewrite Hmsk. cbn [result_bind].
  eexists. split; [reflexivity|].
  destruct (crop_size 0 0 SIZE SIZE (clone resized)) as [Cw Ch];
    rewrite ?clone_width, ?clone_height, ?Hw, ?Hh; unfold SIZE; try lia.
  destruct (String.eqb ext "gif");
    rewrite ?posterize_width, ?posterize_height, ?mask_width, ?mask_height; auto.
Qed.

End MaskRunFacts.

Lemma recorder_mask_contract : @MaskContract sym_number rjimp.
Proof. split; reflexivity. Qed.

Lemma X18_mask_gifs_keep_delays_witness :
  Forall (Notions.gif_keeps MaskVariant.SIZE
            (map (fun fr => delay (frame_info fr)) example_frames))
    (fst (MaskVariant.init "./out" "./masks" "./.data" (world ["1.png"; "2.png"])
            (example_mask_args "cat.gif"))).
Proof.
  apply (X18_mask_gifs_keep_delays (N := sym_number) (J := rjimp) (G := rgif)
           "./out" "./masks" "./.data" (world ["1.png"; "2.png"])
           (example_mask_args "cat.gif") example_frames).
  intros r. reflexivity.
Defined.


Lemma X21_masked_image_size_witness :
  exists t,
    MaskVariant.getImageWithMask (blank "cat.png" 256 256) (blank "1.png" 128 128)
      "png" "cover"
    = Ok (t, {| origin := "1.png"; rwidth := 128; rheight := 128;
                log := [OpCall "cover" [VNumber (SInt 128); VNumber (SInt 128)]] |})
    /\ width t = MaskVariant.SIZE /\ height t = MaskVariant.SIZE.
Proof.
  eapply (X21_masked_image_size (C := recorder_contract) (M := recorder_mask_contract)
            (blank "cat.png" 256 256) (blank "1.png" 128 128) "png" "cover");
    reflexivity.
Defined.

(** ** Numbers in decimal *)

Module DecimalFacts.
Import Spec.

Lemma pretty_char_digit (d : N) :
  (d < 10)%N ->
  Prompts.is_digit (pretty_N_char d) = true
  /\ Z.of_nat (nat_of_ascii (pretty_N_char d)) - 48 = Z.of_N d.
Proof.
  intros Hd.
  assert (d = 0 \/ d = 1 \/ d = 2 \/ d = 3 \/ d = 4 \/ d = 5 \/ d = 6 \/ d = 7
          \/ d = 8 \/ d = 9)%N as H by lia.
  repeat (destruct H as [->|H]; [split; reflexivity|]). subst. split; reflexivity.
Qed.

(** The digits printed for [x] in front of a run of digits [s] read back as
    [x] shifted by the length of [s], plus the value of [s]. *)
Lemma pretty_go_decimal (x : N) :
  forall s : string,
    s = EmptyString \/ numeral s = true ->
    (0 < x)%N ->
    numeral (pretty_N_go x s) = true
    /\ decimal (pretty_N_go x s)
       = Z.of_N x * 10 ^ Z.of_nat (String.length s) + decimal s.
Proof.
  induction (N.lt_wf_0 x) as [x _ IH]. intros s Hs Hx.
  rewrite pretty_N_go_step by assumption.
  destruct (pretty_char_digit (x `mod` 10)%N) as [Hdigit Hvalue];
    [apply N.mod_lt; lia|].
  assert (Hnum : numeral (String (pretty_N_char (x `mod` 10)%N) s) = true).
  { apply DimensionFacts.numeral_String. auto. }
  assert (Hx10 : Z.of_N x = 10 * Z.of_N (x `div` 10) + Z.of_N (x `mod` 10)).
  { rewrite (N.div_mod x 10) at 1 by lia. lia. }
  destruct (N.eq_dec (x `div` 10)%N 0%N) as [Hzero|Hpos].
  - rewrite Hzero, pretty_N_go_0. split; [exact Hnum|].
    cbn [decimal]. rewrite Hvalue, Hx10, Hzero. lia.
  - destruct (IH (x `div` 10)%N) with (s := String (pretty_N_char (x `mod` 10)%N) s)
      as [Hn Hd]; [apply N.div_lt; lia | now right | now apply N.neq_0_lt_0|].
    split; [exact Hn|]. rewrite Hd. cbn [decimal String.length].
    rewrite Hvalue, Hx10, Nat2Z.inj_succ, Z.pow_succ_r by lia. ring.
Qed.

(** A non-negative integer in decimal is a numeral that reads back as the
    integer. *)
Lemma pretty_decimal (n : Z) :
  0 <= n -> numeral (pretty n) = true /\ decimal (pretty n) = n.
Proof.
  intros Hn. destruct n as [|p|p]; [split; reflexivity| |lia].
  unfold pretty, pretty_Z, pretty, pretty_positive, pretty, pretty_N.
  destruct (decide (N.pos p = 0%N)); [discriminate|].
  destruct (pretty_go_decimal (N.pos p) EmptyString) as [Hnum Hdec]; [now left | lia|].
  split; [exact Hnum|]. rewrite Hdec. simpl. lia.
Qed.

End DecimalFacts.

(** X22: every grid that a double holds exactly can be asked for: for
    integers [cols] and [rows] from 0 to 2^53, their decimal writing joined
    by a comma passes the prompt and is read by [init] as [(cols, rows)],
    and the decimal writing of [cols] alone is read as the square grid
    [(cols, cols)]. *)
Theorem X22_decimal_shapes_read_back (cols rows : Z) :
  0 <= cols <= 2 ^ 53 -> 0 <= rows <= 2 ^ 53 ->
  Prompts.validate_dimensions (pretty cols +:+ "," +:+ pretty rows) = true
  /\ Index.parseDimensions (pretty cols +:+ "," +:+ pretty rows)
     = Some (Some (JsNum.Int cols), Some (JsNum.Int rows))
  /\ Prompts.validate_dimensions (pretty cols) = true
  /\ Index.parseDimensions (pretty cols)
     = Some (Some (JsNum.Int cols), Some (JsNum.Int cols)).
Proof.
  intros Hc Hr.
  destruct (DecimalFacts.pretty_decimal cols ltac:(lia)) as [Hnc Hdc].
  destruct (DecimalFacts.pretty_decimal rows ltac:(lia)) as [Hnr Hdr].
  rewrite StringFacts.app_cons, StringFacts.app_nil_l.
  split; [|split; [|split]].
  - apply DimensionFacts.validate_dimensions_spec. left.
    exists (pretty cols), ","%char, (pretty rows). auto.
  - rewrite (DimensionFacts.parse_comma _ _ Hnc Hnr), Hdc, Hdr.
    now rewrite !RoundingFacts.nearest_double_exact.
  - apply DimensionFacts.validate_dimensions_spec. now right.
  - rewrite (DimensionFacts.parse_numeral _ Hnc), Hdc.
    now rewrite !RoundingFacts.nearest_double_exact.
Qed.

Lemma X22_decimal_shapes_read_back_witness :
  Prompts.validate_dimensions (pretty 12 +:+ "," +:+ pretty 0) = true
  /\ Index.parseDimensions (pretty 12 +:+ "," +:+ pretty 0)
     = Some (Some (JsNum.Int 12), Some (JsNum.Int 0))
  /\ Prompts.validate_dimensions (pretty 12) = true
  /\ Index.parseDimensions (pretty 12) = Some (Some (JsNum.Int 12), Some (JsNum.Int 12)).
Proof. apply (X22_decimal_shapes_read_back 12 0); lia. Defined.

(** Past 2^53 the reading rounds: 2^53 + 1 is read as 2^53, the even one of
    its two neighbours, and 2^53 + 3 as 2^53 + 4. *)
Example numeral_past_2_53_is_rounded :
  Index.parseDimensions "9007199254740993"
  = Some (Some (JsNum.Int 9007199254740992), Some (JsNum.Int 9007199254740992))
  /\ Index.parseDimensions "9007199254740995,1"
     = Some (Some (JsNum.Int 9007199254740996), Some (JsNum.Int 1)).
Proof. split; vm_compute; reflexivity. Qed.

(** A numeral of 309 nines passes the prompt and is read as [Infinity],
    one of 308 nines as a double. *)
Example long_numeral_is_infinite :
  Prompts.validate_dimensions (Examples.nines 309) = true
  /\ Index.parseDimensions (Examples.nines 309)
     = Some (Some JsNum.Infinity, Some JsNum.Infinity)
  /\ exists v, Index.parseDimensions (Examples.nines 308)
               = Some (Some (JsNum.Int v), Some (JsNum.Int v))
               /\ v < 2 ^ 1024.
Proof.
  split; [vm_compute; reflexivity|]. split; [vm_compute; reflexivity|].
  eexists. split; [vm_compute; reflexivity | reflexivity].
Qed.

Section InfiniteGridFacts.
Context {N : JsNumber} {J : Jimp} {G : GifFrames}.
Import JsNum Notions Index.

(** With an infinite square grid no output write is issued; once the frames
    of an animation are read, [init] does not return: the loop that
    prepares the per-tile lists has no last round. *)
Lemma infinite_grid_writes_nothing (OUT_PATH DATA_PATH : string) (w : World) (args : Args) :
  parseDimensions (arg_dimensions args) = Some (Some Infinity, Some Infinity) ->
  fst (init OUT_PATH DATA_PATH w args)
  = housekeeping OUT_PATH DATA_PATH (arg_name args) (arg_image args)
  /\ forall frames,
       truthy (arg_image args) && truthy (arg_dimensions args) && truthy (arg_mode args)
       = true ->
       JsString.toLowerCase (extension (strip_quotes (arg_image args))) = "gif" ->
       (let image := strip_quotes (arg_image args) in
        gifFrames w (if isUrl image then Fetched image else Local image) = Ok frames) ->
       snd (init OUT_PATH DATA_PATH w args) = Throw (Endless "init").
Proof.
  intros Hparse. unfold init, housekeeping. split.
  - destruct (truthy (arg_image args) && truthy (arg_dimensions args)
              && truthy (arg_mode args)); [|reflexivity].
    rewrite Hparse. destruct (String.eqb _ "gif").
    + destruct (gifFrames w _) as [frames|e]; reflexivity.
    + destruct (jimp_read w _) as [img|e]; [|reflexivity]. cbn [result_bind].
      destruct (applyFilters img _ _) as [img0|e]; [|reflexivity]. cbn [result_bind].
      unfold splitFrame. destruct (call _ _ img0); reflexivity.
  - intros frames -> Hext Hframes. cbv zeta in Hframes.
    rewrite Hparse, Hext, Hframes. reflexivity.
Qed.

End InfiniteGridFacts.

Example infinite_grid_run :
  Index.init "./out" "./.data" (world []) (example_args "cat.gif" (Examples.nines 309))
  = (Notions.housekeeping "./out" "./.data" "cat" "cat.gif", Throw (Endless "init"))
  /\ Index.init "./out" "./.data" (world []) (example_args "cat.png" (Examples.nines 309))
     = (Notions.housekeeping "./out" "./.data" "cat" "cat.png", Ok tt).
Proof. split; vm_compute; reflexivity. Qed.

(** ** Trimming *)

Module TrimFacts.
Import JsString.

Lemma trimStart_head (s : string) :
  trimStart s = EmptyString
  \/ exists c r, trimStart s = String c r /\ is_white c = false.
Proof.
  induction s as [|c s IH]; [now left|]. cbn [trimStart].
  destruct (is_white c) eqn:Hc; [exact IH | right; eauto].
Qed.

Lemma trimEnd_head (c : ascii) (r : string) :
  is_white c = false -> exists r', trimEnd (String c r) = String c r'.
Proof.
  intros Hc. cbn [trimEnd]. destruct (trimEnd r); rewrite ?Hc; eauto.
Qed.

Lemma trimEnd_idem (s : string) : trimEnd (trimEnd s) = trimEnd s.
Proof.
  induction s as [|c s IH]; [reflexivity|]. cbn [trimEnd].
  destruct (trimEnd s) as [|d t] eqn:Ht.
  - destruct (is_white c) eqn:Hc; [reflexivity|]. cbn [trimEnd]. now rewrite Hc.
  - cbn [trimEnd]. cbn [trimEnd] in IH. rewrite IH. reflexivity.
Qed.

Lemma trim_idem (s : string) : trim (trim s) = trim s.
Proof.
  unfold trim.
  destruct (trimStart_head s) as [->|(c & r & -> & Hc)]; [reflexivity|].
  destruct (trimEnd_head c r Hc) as [r' Hr]. rewrite Hr at 1.
  cbn [trimStart]. rewrite Hc, <- Hr. apply trimEnd_idem.
Qed.

End TrimFacts.

(** X23: the image prompt checks the trimmed value and hands the trimmed
    value on, and trimming twice is trimming once: the locator [init]
    receives passes the check exactly when the typed one did. *)
Theorem X23_formatted_locator_still_valid (value : string) :
  Prompts.format_image (Prompts.format_image value) = Prompts.format_image value
  /\ Prompts.validate_image (Prompts.format_image value) = Prompts.validate_image value.
Proof.
  unfold Prompts.format_image, Prompts.validate_image.
  now rewrite TrimFacts.trim_idem.
Qed.
